(** * Inverse kinematics sketch: the rod-and-joint solver of
    [inverse_kinematics.py], embedded and verified.

    The program keeps a list of points and a list of sticks.  A stick holds
    references to two points and a length fixed when the stick is made.
    [Screen.simulate_frame] sweeps the sticks [Config.STICK_ITERATIONS] times
    and, from every stick with a locked end, [Screen.calculate_joint] snaps the
    free end to the stick's length and walks on along the chain.

    Modelling choices.
    - Python objects have reference identity.  A point is denoted by its index
      in [self.points], a stick by its index in [self.sticks]; [is] on points
      and sticks is equality of indices.  Both lists only ever grow by
      [append], so an index denotes the same object for ever.
    - Coordinates are numpy float64 values.  The arithmetic is a parameter
      (class [Scalar]) with two instances: [float64], Rocq's primitive IEEE 754
      binary64 numbers, which is what the program runs on, and [exact], the
      real numbers, for statements the specification makes about exact
      arithmetic.  Everything that does not depend on arithmetic is proved for
      every instance.  What rounding costs in [float64] is not assumed: it is
      derived from the specification of the primitive floats ([within]).
    - [calculate_joint] is recursive and Python bounds the depth of recursion
      (a [RecursionError] is raised when the bound is reached).  The model
      takes that bound as the argument [depth].  A call yields the screen it
      leaves behind together with the way it ended, since what was written
      before an exception stays written.
    - The three pointer handlers are modelled as well, so that the screens
      used below can be shown to come up in a run of the program.
    - The [body] fields and the canvas only serve the drawing; [draw_screen]
      changes nothing else and is left out.

    The claims of the specification come first; the sections from
    [Pointer] on state what the handlers and the solver do besides. *)

From Stdlib Require Import ZArith Reals Lra Lia.
From Corelib Require PrimFloat FloatAxioms Uint63Axioms.
From stdpp Require Import base list.

(** ** Configuration ([class Config]) *)

Module Config.
Definition SCREEN_SIZE : Z * Z := (900%Z, 700%Z).
Definition POINT_SIZE : Z := 16.
Definition STICK_ITERATIONS : nat := 10.
End Config.

(** ** Arithmetic on coordinates *)

(** The float64 operations the solver uses; [of_int] is [float(n)] and the
    promotion of an integer array in mixed arithmetic. *)
Class Scalar (F : Type) := {
  fadd : F → F → F;
  fsub : F → F → F;
  fmul : F → F → F;
  fdiv : F → F → F;
  fsqrt : F → F;
  fltb : F → F → bool;
  of_int : Z → F
}.

(** IEEE 754 binary64, the arithmetic of numpy's float64. *)
#[export] Instance float64 : Scalar PrimFloat.float := {
  fadd := PrimFloat.add;
  fsub := PrimFloat.sub;
  fmul := PrimFloat.mul;
  fdiv := PrimFloat.div;
  fsqrt := PrimFloat.sqrt;
  fltb := PrimFloat.ltb;
  of_int := λ z,
    match z with
    | Z0 => PrimFloat.zero
    | Zpos _ => PrimFloat.of_uint63 (Uint63Axioms.of_Z z)
    | Zneg _ => PrimFloat.opp (PrimFloat.of_uint63 (Uint63Axioms.of_Z (- z)))
    end
}.

(** Exact arithmetic on the reals.  A quotient by zero has no exact value
    (numpy gives NaN or an infinity and goes on); what is stated over the
    reals below does not depend on the value it is given here. *)
#[export] Instance exact : Scalar R := {
  fadd := Rplus;
  fsub := Rminus;
  fmul := Rmult;
  fdiv := Rdiv;
  fsqrt := R_sqrt.sqrt;
  fltb := λ x y, if Rlt_dec x y then true else false;
  of_int := IZR
}.

(** A numpy array of two coordinates. *)
Definition array (F : Type) : Type := (F * F)%type.

Section Arrays.
Context {F : Type} `{Scalar F}.

(** [u - v], [u + v] on arrays; [u / d], [u * c] by a scalar. *)
Definition asub (u v : array F) : array F := (fsub u.1 v.1, fsub u.2 v.2).
Definition aadd (u v : array F) : array F := (fadd u.1 v.1, fadd u.2 v.2).
Definition adiv (u : array F) (d : F) : array F := (fdiv u.1 d, fdiv u.2 d).
Definition amul (u : array F) (c : F) : array F := (fmul u.1 c, fmul u.2 c).

(** [numpy.linalg.norm], imported as [distance]: the square root of the dot
    product of the array with itself. *)
Definition distance (u : array F) : F :=
  fsqrt (fadd (fmul u.1 u.1) (fmul u.2 u.2)).

End Arrays.

(** ** Data model *)

Module Point.
Record t (F : Type) : Type := mk {
  position : array F;
  locked : bool;
  prevPosition : array F
}.
Arguments mk {F}.
Arguments position {F}.
Arguments locked {F}.
Arguments prevPosition {F}.
End Point.

Module Stick.
(** [pointA] and [pointB] are references to points (indices in
    [Screen.points]). *)
Record t (F : Type) : Type := mk {
  pointA : nat;
  pointB : nat;
  length : F
}.
Arguments mk {F}.
Arguments pointA {F}.
Arguments pointB {F}.
Arguments length {F}.
End Stick.

(** The argument [letter: Literal["A", "B"]] of [calculate_joint]. *)
Inductive Letter : Type := A | B.

Module Screen.
Record t (F : Type) : Type := mk {
  points : list (Point.t F);
  sticks : list (Stick.t F);
  tempPoint : option nat;
  moving_point : option nat
}.
Arguments mk {F}.
Arguments points {F}.
Arguments sticks {F}.
Arguments tempPoint {F}.
Arguments moving_point {F}.
End Screen.

(** How a call ends: it returns, or the recursion bound is hit, or a
    reference denotes no object.  The last cannot happen to a screen built by
    [create_point] and [create_stick] (see [wf]). *)
Inductive Status : Type := Returned | RecursionError | Dangling.

(** A call leaves a screen behind however it ends: Python mutates in place,
    so what was written before an exception stays written. *)
Definition Outcome (F : Type) : Type := (Screen.t F * Status)%type.

Definition and_then {F} (o : Outcome F) (k : Screen.t F → Outcome F) : Outcome F :=
  match o.2 with
  | Returned => k o.1
  | _ => o
  end.

Notation "o >>> k" := (and_then o k) (at level 61, left associativity).

Section Solver.
Context {F : Type} `{Scalar F}.

Definition endpoint (letter : Letter) (stick : Stick.t F) : nat :=
  match letter with
  | A => Stick.pointA stick
  | B => Stick.pointB stick
  end.

Definition other (letter : Letter) : Letter :=
  match letter with
  | A => B
  | B => A
  end.

(** [p.position = v] for the point with index [i]. *)
Definition set_position (i : nat) (v : array F) (s : Screen.t F) : Screen.t F :=
  Screen.mk
    (alter (λ p, Point.mk v (Point.locked p) (Point.prevPosition p)) i (Screen.points s))
    (Screen.sticks s) (Screen.tempPoint s) (Screen.moving_point s).

(** [p.locked = not p.locked] for the point with index [i]. *)
Definition toggle_locked (i : nat) (s : Screen.t F) : Screen.t F :=
  Screen.mk
    (alter (λ p, Point.mk (Point.position p) (negb (Point.locked p)) (Point.prevPosition p))
       i (Screen.points s))
    (Screen.sticks s) (Screen.tempPoint s) (Screen.moving_point s).

(** [Point(array((x, y)))]: both coordinates through [float]. *)
Definition new_point (x y : Z) : Point.t F :=
  Point.mk (of_int x, of_int y) false (of_int x, of_int y).

(** [create_point]: append a new unlocked point. *)
Definition create_point (x y : Z) (s : Screen.t F) : Screen.t F :=
  Screen.mk (Screen.points s ++ [new_point x y]) (Screen.sticks s)
    (Screen.tempPoint s) (Screen.moving_point s).

(** [create_stick]: append a stick whose length is the distance of the two
    points now.  There is no test on the arguments. *)
Definition create_stick (a b : nat) (s : Screen.t F) : Outcome F :=
  match Screen.points s !! a, Screen.points s !! b with
  | Some pa, Some pb =>
      (Screen.mk (Screen.points s)
         (Screen.sticks s ++
            [Stick.mk a b (distance (asub (Point.position pa) (Point.position pb)))])
         (Screen.tempPoint s) (Screen.moving_point s),
       Returned)
  | _, _ => (s, Dangling)
  end.

(** The sticks with their identities, in insertion order. *)
Definition enumerate (l : list (Stick.t F)) : list (nat * Stick.t F) :=
  imap pair l.

(** [[i for i in self.sticks if i is not stick]]. *)
Definition others (si : nat) (l : list (Stick.t F)) : list (nat * Stick.t F) :=
  filter (λ e, e.1 ≠ si) (enumerate l).

(** The [for next_stick in ...] loop at the end of [calculate_joint], with
    the recursive call passed in: the first stick that has [joint] as an end
    is followed, and the loop returns right after. *)
Fixpoint next_loop (call : nat → Letter → Screen.t F → Outcome F) (joint : nat)
    (l : list (nat * Stick.t F)) (s : Screen.t F) : Outcome F :=
  match l with
  | [] => (s, Returned)
  | (k, next_stick) :: l' =>
      if decide (Stick.pointA next_stick = joint) then call k B s
      else if decide (Stick.pointB next_stick = joint) then call k A s
      else next_loop call joint l' s
  end.

(** The position [calculate_joint] writes to the joint. *)
Definition snapped (joint prevJoint : Point.t F) (length : F) : array F :=
  let direction :=
    adiv (asub (Point.position joint) (Point.position prevJoint))
      (distance (asub (Point.position joint) (Point.position prevJoint))) in
  aadd (Point.position prevJoint) (amul direction length).

(** [calculate_joint(stick, letter)], with [depth] calls left before Python
    raises [RecursionError]. *)
Fixpoint calculate_joint (depth : nat) (si : nat) (letter : Letter)
    (s : Screen.t F) : Outcome F :=
  match depth with
  | 0 => (s, RecursionError)
  | S depth' =>
      match Screen.sticks s !! si with
      | None => (s, Dangling)
      | Some stick =>
          match Screen.points s !! endpoint letter stick with
          | None => (s, Dangling)
          | Some joint =>
              if Point.locked joint then (s, Returned)
              else
                match Screen.points s !! endpoint (other letter) stick with
                | None => (s, Dangling)
                | Some prevJoint =>
                    let s' :=
                      set_position (endpoint letter stick)
                        (snapped joint prevJoint (Stick.length stick)) s in
                    next_loop (calculate_joint depth') (endpoint letter stick)
                      (others si (Screen.sticks s')) s'
                end
          end
      end
  end.

(** The body of [for stick in self.sticks] in [simulate_frame]. *)
Definition sweep_step (depth : nat) (e : nat * Stick.t F) (s : Screen.t F) : Outcome F :=
  match Screen.points s !! Stick.pointA e.2, Screen.points s !! Stick.pointB e.2 with
  | Some pa, Some pb =>
      if Point.locked pa then calculate_joint depth e.1 B s
      else if Point.locked pb then calculate_joint depth e.1 A s
      else (s, Returned)
  | _, _ => (s, Dangling)
  end.

(** One pass of [for stick in self.sticks]. *)
Fixpoint sweep (depth : nat) (l : list (nat * Stick.t F)) (s : Screen.t F) : Outcome F :=
  match l with
  | [] => (s, Returned)
  | e :: l' => sweep_step depth e s >>> sweep depth l'
  end.

(** [for _ in range(n)]: [n] passes over the sticks. *)
Fixpoint sweeps (n : nat) (depth : nat) (s : Screen.t F) : Outcome F :=
  match n with
  | 0 => (s, Returned)
  | S n' => sweep depth (enumerate (Screen.sticks s)) s >>> sweeps n' depth
  end.

(** [simulate_frame]. *)
Definition simulate_frame (depth : nat) (s : Screen.t F) : Outcome F :=
  sweeps Config.STICK_ITERATIONS depth s.

End Solver.

(** ** The adjacency step, as the specification words it *)

Section Adjacency.
Context {F : Type}.

Definition touches (touching : nat) (stick : Stick.t F) : Prop :=
  Stick.pointA stick = touching ∨ Stick.pointB stick = touching.

#[export] Instance touches_dec touching stick : Decision (touches touching stick).
Proof. unfold touches. apply _. Defined.

(** Scan from the stick with identity [k] on. *)
Fixpoint first_from (k : nat) (touching excluding : nat) (l : list (Stick.t F)) : option nat :=
  match l with
  | [] => None
  | stick :: l' =>
      if decide (k ≠ excluding ∧ touches touching stick) then Some k
      else first_from (S k) touching excluding l'
  end.

(** [FirstStickOtherThan(touching, excluding)]: scan the sticks in insertion
    order and return the first one, other than [excluding], whose [pointA] or
    [pointB] is [touching]; none if there is no such stick. *)
Definition FirstStickOtherThan (touching excluding : nat) (l : list (Stick.t F)) : option nat :=
  first_from 0 touching excluding l.

(** The end of [next] that is the joint just corrected: it is the anchor end
    of the next propagation. *)
Definition anchorEnd (touching : nat) (next : Stick.t F) : Letter :=
  if decide (Stick.pointA next = touching) then A else B.

Lemma first_from_Some k touching excluding l n :
  first_from k touching excluding l = Some n →
  k ≤ n ∧ n ≠ excluding ∧
  (∃ stick, l !! (n - k) = Some stick ∧ touches touching stick) ∧
  ∀ m stick, k ≤ m < n → m ≠ excluding → l !! (m - k) = Some stick →
    ¬ touches touching stick.
Proof.
  revert k. induction l as [|x l IH]; intros k; simpl; [done|].
  destruct (decide _) as [[Hne Ht]|Hno].
  - intros [= <-]. split; [lia|]. split; [done|]. split.
    + exists x. by rewrite Nat.sub_diag.
    + intros m stick Hm. lia.
  - intros Hn. destruct (IH _ Hn) as (Hle & Hne & (stick & Hl & Ht) & Hmin).
    split; [lia|]. split; [done|]. split.
    + exists stick. split; [|done].
      replace (n - k) with (S (n - S k)) by lia. done.
    + intros m st Hm Hmne Hlm Htm.
      destruct (decide (m = k)) as [->|Hmk].
      * rewrite Nat.sub_diag in Hlm. simpl in Hlm. injection Hlm as ->.
        apply Hno. done.
      * apply (Hmin m st); [lia|done| |done].
        replace (m - k) with (S (m - S k)) in Hlm by lia. done.
Qed.

Lemma first_from_None k touching excluding l :
  first_from k touching excluding l = None →
  ∀ m stick, l !! m = Some stick → k + m ≠ excluding → ¬ touches touching stick.
Proof.
  revert k. induction l as [|x l IH]; intros k; simpl; [done|].
  destruct (decide _) as [?|Hno]; [done|].
  intros Hn [|m] stick Hl Hne Ht; simpl in Hl.
  - injection Hl as ->. apply Hno. split; [|done]. by rewrite Nat.add_0_r in Hne.
  - apply (IH _ Hn m stick Hl); [|done]. lia.
Qed.

(** What [FirstStickOtherThan] returns is the least identity with the
    property. *)
Lemma FirstStickOtherThan_Some touching excluding l n :
  FirstStickOtherThan touching excluding l = Some n →
  n ≠ excluding ∧
  (∃ stick, l !! n = Some stick ∧ touches touching stick) ∧
  ∀ m stick, m < n → m ≠ excluding → l !! m = Some stick → ¬ touches touching stick.
Proof.
  intros Hf. apply first_from_Some in Hf as (_ & Hne & (stick & Hl & Ht) & Hmin).
  rewrite Nat.sub_0_r in Hl. split; [done|]. split; [by exists stick|].
  intros m st Hm Hmne Hlm. apply (Hmin m st); [lia|done|].
  by rewrite Nat.sub_0_r.
Qed.

Lemma FirstStickOtherThan_None touching excluding l :
  FirstStickOtherThan touching excluding l = None →
  ∀ m stick, l !! m = Some stick → m ≠ excluding → ¬ touches touching stick.
Proof.
  intros Hf m stick Hl Hne. by apply (first_from_None 0 _ _ _ Hf m stick).
Qed.

End Adjacency.

(** ** The pointer handlers ([click], [drag], [release]) *)

Section Handlers.
Context {F : Type} `{Scalar F}.

(** [distance(position - point.position) < Config.POINT_SIZE], where
    [position = array([event.x, event.y])]. *)
Definition near (x y : Z) (p : Point.t F) : bool :=
  fltb (distance (asub (of_int x, of_int y) (Point.position p))) (of_int Config.POINT_SIZE).

(** The first point, from the one with identity [i] on, the pointer is on. *)
Fixpoint first_near (x y : Z) (i : nat) (l : list (Point.t F)) : option nat :=
  match l with
  | [] => None
  | p :: l' => if near x y p then Some i else first_near x y (S i) l'
  end.

(** [click]: remember the first point under the pointer. *)
Definition click (x y : Z) (s : Screen.t F) : Outcome F :=
  match first_near x y 0 (Screen.points s) with
  | Some i =>
      (Screen.mk (Screen.points s) (Screen.sticks s) (Some i) (Screen.moving_point s),
       Returned)
  | None => (s, Returned)
  end.

(** The loop of [drag]: every locked point under the pointer is assigned to
    [moving_point] in turn, so the last one stays. *)
Fixpoint drag_loop (x y : Z) (i : nat) (l : list (Point.t F)) (moving : option nat) : option nat :=
  match l with
  | [] => moving
  | p :: l' =>
      drag_loop x y (S i) l' (if near x y p && Point.locked p then Some i else moving)
  end.

(** [drag]: the moving point takes the pointer's position, then the solver
    runs. *)
Definition drag (depth : nat) (x y : Z) (s : Screen.t F) : Outcome F :=
  let s1 :=
    Screen.mk (Screen.points s) (Screen.sticks s) (Screen.tempPoint s)
      (drag_loop x y 0 (Screen.points s) (Screen.moving_point s)) in
  match Screen.moving_point s1 with
  | Some m =>
      match Screen.points s1 !! m with
      | Some _ => simulate_frame depth (set_position m (of_int x, of_int y) s1)
      | None => (s1, Dangling)
      end
  | None => (s1, Returned)
  end.

(** [release]: end a drag; or, on a point, toggle its lock when it is the
    remembered one and else connect the remembered one to it; or, on empty
    ground, make a point. *)
Definition release (x y : Z) (s : Screen.t F) : Outcome F :=
  match Screen.moving_point s with
  | Some _ =>
      (Screen.mk (Screen.points s) (Screen.sticks s) (Screen.tempPoint s) None, Returned)
  | None =>
      match first_near x y 0 (Screen.points s) with
      | Some i =>
          if decide (Screen.tempPoint s = Some i) then (toggle_locked i s, Returned)
          else
            match Screen.tempPoint s with
            | Some t => create_stick t i s
            | None => (s, Returned)
            end
      | None =>
          let s1 := create_point x y s in
          (Screen.mk (Screen.points s1) (Screen.sticks s1) None (Screen.moving_point s1),
           Returned)
      end
  end.

End Handlers.

(** The events Tk delivers to the three handlers. *)
Inductive Event : Type :=
  | ButtonPress (x y : Z)
  | Motion (x y : Z)
  | ButtonRelease (x y : Z).

Section Session.
Context {F : Type} `{Scalar F}.

(** [pantalla = Screen()]. *)
Definition pantalla : Screen.t F := Screen.mk [] [] None None.

(** One callback.  Tk reports an exception raised by a callback and goes on
    with the main loop, so the screen the callback leaves is what the next
    event finds. *)
Definition handle (depth : nat) (e : Event) (s : Screen.t F) : Screen.t F :=
  match e with
  | ButtonPress x y => (click x y s).1
  | Motion x y => (drag depth x y s).1
  | ButtonRelease x y => (release x y s).1
  end.

(** [canvas.mainloop()] over a finite run of events. *)
Definition mainloop (depth : nat) (events : list Event) (s : Screen.t F) : Screen.t F :=
  foldl (λ s e, handle depth e s) s events.

(** Every reference denotes a point of the screen. *)
Definition wf (s : Screen.t F) : Prop :=
  Forall (λ stick,
            Stick.pointA stick < length (Screen.points s) ∧
            Stick.pointB stick < length (Screen.points s)) (Screen.sticks s) ∧
  (∀ i, Screen.tempPoint s = Some i → i < length (Screen.points s)) ∧
  (∀ i, Screen.moving_point s = Some i → i < length (Screen.points s)).

End Session.

(** ** What the solver leaves alone *)

Section Frame.
Context {F : Type} `{Scalar F}.

(** [s'] differs from [s] at most in the positions of unlocked points. *)
Definition frame (s s' : Screen.t F) : Prop :=
  Screen.sticks s' = Screen.sticks s ∧
  Screen.tempPoint s' = Screen.tempPoint s ∧
  Screen.moving_point s' = Screen.moving_point s ∧
  length (Screen.points s') = length (Screen.points s) ∧
  ∀ i p, Screen.points s !! i = Some p →
    ∃ p', Screen.points s' !! i = Some p' ∧
      Point.locked p' = Point.locked p ∧
      Point.prevPosition p' = Point.prevPosition p ∧
      (Point.locked p = true → Point.position p' = Point.position p).

Lemma frame_refl s : frame s s.
Proof. repeat split; eauto 10. Qed.

Lemma frame_trans s1 s2 s3 : frame s1 s2 → frame s2 s3 → frame s1 s3.
Proof.
  intros (Hs & Ht & Hm & Hl & Hp) (Hs' & Ht' & Hm' & Hl' & Hp').
  repeat split; try congruence.
  intros i p Hi. destruct (Hp i p Hi) as (p2 & Hi2 & Hk & Hv & Hpos).
  destruct (Hp' i p2 Hi2) as (p3 & Hi3 & Hk' & Hv' & Hpos').
  exists p3. repeat split; try congruence.
  intros Hlk. rewrite Hpos', Hpos; [done|done|congruence].
Qed.

Lemma frame_set_position s i v p :
  Screen.points s !! i = Some p → Point.locked p = false →
  frame s (set_position i v s).
Proof.
  intros Hi Hfree. unfold set_position. repeat split; simpl.
  - apply length_alter.
  - intros k q Hk. destruct (decide (i = k)) as [->|Hne].
    + rewrite list_lookup_alter_eq, Hk. simpl. eexists. split; [done|].
      simpl. assert (q = p) as -> by congruence.
      repeat split. congruence.
    + rewrite list_lookup_alter_ne by done. eauto 10.
Qed.

Lemma next_loop_frame call joint l s :
  (∀ k letter s', frame s' (call k letter s').1) →
  frame s (next_loop call joint l s).1.
Proof.
  intros Hcall. induction l as [|[k next] l IH]; simpl; [apply frame_refl|].
  repeat case_decide; auto.
Qed.

Lemma calculate_joint_frame depth si letter s :
  frame s (calculate_joint depth si letter s).1.
Proof.
  revert si letter s. induction depth as [|depth IH]; intros si letter s; simpl;
    [apply frame_refl|].
  destruct (Screen.sticks s !! si) as [stick|]; [|apply frame_refl].
  destruct (Screen.points s !! endpoint letter stick) as [joint|] eqn:Hj;
    [|apply frame_refl].
  destruct (Point.locked joint) eqn:Hlk; [apply frame_refl|].
  destruct (Screen.points s !! endpoint (other letter) stick) as [prevJoint|];
    [|apply frame_refl].
  eapply frame_trans; [by eapply frame_set_position|].
  by apply next_loop_frame.
Qed.

Lemma and_then_frame s (o : Outcome F) k :
  frame s o.1 → (∀ s', frame s' (k s').1) → frame s (o >>> k).1.
Proof.
  intros Ho Hk. unfold and_then. destruct o as [s1 []]; simpl in *; try done.
  eapply frame_trans; [done|apply Hk].
Qed.

Lemma sweep_step_frame depth e s : frame s (sweep_step depth e s).1.
Proof.
  unfold sweep_step. repeat case_match; try apply frame_refl;
    apply calculate_joint_frame.
Qed.

Lemma sweep_frame depth l s : frame s (sweep depth l s).1.
Proof.
  revert s. induction l as [|e l IH]; intros s; simpl; [apply frame_refl|].
  apply and_then_frame; [apply sweep_step_frame|done].
Qed.

Lemma sweeps_frame n depth s : frame s (sweeps n depth s).1.
Proof.
  revert s. induction n as [|n IH]; intros s; simpl; [apply frame_refl|].
  apply and_then_frame; [apply sweep_frame|done].
Qed.

End Frame.

(** ** The loop at the end of [calculate_joint] is the adjacency step *)

Section Walk.
Context {F : Type} `{Scalar F}.

(** Where the walk goes from [joint], reached along the stick [si]. *)
Definition follow (call : nat → Letter → Screen.t F → Outcome F)
    (joint si : nat) (s : Screen.t F) : Outcome F :=
  match FirstStickOtherThan joint si (Screen.sticks s) with
  | None => (s, Returned)
  | Some k =>
      match Screen.sticks s !! k with
      | Some next => call k (other (anchorEnd joint next)) s
      | None => (s, Returned)
      end
  end.

Lemma next_loop_from call joint si (l : list (Stick.t F)) s n :
  next_loop call joint (filter (λ e, e.1 ≠ si) (imap (λ i, pair (n + i)) l)) s =
  match first_from n joint si l with
  | None => (s, Returned)
  | Some k =>
      match l !! (k - n) with
      | Some next => call k (other (anchorEnd joint next)) s
      | None => (s, Returned)
      end
  end.
Proof.
  revert n. induction l as [|x l IH]; intros n; [done|].
  rewrite imap_cons, filter_cons. simpl.
  assert (imap ((λ i, pair (n + i)) ∘ S) l = imap (λ i, pair (S n + i)) l) as ->.
  { apply imap_ext. intros i y _. simpl. f_equal. lia. }
  rewrite Nat.add_0_r. specialize (IH (S n)).
  assert (match first_from (S n) joint si l with
          | None => (s, Returned)
          | Some k =>
              match l !! (k - S n) with
              | Some next => call k (other (anchorEnd joint next)) s
              | None => (s, Returned)
              end
          end =
          match first_from (S n) joint si l with
          | None => (s, Returned)
          | Some k =>
              match (x :: l) !! (k - n) with
              | Some next => call k (other (anchorEnd joint next)) s
              | None => (s, Returned)
              end
          end) as Hshift.
  { destruct (first_from (S n) joint si l) as [k|] eqn:Hk; [|done].
    apply first_from_Some in Hk as (Hle & _).
    replace (k - n) with (S (k - S n)) by lia. done. }
  rewrite Hshift in IH. clear Hshift. unfold touches.
  destruct (decide (n ≠ si)) as [Hn|Hn]; simpl.
  - destruct (decide (Stick.pointA x = joint)) as [Ha|Ha].
    + rewrite decide_True by auto. rewrite Nat.sub_diag. simpl.
      unfold anchorEnd. by rewrite decide_True.
    + destruct (decide (Stick.pointB x = joint)) as [Hb|Hb].
      * rewrite decide_True by auto. rewrite Nat.sub_diag. simpl.
        unfold anchorEnd. by rewrite decide_False.
      * rewrite decide_False by tauto. exact IH.
  - rewrite decide_False by tauto. exact IH.
Qed.

Lemma next_loop_follow call joint si l s :
  l = Screen.sticks s →
  next_loop call joint (others si l) s = follow call joint si s.
Proof.
  intros ->. unfold others, enumerate, follow, FirstStickOtherThan.
  pose proof (next_loop_from call joint si (Screen.sticks s) s 0) as Hl.
  simpl in Hl. etrans; [exact Hl|].
  destruct (first_from 0 joint si (Screen.sticks s)); [|done].
  by rewrite Nat.sub_0_r.
Qed.

(** [calculate_joint] with the loop read as the adjacency step. *)
Lemma calculate_joint_S depth si letter s :
  calculate_joint (S depth) si letter s =
  match Screen.sticks s !! si with
  | None => (s, Dangling)
  | Some stick =>
      match Screen.points s !! endpoint letter stick with
      | None => (s, Dangling)
      | Some joint =>
          if Point.locked joint then (s, Returned)
          else
            match Screen.points s !! endpoint (other letter) stick with
            | None => (s, Dangling)
            | Some prevJoint =>
                follow (calculate_joint depth) (endpoint letter stick) si
                  (set_position (endpoint letter stick)
                     (snapped joint prevJoint (Stick.length stick)) s)
            end
      end
  end.
Proof.
  change (calculate_joint (S depth) si letter s) with
    (match Screen.sticks s !! si with
     | None => (s, Dangling)
     | Some stick =>
         match Screen.points s !! endpoint letter stick with
         | None => (s, Dangling)
         | Some joint =>
             if Point.locked joint then (s, Returned)
             else
               match Screen.points s !! endpoint (other letter) stick with
               | None => (s, Dangling)
               | Some prevJoint =>
                   let s' :=
                     set_position (endpoint letter stick)
                       (snapped joint prevJoint (Stick.length stick)) s in
                   next_loop (calculate_joint depth) (endpoint letter stick)
                     (others si (Screen.sticks s')) s'
               end
         end
     end).
  repeat case_match; try done. by apply next_loop_follow.
Qed.

(** One call of [calculate_joint] that moves its joint. *)
Lemma calculate_joint_moves depth si letter s stick joint prevJoint :
  Screen.sticks s !! si = Some stick →
  Screen.points s !! endpoint letter stick = Some joint →
  Point.locked joint = false →
  Screen.points s !! endpoint (other letter) stick = Some prevJoint →
  calculate_joint (S depth) si letter s =
  follow (calculate_joint depth) (endpoint letter stick) si
    (set_position (endpoint letter stick)
       (snapped joint prevJoint (Stick.length stick)) s).
Proof.
  intros Hs Hj Hlk Hp. by rewrite calculate_joint_S, Hs, Hj, Hlk, Hp.
Qed.

Lemma calculate_joint_locked depth si letter s stick joint :
  Screen.sticks s !! si = Some stick →
  Screen.points s !! endpoint letter stick = Some joint →
  Point.locked joint = true →
  calculate_joint (S depth) si letter s = (s, Returned).
Proof. intros Hs Hj Hlk. simpl. by rewrite Hs, Hj, Hlk. Qed.

Lemma follow_Some call joint si (s : Screen.t F) k next :
  FirstStickOtherThan joint si (Screen.sticks s) = Some k →
  Screen.sticks s !! k = Some next →
  follow call joint si s = call k (other (anchorEnd joint next)) s.
Proof. intros Hk Hn. unfold follow. by rewrite Hk, Hn. Qed.

Lemma follow_None call joint si (s : Screen.t F) :
  FirstStickOtherThan joint si (Screen.sticks s) = None →
  follow call joint si s = (s, Returned).
Proof. intros Hk. unfold follow. by rewrite Hk. Qed.

(** The three ways through the body of the sweep. *)
Lemma sweep_step_from_A depth e (s : Screen.t F) pa pb :
  Screen.points s !! Stick.pointA e.2 = Some pa →
  Screen.points s !! Stick.pointB e.2 = Some pb →
  Point.locked pa = true →
  sweep_step depth e s = calculate_joint depth e.1 B s.
Proof. intros Ha Hb Hl. unfold sweep_step. by rewrite Ha, Hb, Hl. Qed.

Lemma sweep_step_from_B depth e (s : Screen.t F) pa pb :
  Screen.points s !! Stick.pointA e.2 = Some pa →
  Screen.points s !! Stick.pointB e.2 = Some pb →
  Point.locked pa = false → Point.locked pb = true →
  sweep_step depth e s = calculate_joint depth e.1 A s.
Proof. intros Ha Hb Hl Hl'. unfold sweep_step. by rewrite Ha, Hb, Hl, Hl'. Qed.

Lemma sweep_step_skip depth e (s : Screen.t F) pa pb :
  Screen.points s !! Stick.pointA e.2 = Some pa →
  Screen.points s !! Stick.pointB e.2 = Some pb →
  Point.locked pa = false → Point.locked pb = false →
  sweep_step depth e s = (s, Returned).
Proof. intros Ha Hb Hl Hl'. unfold sweep_step. by rewrite Ha, Hb, Hl, Hl'. Qed.

Lemma sweep_cons depth e l (s : Screen.t F) :
  sweep depth (e :: l) s = sweep_step depth e s >>> sweep depth l.
Proof. done. Qed.

Lemma sweeps_S n depth (s : Screen.t F) :
  sweeps (S n) depth s = sweep depth (enumerate (Screen.sticks s)) s >>> sweeps n depth.
Proof. done. Qed.

Lemma and_then_returned (s : Screen.t F) k : (s, Returned) >>> k = k s.
Proof. done. Qed.

Lemma and_then_error (o : Outcome F) k :
  o.2 = RecursionError → (o >>> k).2 = RecursionError.
Proof. unfold and_then. intros Ho. by rewrite Ho. Qed.

End Walk.

(** ** Every reference denotes an object *)

Section WellFormed.
Context {F : Type} `{Scalar F}.

Lemma wf_frame (s s' : Screen.t F) : frame s s' → wf s → wf s'.
Proof.
  intros (Hs & Ht & Hm & Hl & _) (Hst & Htp & Hmp).
  unfold wf. rewrite Hs, Ht, Hm, Hl. done.
Qed.

Lemma wf_lookup (s : Screen.t F) k stick letter :
  wf s → Screen.sticks s !! k = Some stick →
  is_Some (Screen.points s !! endpoint letter stick).
Proof.
  intros (Hst & _) Hk. rewrite Forall_lookup in Hst.
  destruct (Hst k stick Hk). apply lookup_lt_is_Some_2. by destruct letter.
Qed.

Lemma wf_pantalla : wf (pantalla : Screen.t F).
Proof. split; [constructor|done]. Qed.

Lemma wf_set_position i v (s : Screen.t F) : wf s → wf (set_position i v s).
Proof. unfold wf, set_position. simpl. by rewrite length_alter. Qed.

Lemma wf_toggle_locked i (s : Screen.t F) : wf s → wf (toggle_locked i s).
Proof. unfold wf, toggle_locked. simpl. by rewrite length_alter. Qed.

Lemma first_near_lt x y i (l : list (Point.t F)) n :
  first_near x y i l = Some n → i ≤ n < i + length l.
Proof.
  revert i. induction l as [|p l IH]; intros i; simpl; [done|].
  destruct (near x y p).
  - intros [= <-]. lia.
  - intros Hn. specialize (IH _ Hn). lia.
Qed.

Lemma drag_loop_lt x y i (l : list (Point.t F)) moving n :
  drag_loop x y i l moving = Some n → moving = Some n ∨ i ≤ n < i + length l.
Proof.
  revert i moving. induction l as [|p l IH]; intros i moving; simpl; [by left|].
  intros Hn. destruct (IH _ _ Hn) as [Hm|Hm]; [|right; lia].
  destruct (near x y p && Point.locked p); [|by left].
  injection Hm as <-. right. lia.
Qed.

Lemma calculate_joint_refers depth si letter (s : Screen.t F) :
  wf s → si < length (Screen.sticks s) →
  (calculate_joint depth si letter s).2 ≠ Dangling.
Proof.
  revert si letter s. induction depth as [|depth IH]; intros si letter s Hwf Hsi; [done|].
  rewrite calculate_joint_S.
  destruct (lookup_lt_is_Some_2 _ _ Hsi) as [stick Hk]. rewrite Hk.
  destruct (wf_lookup s si stick letter Hwf Hk) as [joint Hj]. rewrite Hj.
  destruct (Point.locked joint) eqn:Hlk; [done|].
  destruct (wf_lookup s si stick (other letter) Hwf Hk) as [prevJoint Hp]. rewrite Hp.
  unfold follow. set (s' := set_position _ _ s).
  destruct (FirstStickOtherThan _ si (Screen.sticks s')) as [k|] eqn:Hk'; [|done].
  apply FirstStickOtherThan_Some in Hk' as (_ & (next & Hn & _) & _).
  rewrite Hn. apply IH; [by apply wf_set_position|by eapply lookup_lt_Some].
Qed.

Lemma sweep_refers depth l (s : Screen.t F) :
  wf s → (∀ e, e ∈ l → Screen.sticks s !! e.1 = Some e.2) →
  (sweep depth l s).2 ≠ Dangling.
Proof.
  revert s. induction l as [|e l IH]; intros s Hwf Hl; [done|].
  simpl. unfold and_then.
  pose proof (sweep_step_frame depth e s) as Hfr.
  assert ((sweep_step depth e s).2 ≠ Dangling) as Hstep.
  { pose proof (Hl e (list_elem_of_here _ _)) as He. unfold sweep_step.
    destruct (wf_lookup s e.1 e.2 A Hwf He) as [pa Ha].
    destruct (wf_lookup s e.1 e.2 B Hwf He) as [pb Hb].
    simpl in Ha, Hb. rewrite Ha, Hb.
    repeat case_match; try done;
      (apply calculate_joint_refers; [done|by eapply lookup_lt_Some]). }
  destruct (sweep_step depth e s) as [s1 []] eqn:Heq; simpl in *; try done.
  apply IH; [by eapply wf_frame|].
  intros e' He'. destruct Hfr as (-> & _). apply Hl. by apply list_elem_of_further.
Qed.

Lemma enumerate_lookup (l : list (Stick.t F)) e :
  e ∈ enumerate l → l !! e.1 = Some e.2.
Proof.
  unfold enumerate. intros (k & x & -> & Hk)%elem_of_lookup_imap. done.
Qed.

(** On a well-formed screen the solver returns or runs out of stack; it
    never meets a reference to nothing. *)
Lemma sweeps_refer n depth (s : Screen.t F) :
  wf s → (sweeps n depth s).2 ≠ Dangling.
Proof.
  revert s. induction n as [|n IH]; intros s Hwf; [done|].
  simpl. unfold and_then.
  pose proof (sweep_frame depth (enumerate (Screen.sticks s)) s) as Hfr.
  pose proof (sweep_refers depth _ s Hwf (enumerate_lookup _)) as Hsw.
  destruct (sweep depth _ s) as [s1 []] eqn:Heq; simpl in *; try done.
  apply IH. by eapply wf_frame.
Qed.

(** The handlers keep the screen well formed, so every screen the program
    comes to is. *)
Lemma handle_wf depth e (s : Screen.t F) : wf s → wf (handle depth e s).
Proof.
  intros Hwf. pose proof Hwf as (Hst & Htp & Hmp). destruct e as [x y|x y|x y]; simpl.
  - unfold click. destruct (first_near x y 0 (Screen.points s)) as [i|] eqn:Hi; [|done].
    simpl. split; [done|]. split; [|done].
    intros ? [= <-]. apply first_near_lt in Hi. simpl in *. lia.
  - unfold drag. simpl.
    set (moving := drag_loop x y 0 (Screen.points s) (Screen.moving_point s)).
    assert (wf (Screen.mk (Screen.points s) (Screen.sticks s) (Screen.tempPoint s) moving))
      as Hwf1.
    { split; [done|]. split; [done|]. simpl. intros i Hi.
      apply drag_loop_lt in Hi as [Hi|Hi]; [by apply Hmp|lia]. }
    destruct moving as [m|]; [|done].
    destruct (Screen.points s !! m); [|done].
    eapply wf_frame; [apply sweeps_frame|]. by apply wf_set_position.
  - unfold release. destruct (Screen.moving_point s) eqn:Hm.
    { simpl. split; [done|]. split; [done|]. done. }
    destruct (first_near x y 0 (Screen.points s)) as [i|] eqn:Hi.
    + apply first_near_lt in Hi. case_decide; [by apply wf_toggle_locked|].
      destruct (Screen.tempPoint s) as [t|] eqn:Ht; [|done].
      unfold create_stick. destruct (Screen.points s !! t) eqn:Hlt; [|done].
      destruct (Screen.points s !! i); [|done].
      simpl. split; [|split; simpl; [rewrite Ht; apply Htp|rewrite Hm; apply Hmp]].
      simpl. apply Forall_app. split; [done|].
      apply Forall_singleton. simpl. split; [by apply Htp|lia].
    + simpl. split; [|split; [done|by rewrite Hm]]. simpl.
      eapply Forall_impl; [done|]. intros stick [? ?]. rewrite length_app. simpl. lia.
Qed.

Lemma mainloop_wf depth events (s : Screen.t F) : wf s → wf (mainloop depth events s).
Proof.
  revert s. induction events as [|e events IH]; intros s Hwf; [done|].
  simpl. apply IH. by apply handle_wf.
Qed.

End WellFormed.

(** ** Concrete screens, in float64 *)

(** Python's default limit on the depth of the call stack; what
    [calculate_joint] has left of it is less by the frames in use. *)
Definition recursionlimit : nat := 1000.

Module Examples.
Import PrimFloat.
#[local] Open Scope float_scope.

(** A point where [create_point] put it. *)
Definition point (x y : float) (locked : bool) : Point.t float :=
  Point.mk (x, y) locked (x, y).

(** A locked point made at [(x0, y0)] and dragged to [(x, y)]. *)
Definition dragged (x y x0 y0 : float) : Point.t float :=
  Point.mk (x, y) true (x0, y0).

(** A screen in the middle of a drag of its first point, as [drag] hands it
    to [simulate_frame]. *)
Definition screen (points : list (Point.t float)) (sticks : list (Stick.t float)) :
    Screen.t float :=
  Screen.mk points sticks (Some 0%nat) (Some 0%nat).

(** Pointer gestures: press and release on empty ground makes a point, on a
    point it toggles the lock; press on one point and release on another
    connects them; press on a locked point and a first motion on the spot
    picks it up. *)
Definition make_point (x y : Z) : list Event := [ButtonPress x y; ButtonRelease x y].
Definition toggle (x y : Z) : list Event := [ButtonPress x y; ButtonRelease x y].
Definition connect (x y x' y' : Z) : list Event := [ButtonPress x y; ButtonRelease x' y'].
Definition pick_up (x y : Z) : list Event := [ButtonPress x y; Motion x y].

(** One free point held by two anchors; the left anchor is dragged 50 to the
    left. *)
Definition two_anchors : Screen.t float :=
  screen [dragged 50 100 100 100; point 200 100 false; point 400 100 true]
    [Stick.mk 0 1 100; Stick.mk 2 1 200].

Definition two_anchors_events : list Event :=
  make_point 100 100 ++ make_point 200 100 ++ make_point 400 100 ++
  connect 100 100 200 100 ++ connect 400 100 200 100 ++
  toggle 100 100 ++ toggle 400 100 ++ pick_up 100 100.

(** An anchor, and a joint shared by three sticks. *)
Definition branching : Screen.t float :=
  screen [point 100 100 true; point 200 100 false; point 300 100 false; point 200 200 false]
    [Stick.mk 0 1 100; Stick.mk 1 2 100; Stick.mk 1 3 100].

(** A chain of two sticks that hangs from an anchor; the anchor is dragged
    50 to the left. *)
Definition chain : Screen.t float :=
  screen [dragged 50 100 100 100; point 200 100 false; point 300 100 false]
    [Stick.mk 0 1 100; Stick.mk 1 2 100].

Definition chain_events : list Event :=
  make_point 100 100 ++ make_point 200 100 ++ make_point 300 100 ++
  connect 100 100 200 100 ++ connect 200 100 300 100 ++
  toggle 100 100 ++ pick_up 100 100.

(** The chain, and beside it a stick of stored length 150 between two free
    points that are 200 apart (its second end was dragged while both ends
    were locked). *)
Definition chain_and_free : Screen.t float :=
  screen
    [dragged 50 100 100 100; point 200 100 false; point 300 100 false;
     point 100 300 false; Point.mk (300, 300) false (250, 300)]
    [Stick.mk 0 1 100; Stick.mk 1 2 100; Stick.mk 3 4 150].

Definition chain_and_free_events : list Event :=
  make_point 100 100 ++ make_point 200 100 ++ make_point 300 100 ++
  make_point 100 300 ++ make_point 250 300 ++
  connect 100 100 200 100 ++ connect 200 100 300 100 ++ connect 100 300 250 300 ++
  toggle 100 300 ++ toggle 250 300 ++
  pick_up 250 300 ++ [Motion 300 300; ButtonRelease 300 300] ++
  toggle 100 300 ++ toggle 300 300 ++
  toggle 100 100 ++ pick_up 100 100.

(** A triangle of free points with sides 300, 400 and 500, made first, then
    tied to an anchor; nothing has been dragged. *)
Definition triangle : Screen.t float :=
  screen [point 100 300 true; point 100 100 false; point 400 100 false; point 400 500 false]
    [Stick.mk 1 2 300; Stick.mk 2 3 400; Stick.mk 3 1 500; Stick.mk 0 1 200].

Definition triangle_events : list Event :=
  make_point 100 300 ++ make_point 100 100 ++ make_point 400 100 ++ make_point 400 500 ++
  connect 100 100 400 100 ++ connect 400 100 400 500 ++ connect 400 500 100 100 ++
  connect 100 300 100 100 ++
  toggle 100 300 ++ [ButtonPress 100 300].

(** An anchor dragged onto the free end of its stick. *)
Definition coincident : Screen.t float :=
  screen [dragged 200 100 100 100; point 200 100 false] [Stick.mk 0 1 100].

Definition coincident_events : list Event :=
  make_point 100 100 ++ make_point 200 100 ++ connect 100 100 200 100 ++
  toggle 100 100 ++ pick_up 100 100.

(** Four points on a line, two of them anchors, and five sticks; the first
    anchor is dragged 180 to the right. *)
Definition braced : Screen.t float :=
  screen
    [dragged 460 300 280 300; point 180 300 false; point 260 300 true; point 420 300 false]
    [Stick.mk 1 3 240; Stick.mk 1 2 80; Stick.mk 0 3 140; Stick.mk 0 1 100;
     Stick.mk 3 2 160].

Definition braced_events : list Event :=
  make_point 280 300 ++ make_point 180 300 ++ make_point 260 300 ++ make_point 420 300 ++
  connect 180 300 420 300 ++ connect 180 300 260 300 ++ connect 280 300 420 300 ++
  connect 280 300 180 300 ++ connect 420 300 260 300 ++
  toggle 280 300 ++ toggle 260 300 ++ pick_up 280 300.

(** A free end that the solver has put on another free point: the anchor of
    a stick of length 100 is dragged 100 to the right, on the line of a free
    point 200 to its right; then the button is pressed on empty ground and
    the pointer is moved to where the two free points are. *)
Definition meeting : Screen.t float :=
  Screen.mk
    [point 300 100 false; dragged 200 100 100 100; Point.mk (300, 100) false (200, 100)]
    [Stick.mk 2 1 100] (Some 2%nat) None.

Definition meeting_events : list Event :=
  make_point 300 100 ++ make_point 100 100 ++ make_point 200 100 ++
  connect 200 100 100 100 ++ toggle 100 100 ++ toggle 200 100 ++ toggle 200 100 ++
  [ButtonPress 80 100; Motion 90 100; Motion 150 100; Motion 200 100; ButtonRelease 200 100] ++
  [ButtonPress 300 300; Motion 300 200; Motion 300 100].

End Examples.

(** ** These screens come up in the program *)

(** Each screen of [Examples] is what [drag] hands to [simulate_frame] at the
    last motion of a run of pointer events that starts from the empty
    screen. *)
Section Reached.
#[local] Open Scope Z_scope.

Lemma two_anchors_reached :
  drag recursionlimit 50 100 (mainloop recursionlimit Examples.two_anchors_events pantalla) =
  simulate_frame recursionlimit Examples.two_anchors.
Proof. vm_compute. reflexivity. Qed.

Lemma chain_reached :
  drag recursionlimit 50 100 (mainloop recursionlimit Examples.chain_events pantalla) =
  simulate_frame recursionlimit Examples.chain.
Proof. vm_compute. reflexivity. Qed.

Lemma chain_and_free_reached :
  drag recursionlimit 50 100
    (mainloop recursionlimit Examples.chain_and_free_events pantalla) =
  simulate_frame recursionlimit Examples.chain_and_free.
Proof. vm_compute. reflexivity. Qed.

Lemma triangle_reached :
  drag recursionlimit 100 300 (mainloop recursionlimit Examples.triangle_events pantalla) =
  simulate_frame recursionlimit Examples.triangle.
Proof. vm_compute. reflexivity. Qed.

Lemma coincident_reached :
  drag recursionlimit 200 100 (mainloop recursionlimit Examples.coincident_events pantalla) =
  simulate_frame recursionlimit Examples.coincident.
Proof. vm_compute. reflexivity. Qed.

Lemma braced_reached :
  drag recursionlimit 460 300 (mainloop recursionlimit Examples.braced_events pantalla) =
  simulate_frame recursionlimit Examples.braced.
Proof. vm_compute. reflexivity. Qed.

(** [Examples.meeting] is the screen a last release of the button finds. *)
Lemma meeting_reached :
  mainloop recursionlimit Examples.meeting_events pantalla = Examples.meeting.
Proof. vm_compute. reflexivity. Qed.

End Reached.

(** ** The scenarios of the specification *)

Section Scenarios.
Import PrimFloat.
#[local] Open Scope float_scope.

(** Scenario A: an anchor at [(0, 0)], a free point at [(100, 0)], a stick
    of length 100 between them; the solver leaves the free point where it
    is. *)
Lemma scenario_A :
  simulate_frame recursionlimit
    (Examples.screen [Examples.point 0 0 true; Examples.point 100 0 false]
       [Stick.mk 0 1 100]) =
  (Examples.screen [Examples.point 0 0 true; Examples.point 100 0 false]
     [Stick.mk 0 1 100], Returned).
Proof. vm_compute. reflexivity. Qed.

(** Scenario B: a chain of two sticks of length 50 along the x axis, the
    anchor moved from [(0, 0)] to [(0, 100)]; after the solver both sticks
    have length 50 within [2^-20], and both free points have gone up. *)
Lemma scenario_B :
  ∃ p0 p1 p2 sticks,
    simulate_frame recursionlimit
      (Examples.screen
         [Examples.dragged 0 100 0 0; Examples.point 50 0 false; Examples.point 100 0 false]
         [Stick.mk 0 1 50; Stick.mk 1 2 50]) =
      (Examples.screen [p0; p1; p2] sticks, Returned) ∧
    ltb (abs (distance (asub (Point.position p0) (Point.position p1)) - 50)) 0x1p-20 = true ∧
    ltb (abs (distance (asub (Point.position p1) (Point.position p2)) - 50)) 0x1p-20 = true ∧
    ltb 0 (Point.position p1).2 = true ∧
    ltb 0 (Point.position p2).2 = true.
Proof.
  eexists _, _, _, _. split; [vm_compute; reflexivity|].
  repeat split; vm_compute; reflexivity.
Qed.

End Scenarios.

(** ** Claims about what the solver never touches *)

Section FrameClaims.
Context {F : Type} `{Scalar F}.

Lemma frame_locked_point (s s' : Screen.t F) (i : nat) (p : Point.t F) :
  frame s s' → Screen.points s !! i = Some p → Point.locked p = true →
  Screen.points s' !! i = Some p.
Proof.
  intros (_ & _ & _ & _ & Hp) Hi Hlk.
  destruct (Hp i p Hi) as (p' & Hi' & Hk & Hv & Hpos).
  rewrite Hi'. f_equal. specialize (Hpos Hlk).
  destruct p, p'; simpl in *; congruence.
Qed.

(** C2.  A locked point is the same object after the solver ran as before:
    same position (and same flag and previous position), for
    [simulate_frame] and for any number [n] of sweeps, whatever the sticks
    are and however the call ends. *)
Theorem locked_point_unchanged (n depth : nat) (s : Screen.t F) (i : nat) (p : Point.t F) :
  Screen.points s !! i = Some p →
  Point.locked p = true →
  Screen.points (simulate_frame depth s).1 !! i = Some p ∧
  Screen.points (sweeps n depth s).1 !! i = Some p.
Proof.
  intros Hi Hlk. split.
  - eapply frame_locked_point; [apply sweeps_frame|done|done].
  - eapply frame_locked_point; [apply sweeps_frame|done|done].
Qed.

(** C10.  [simulate_frame] writes nothing but positions of unlocked points:
    the sticks (their number, order, ends and lengths) are the same
    afterwards, so are the number of points and the two point references of
    the screen, and every point keeps its [locked] flag and its
    [prevPosition], and its position too when it is locked. *)
Theorem simulate_frame_writes_only_free_positions :
  ∀ (depth : nat) (s : Screen.t F),
    Screen.sticks (simulate_frame depth s).1 = Screen.sticks s ∧
    Screen.tempPoint (simulate_frame depth s).1 = Screen.tempPoint s ∧
    Screen.moving_point (simulate_frame depth s).1 = Screen.moving_point s ∧
    length (Screen.points (simulate_frame depth s).1) = length (Screen.points s) ∧
    ∀ i p, Screen.points s !! i = Some p →
      ∃ p', Screen.points (simulate_frame depth s).1 !! i = Some p' ∧
        Point.locked p' = Point.locked p ∧
        Point.prevPosition p' = Point.prevPosition p ∧
        (Point.locked p = true → Point.position p' = Point.position p).
Proof. intros depth s. apply (sweeps_frame Config.STICK_ITERATIONS depth s). Qed.

(** C9.  A call of [calculate_joint] that moves its joint goes on along
    exactly one stick and does nothing else: the stick [FirstStickOtherThan]
    names, which is the first in insertion order, other than the current
    one, that has the joint as an end; it is entered from the joint.  When
    no other stick has the joint as an end the call returns. *)
Theorem calculate_joint_follows_first_stick (depth si : nat) (letter : Letter)
    (s : Screen.t F) (stick : Stick.t F) (joint prevJoint : Point.t F) :
  Screen.sticks s !! si = Some stick →
  Screen.points s !! endpoint letter stick = Some joint →
  Point.locked joint = false →
  Screen.points s !! endpoint (other letter) stick = Some prevJoint →
  let touching := endpoint letter stick in
  let s' := set_position touching (snapped joint prevJoint (Stick.length stick)) s in
  match FirstStickOtherThan touching si (Screen.sticks s) with
  | None =>
      (∀ m other_stick, Screen.sticks s !! m = Some other_stick → m ≠ si →
         ¬ touches touching other_stick) ∧
      calculate_joint (S depth) si letter s = (s', Returned)
  | Some k =>
      ∃ next, Screen.sticks s !! k = Some next ∧
        k ≠ si ∧ touches touching next ∧
        (∀ m earlier, m < k → m ≠ si → Screen.sticks s !! m = Some earlier →
           ¬ touches touching earlier) ∧
        calculate_joint (S depth) si letter s =
        calculate_joint depth k (other (anchorEnd touching next)) s'
  end.
Proof.
  intros Hs Hj Hlk Hp touching s'.
  rewrite (calculate_joint_moves depth si letter s stick joint prevJoint) by done.
  unfold follow. fold touching. fold s'. change (Screen.sticks s') with (Screen.sticks s).
  destruct (FirstStickOtherThan touching si (Screen.sticks s)) as [k|] eqn:Hk.
  - apply FirstStickOtherThan_Some in Hk as (Hne & (next & Hn & Ht) & Hmin).
    exists next. rewrite Hn. done.
  - split; [|done]. by apply FirstStickOtherThan_None.
Qed.

End FrameClaims.

Section FrameChecks.
Import PrimFloat.

Lemma locked_point_unchanged_witness :
  Screen.points (simulate_frame recursionlimit Examples.two_anchors).1 !! 2 =
    Some (Examples.point 400 100 true) ∧
  Screen.points (sweeps 3 recursionlimit Examples.two_anchors).1 !! 2 =
    Some (Examples.point 400 100 true).
Proof.
  apply (locked_point_unchanged 3 recursionlimit Examples.two_anchors 2); reflexivity.
Defined.

Lemma calculate_joint_follows_first_stick_witness :
  ∃ next, Screen.sticks Examples.branching !! 1 = Some next ∧
    1 ≠ 0 ∧ touches 1 next ∧
    (∀ m earlier, m < 1 → m ≠ 0 → Screen.sticks Examples.branching !! m = Some earlier →
       ¬ touches 1 earlier) ∧
    calculate_joint 3 0 B Examples.branching =
    calculate_joint 2 1 (other (anchorEnd 1 next))
      (set_position 1 (200, 100)%float Examples.branching).
Proof.
  exact (calculate_joint_follows_first_stick 2 0 B Examples.branching
           (Stick.mk 0 1 100%float) (Examples.point 200 100 false)
           (Examples.point 100 100 true) eq_refl eq_refl eq_refl eq_refl).
Defined.

End FrameChecks.

(** ** Parts of the skeleton without an anchor *)

Section Inert.
Context {F : Type} `{Scalar F}.

(** [C] is a set of unlocked points that no stick leaves: a stick with one
    end in [C] has both ends in [C].  (A union of connected components none
    of which holds a locked point.) *)
Definition anchor_free (C : nat → Prop) (s : Screen.t F) : Prop :=
  Forall (λ stick, C (Stick.pointA stick) ↔ C (Stick.pointB stick)) (Screen.sticks s) ∧
  ∀ i p, C i → Screen.points s !! i = Some p → Point.locked p = false.

Lemma frame_lookup_inv (s s' : Screen.t F) (i : nat) (p' : Point.t F) :
  frame s s' → Screen.points s' !! i = Some p' →
  ∃ p, Screen.points s !! i = Some p ∧ Point.locked p' = Point.locked p.
Proof.
  intros (_ & _ & _ & Hlen & Hp) Hi'.
  destruct (lookup_lt_is_Some_2 (Screen.points s) i) as [p Hi].
  { rewrite <- Hlen. by eapply lookup_lt_Some. }
  destruct (Hp i p Hi) as (q & Hq & Hlk & _).
  exists p. split; [done|]. congruence.
Qed.

Lemma anchor_free_frame C (s s' : Screen.t F) :
  frame s s' → anchor_free C s → anchor_free C s'.
Proof.
  intros Hfr [Hst Hlk]. split.
  - destruct Hfr as (-> & _). done.
  - intros i p' HC Hi'.
    destruct (frame_lookup_inv s s' i p' Hfr Hi') as (p & Hi & ->). eauto.
Qed.

Lemma closed_stick_outside C (l : list (Stick.t F)) k next joint letter :
  Forall (λ stick, C (Stick.pointA stick) ↔ C (Stick.pointB stick)) l →
  l !! k = Some next → touches joint next → ¬ C joint →
  ¬ C (endpoint letter next).
Proof.
  intros Hcl Hk Ht Hj. rewrite Forall_lookup in Hcl. specialize (Hcl k next Hk).
  destruct Ht as [<-|<-], letter; simpl; tauto.
Qed.

Lemma calculate_joint_outside C depth si letter (s : Screen.t F) stick :
  Forall (λ stick, C (Stick.pointA stick) ↔ C (Stick.pointB stick)) (Screen.sticks s) →
  Screen.sticks s !! si = Some stick →
  ¬ C (endpoint letter stick) →
  ∀ i, C i → Screen.points (calculate_joint depth si letter s).1 !! i = Screen.points s !! i.
Proof.
  revert si letter s stick.
  induction depth as [|depth IH]; intros si letter s stick Hcl Hs Hout i Hi; [done|].
  rewrite calculate_joint_S, Hs.
  destruct (Screen.points s !! endpoint letter stick) as [joint|] eqn:Hj; [|done].
  destruct (Point.locked joint) eqn:Hlk; [done|].
  destruct (Screen.points s !! endpoint (other letter) stick) as [prevJoint|]; [|done].
  unfold follow.
  set (s' := set_position _ _ s).
  assert (Screen.points s' !! i = Screen.points s !! i) as Hs'.
  { simpl. apply list_lookup_alter_ne. intros Heq. by rewrite Heq in Hout. }
  destruct (FirstStickOtherThan _ si (Screen.sticks s')) as [k|] eqn:Hk; [|done].
  apply FirstStickOtherThan_Some in Hk as (_ & (next & Hn & Ht) & _).
  rewrite Hn. rewrite <- Hs'.
  apply (IH k _ s' next); [done|done| |done].
  by eapply closed_stick_outside.
Qed.

Lemma sweep_step_anchor_free C depth e (s : Screen.t F) :
  anchor_free C s → Screen.sticks s !! e.1 = Some e.2 →
  ∀ i, C i → Screen.points (sweep_step depth e s).1 !! i = Screen.points s !! i.
Proof.
  intros [Hcl Hfree] He i Hi. unfold sweep_step.
  destruct (Screen.points s !! Stick.pointA e.2) as [pa|] eqn:Ha; [|done].
  destruct (Screen.points s !! Stick.pointB e.2) as [pb|] eqn:Hb; [|done].
  pose proof (proj1 (Forall_lookup _ _) Hcl _ _ He) as Hiff. simpl in Hiff.
  destruct (Point.locked pa) eqn:Hla.
  - apply (calculate_joint_outside C depth e.1 B s e.2); [done|done| |done].
    simpl. intros HB. apply Hiff in HB. specialize (Hfree _ _ HB Ha). congruence.
  - destruct (Point.locked pb) eqn:Hlb; [|done].
    apply (calculate_joint_outside C depth e.1 A s e.2); [done|done| |done].
    simpl. intros HA. apply Hiff in HA. specialize (Hfree _ _ HA Hb). congruence.
Qed.

Lemma sweep_anchor_free C depth l (s : Screen.t F) :
  anchor_free C s → (∀ e, e ∈ l → Screen.sticks s !! e.1 = Some e.2) →
  ∀ i, C i → Screen.points (sweep depth l s).1 !! i = Screen.points s !! i.
Proof.
  revert s. induction l as [|e l IH]; intros s Hfree Hl i Hi; [done|].
  simpl. unfold and_then.
  pose proof (sweep_step_frame depth e s) as Hfr.
  pose proof (sweep_step_anchor_free C depth e s Hfree (Hl e (list_elem_of_here _ _)) i Hi) as He.
  destruct (sweep_step depth e s) as [s1 []] eqn:Hstep; simpl in *; try done.
  rewrite <- He. apply IH; [by eapply anchor_free_frame| |done].
  intros e' He'. destruct Hfr as (-> & _). apply Hl. by apply list_elem_of_further.
Qed.

Lemma sweeps_anchor_free C n depth (s : Screen.t F) :
  anchor_free C s →
  ∀ i, C i → Screen.points (sweeps n depth s).1 !! i = Screen.points s !! i.
Proof.
  revert s. induction n as [|n IH]; intros s Hfree i Hi; [done|].
  simpl. unfold and_then.
  pose proof (sweep_frame depth (enumerate (Screen.sticks s)) s) as Hfr.
  pose proof (sweep_anchor_free C depth (enumerate (Screen.sticks s)) s Hfree
                (enumerate_lookup _) i Hi) as He.
  destruct (sweep depth _ s) as [s1 []] eqn:Hsw; simpl in *; try done.
  rewrite <- He. apply IH; [by eapply anchor_free_frame|done].
Qed.

(** C6, as the code has it.  A stick that lies in a part of the skeleton
    without an anchor keeps both ends where they are, whatever its length,
    for [simulate_frame] and for any number of sweeps. *)
Theorem anchor_free_part_is_inert (C : nat → Prop) (n depth : nat) (s : Screen.t F)
    (si : nat) (stick : Stick.t F) :
  anchor_free C s →
  Screen.sticks s !! si = Some stick →
  C (Stick.pointA stick) →
  (Screen.points (simulate_frame depth s).1 !! Stick.pointA stick =
     Screen.points s !! Stick.pointA stick ∧
   Screen.points (simulate_frame depth s).1 !! Stick.pointB stick =
     Screen.points s !! Stick.pointB stick) ∧
  (Screen.points (sweeps n depth s).1 !! Stick.pointA stick =
     Screen.points s !! Stick.pointA stick ∧
   Screen.points (sweeps n depth s).1 !! Stick.pointB stick =
     Screen.points s !! Stick.pointB stick).
Proof.
  intros Hfree Hs HA.
  assert (C (Stick.pointB stick)) as HB.
  { destruct Hfree as [Hcl _]. rewrite Forall_lookup in Hcl. by apply (Hcl si stick Hs). }
  unfold simulate_frame. repeat split; by apply (sweeps_anchor_free C).
Qed.

End Inert.

Section InertChecks.
Import PrimFloat.

(** Two floats are different objects when [==] tells them apart and one of
    them is equal to itself (is a number). *)
Lemma float_neq (x y : float) :
  PrimFloat.eqb x x = true → PrimFloat.eqb x y = false → x ≠ y.
Proof. intros Hxx Hxy ->. congruence. Qed.

Lemma anchor_free_part_is_inert_witness :
  (Screen.points (simulate_frame recursionlimit Examples.chain_and_free).1 !! 3 =
     Screen.points Examples.chain_and_free !! 3 ∧
   Screen.points (simulate_frame recursionlimit Examples.chain_and_free).1 !! 4 =
     Screen.points Examples.chain_and_free !! 4) ∧
  (Screen.points (sweeps 1 recursionlimit Examples.chain_and_free).1 !! 3 =
     Screen.points Examples.chain_and_free !! 3 ∧
   Screen.points (sweeps 1 recursionlimit Examples.chain_and_free).1 !! 4 =
     Screen.points Examples.chain_and_free !! 4).
Proof.
  apply (anchor_free_part_is_inert (λ i, i = 3 ∨ i = 4) 1 recursionlimit
           Examples.chain_and_free 2 (Stick.mk 3 4 150%float)).
  - split.
    + apply Forall_lookup. intros [|[|[|k]]] st Hst; simpl in Hst; [..|done];
        injection Hst as <-; simpl; lia.
    + intros i p [->| ->] Hp; simpl in Hp; by injection Hp as <-.
  - reflexivity.
  - simpl. lia.
Defined.

(** C6 as stated fails on a chain: the second stick of [Examples.chain] has
    two unlocked ends, and the walk that starts at the anchor moves both. *)
Lemma free_stick_moved :
  ∃ stick pa pb pa' pb',
    Screen.sticks Examples.chain !! 1 = Some stick ∧
    Screen.points Examples.chain !! Stick.pointA stick = Some pa ∧
    Screen.points Examples.chain !! Stick.pointB stick = Some pb ∧
    Point.locked pa = false ∧ Point.locked pb = false ∧
    simulate_frame recursionlimit Examples.chain =
      (Examples.screen
         [Examples.dragged 50 100 100 100; pa'; pb']
         (Screen.sticks Examples.chain), Returned) ∧
    pa' = Point.mk (150, 100)%float false (200, 100)%float ∧
    pb' = Point.mk (250, 100)%float false (300, 100)%float ∧
    Point.position pa' ≠ Point.position pa ∧
    Point.position pb' ≠ Point.position pb.
Proof.
  eexists _, _, _, _, _.
  split; [reflexivity|]. split; [reflexivity|]. split; [reflexivity|].
  split; [reflexivity|]. split; [reflexivity|].
  split; [vm_compute; reflexivity|].
  split; [reflexivity|]. split; [reflexivity|].
  split; simpl; intros [= Hx]; by apply float_neq in Hx.
Qed.

End InertChecks.

(** ** When the chain walk comes to an end *)

Section Termination.
Context {F : Type} `{Scalar F}.
Variable rank : nat → nat.

(** The end of a stick that lies deeper, for a depth [rank] given to every
    point. *)
Definition deep_end (stick : Stick.t F) : nat :=
  if decide (rank (Stick.pointA stick) < rank (Stick.pointB stick))
  then Stick.pointB stick else Stick.pointA stick.

(** The sticks form a forest, with [rank] the depth of a point in its tree:
    every stick joins two points of different depth, and no point is the
    deep end of two sticks (a point has one parent at most).  Sticks without
    a cycle, a doubled stick or a stick from a point to itself have such a
    [rank], the distance from the root of the tree; sticks with a cycle have
    none (the deepest point of the cycle would have two parents). *)
Definition forest (l : list (Stick.t F)) : Prop :=
  Forall (λ stick, rank (Stick.pointA stick) ≠ rank (Stick.pointB stick)) l ∧
  NoDup (deep_end <$> l).

(** The greatest depth of an end of a stick. *)
Definition max_rank (l : list (Stick.t F)) : nat :=
  foldr (λ stick m,
           Nat.max (Nat.max (rank (Stick.pointA stick)) (rank (Stick.pointB stick))) m) 0 l.

(** Calls the walk may still need when it enters a stick towards the end
    [letter]: going down it can only go further down, going up it may go up
    to a root and then down. *)
Definition budget (M : nat) (stick : Stick.t F) (letter : Letter) : nat :=
  if decide (rank (endpoint (other letter) stick) < rank (endpoint letter stick))
  then M - rank (endpoint letter stick)
  else M + 1 + rank (endpoint letter stick).

Lemma max_rank_lookup (l : list (Stick.t F)) k stick letter :
  l !! k = Some stick → rank (endpoint letter stick) ≤ max_rank l.
Proof.
  revert k. induction l as [|x l IH]; intros [|k] Hk; simpl in *; try done.
  - injection Hk as ->. destruct letter; simpl; lia.
  - specialize (IH k Hk). lia.
Qed.

Lemma other_other letter : other (other letter) = letter.
Proof. by destruct letter. Qed.

Lemma endpoint_anchorEnd joint (next : Stick.t F) :
  touches joint next → endpoint (anchorEnd joint next) next = joint.
Proof.
  unfold anchorEnd. intros [Ha|Hb]; case_decide; simpl; congruence.
Qed.

Lemma deep_end_endpoint (stick : Stick.t F) letter :
  rank (endpoint (other letter) stick) < rank (endpoint letter stick) →
  deep_end stick = endpoint letter stick.
Proof.
  unfold deep_end. destruct letter; simpl; intros Hlt; case_decide; (done || lia).
Qed.

Lemma forest_ranks_differ (l : list (Stick.t F)) k stick letter :
  forest l → l !! k = Some stick →
  rank (endpoint (other letter) stick) ≠ rank (endpoint letter stick).
Proof.
  intros [Hne _] Hk. rewrite Forall_lookup in Hne. specialize (Hne k stick Hk).
  destruct letter; simpl; congruence.
Qed.

Lemma forest_one_parent (l : list (Stick.t F)) k k' stick next :
  forest l → l !! k = Some stick → l !! k' = Some next →
  deep_end stick = deep_end next → k = k'.
Proof.
  intros [_ Hnd] Hk Hk' Heq.
  eapply (NoDup_lookup _ k k' (deep_end stick) Hnd).
  - by rewrite list_lookup_fmap, Hk.
  - by rewrite list_lookup_fmap, Hk', Heq.
Qed.

(** The walk returns when it has [budget] calls and one more. *)
Lemma calculate_joint_returns M depth k letter (s : Screen.t F) stick :
  wf s → forest (Screen.sticks s) → max_rank (Screen.sticks s) ≤ M →
  Screen.sticks s !! k = Some stick →
  budget M stick letter < depth →
  (calculate_joint depth k letter s).2 = Returned.
Proof.
  revert k letter s stick.
  induction depth as [|depth IH]; intros k letter s stick Hwf Hfo HM Hk Hb; [lia|].
  rewrite calculate_joint_S, Hk.
  destruct (wf_lookup s k stick letter Hwf Hk) as [joint Hj]. rewrite Hj.
  destruct (Point.locked joint) eqn:Hlk; [done|].
  destruct (wf_lookup s k stick (other letter) Hwf Hk) as [prevJoint Hp]. rewrite Hp.
  unfold follow. set (s' := set_position _ _ s).
  destruct (FirstStickOtherThan _ k (Screen.sticks s')) as [k'|] eqn:Hk'; [|done].
  apply FirstStickOtherThan_Some in Hk' as (Hne & (next & Hn & Ht) & _).
  rewrite Hn. change (Screen.sticks s') with (Screen.sticks s) in Hn.
  apply (IH k' _ s' next); [|done|done|done|].
  { eapply wf_frame; [|done]. by eapply frame_set_position. }
  pose proof (endpoint_anchorEnd _ next Ht) as Hent.
  pose proof (forest_ranks_differ _ k stick letter Hfo Hk) as Hd1.
  pose proof (forest_ranks_differ _ k' next (other (anchorEnd (endpoint letter stick) next))
                Hfo Hn) as Hd2.
  pose proof (max_rank_lookup _ k stick letter Hk) as Hm1.
  pose proof (max_rank_lookup _ k' next (other (anchorEnd (endpoint letter stick) next)) Hn)
    as Hm2.
  assert (¬ (rank (endpoint (other letter) stick) < rank (endpoint letter stick) ∧
             rank (endpoint (other (anchorEnd (endpoint letter stick) next)) next) <
               rank (endpoint letter stick))) as Hup.
  { intros [Hdown Hback]. apply Hne. symmetry.
    apply (forest_one_parent _ k k' stick next Hfo Hk Hn).
    rewrite (deep_end_endpoint stick letter Hdown).
    rewrite (deep_end_endpoint next (anchorEnd (endpoint letter stick) next)).
    - by rewrite Hent.
    - by rewrite Hent. }
  revert Hb. unfold budget. rewrite other_other, Hent in *.
  repeat case_decide; lia.
Qed.

Lemma budget_bound M (stick : Stick.t F) letter (l : list (Stick.t F)) k :
  l !! k = Some stick → max_rank l ≤ M → budget M stick letter ≤ 2 * M + 1.
Proof.
  intros Hk HM. pose proof (max_rank_lookup l k stick letter Hk).
  unfold budget. case_decide; lia.
Qed.

Lemma sweep_step_returns depth e (s : Screen.t F) :
  wf s → forest (Screen.sticks s) →
  2 * max_rank (Screen.sticks s) + 1 < depth →
  Screen.sticks s !! e.1 = Some e.2 →
  (sweep_step depth e s).2 = Returned.
Proof.
  intros Hwf Hfo Hd He. unfold sweep_step.
  destruct (wf_lookup s e.1 e.2 A Hwf He) as [pa Ha].
  destruct (wf_lookup s e.1 e.2 B Hwf He) as [pb Hb].
  simpl in Ha, Hb. rewrite Ha, Hb.
  destruct (Point.locked pa); [|destruct (Point.locked pb); [|done]].
  - apply (calculate_joint_returns (max_rank (Screen.sticks s)) _ _ _ _ e.2); try done.
    pose proof (budget_bound (max_rank (Screen.sticks s)) e.2 B _ _ He). lia.
  - apply (calculate_joint_returns (max_rank (Screen.sticks s)) _ _ _ _ e.2); try done.
    pose proof (budget_bound (max_rank (Screen.sticks s)) e.2 A _ _ He). lia.
Qed.

Lemma sweep_returns depth l (s : Screen.t F) :
  wf s → forest (Screen.sticks s) →
  2 * max_rank (Screen.sticks s) + 1 < depth →
  (∀ e, e ∈ l → Screen.sticks s !! e.1 = Some e.2) →
  (sweep depth l s).2 = Returned.
Proof.
  revert s. induction l as [|e l IH]; intros s Hwf Hfo Hd Hl; [done|].
  simpl. unfold and_then.
  pose proof (sweep_step_frame depth e s) as Hfr.
  rewrite (sweep_step_returns depth e s) by (try done; apply Hl; left).
  pose proof Hfr as (Hs & _).
  apply IH; [by eapply wf_frame|by rewrite Hs|by rewrite Hs|].
  intros e' He'. rewrite Hs. apply Hl. by right.
Qed.

Lemma sweeps_returns n depth (s : Screen.t F) :
  wf s → forest (Screen.sticks s) →
  2 * max_rank (Screen.sticks s) + 1 < depth →
  (sweeps n depth s).2 = Returned.
Proof.
  revert s. induction n as [|n IH]; intros s Hwf Hfo Hd; [done|].
  simpl. unfold and_then.
  pose proof (sweep_frame depth (enumerate (Screen.sticks s)) s) as Hfr.
  rewrite (sweep_returns depth _ s) by (try done; apply enumerate_lookup).
  pose proof Hfr as (Hs & _).
  apply IH; [by eapply wf_frame|by rewrite Hs|by rewrite Hs].
Qed.

(** C5, as the code has it.  On a screen whose sticks form a forest the
    solver returns, as soon as the recursion bound is greater than twice the
    depth of the forest plus one: [simulate_frame], and any number [n] of
    sweeps. *)
Theorem simulate_frame_returns_on_forest (n depth : nat) (s : Screen.t F) :
  wf s →
  forest (Screen.sticks s) →
  2 * max_rank (Screen.sticks s) + 1 < depth →
  (simulate_frame depth s).2 = Returned ∧ (sweeps n depth s).2 = Returned.
Proof. intros Hwf Hfo Hd. split; by apply sweeps_returns. Qed.

End Termination.

(** Goals over the sticks of a screen that is written out. *)
Ltac each_stick :=
  apply Forall_lookup;
  let k := fresh "k" in
  let st := fresh "st" in
  let Hst := fresh "Hst" in
  intros k st Hst;
  repeat (destruct k as [|k]; simpl in Hst; [injection Hst as <-|]);
  try (simpl in *; done); try (simpl; lia).

Ltac written_wf :=
  split; [each_stick|split; intros ? [= <-]; simpl; lia].

Ltac by_decision := apply (bool_decide_unpack _); vm_compute; exact I.

Section TerminationChecks.
Import PrimFloat.

Lemma chain_wf : wf Examples.chain.
Proof. written_wf. Qed.

Lemma chain_forest : forest (λ i, i) (Screen.sticks Examples.chain).
Proof. split; [each_stick|by_decision]. Qed.

Lemma simulate_frame_returns_on_forest_witness :
  (simulate_frame recursionlimit Examples.chain).2 = Returned ∧
  (sweeps 1 recursionlimit Examples.chain).2 = Returned.
Proof.
  apply (simulate_frame_returns_on_forest (λ i, i) 1 recursionlimit Examples.chain).
  - apply chain_wf.
  - apply chain_forest.
  - unfold recursionlimit. simpl. lia.
Defined.

(** The screens the walk on [Examples.triangle] passes through: the same
    sticks and flags, the free points anywhere. *)
Definition triangle_like (s : Screen.t float) : Prop :=
  ∃ p0 v1 w1 v2 w2 v3 w3,
    s = Examples.screen
          [p0; Point.mk v1 false w1; Point.mk v2 false w2; Point.mk v3 false w3]
          (Screen.sticks Examples.triangle).

(** Round the triangle: from the first stick to the second, to the third,
    and to the first again, with no end. *)
Lemma triangle_walk depth :
  ∀ s, triangle_like s →
    (calculate_joint depth 0 B s).2 = RecursionError ∧
    (calculate_joint depth 1 B s).2 = RecursionError ∧
    (calculate_joint depth 2 B s).2 = RecursionError.
Proof.
  induction depth as [|depth IH]; intros s Hs; [done|].
  destruct Hs as (p0 & v1 & w1 & v2 & w2 & v3 & w3 & ->).
  repeat split; rewrite calculate_joint_S; cbn -[calculate_joint PrimFloat.sub PrimFloat.add
    PrimFloat.mul PrimFloat.div PrimFloat.sqrt];
    unfold follow; cbn -[calculate_joint PrimFloat.sub PrimFloat.add
    PrimFloat.mul PrimFloat.div PrimFloat.sqrt];
    apply IH; unfold triangle_like, Examples.screen; eauto 10.
Qed.

(** C5 as stated fails on a triangle of free points tied to an anchor: on
    [Examples.triangle] the walk from the anchor goes round the triangle and
    the solver never returns, whatever the bound on the recursion; it ends in
    [RecursionError] every time. *)
Lemma triangle_never_returns :
  wf Examples.triangle ∧
  ∀ depth, (simulate_frame depth Examples.triangle).2 = RecursionError.
Proof.
  split; [written_wf|].
  intros [|depth]; [done|].
  unfold simulate_frame, Config.STICK_ITERATIONS. rewrite sweeps_S.
  apply and_then_error.
  cbn -[calculate_joint and_then]. unfold and_then at 1 2 3. cbn -[calculate_joint and_then].
  apply and_then_error.
  rewrite calculate_joint_S.
  cbn -[calculate_joint PrimFloat.sub PrimFloat.add PrimFloat.mul PrimFloat.div
    PrimFloat.sqrt].
  unfold follow.
  cbn -[calculate_joint PrimFloat.sub PrimFloat.add PrimFloat.mul PrimFloat.div
    PrimFloat.sqrt].
  apply triangle_walk. unfold triangle_like, Examples.screen. eauto 10.
Qed.

End TerminationChecks.

(** ** Trees that hang from their anchors *)

Section Anchored.
Context {F : Type} `{Scalar F}.
Variable rank : nat → nat.

(** The deep end of every stick is an unlocked point: a locked point has no
    parent, it is the root of its tree. *)
Definition deep_ends_free (s : Screen.t F) : Prop :=
  Forall (λ stick, Point.locked <$> Screen.points s !! deep_end rank stick = Some false)
    (Screen.sticks s).

Lemma deep_ends_free_frame (s s' : Screen.t F) :
  frame s s' → deep_ends_free s → deep_ends_free s'.
Proof.
  intros (Hs & _ & _ & _ & Hp) Hfree. unfold deep_ends_free in *. rewrite Hs.
  eapply Forall_impl; [done|]. intros stick Hd. simpl in *.
  destruct (Screen.points s !! deep_end rank stick) as [p|] eqn:Hl; [|done].
  destruct (Hp _ _ Hl) as (p' & -> & Hlk & _). simpl in *. congruence.
Qed.

Lemma deep_end_cases (stick : Stick.t F) letter :
  deep_end rank stick = endpoint letter stick ∨
  deep_end rank stick = endpoint (other letter) stick.
Proof. unfold deep_end. destruct letter; case_decide; simpl; auto. Qed.

(** A walk that goes down a stick other than [si] never writes the deep end
    of [si], provided the other end of [si] is locked. *)
Lemma calculate_joint_avoids depth si stick aletter k letter (s : Screen.t F) stick_k anchor :
  forest rank (Screen.sticks s) →
  Screen.sticks s !! si = Some stick →
  deep_end rank stick = endpoint (other aletter) stick →
  Screen.points s !! endpoint aletter stick = Some anchor →
  Point.locked anchor = true →
  Screen.sticks s !! k = Some stick_k →
  k ≠ si →
  deep_end rank stick_k = endpoint letter stick_k →
  Screen.points (calculate_joint depth k letter s).1 !! deep_end rank stick =
  Screen.points s !! deep_end rank stick.
Proof.
  revert k letter s stick_k anchor.
  induction depth as [|depth IH];
    intros k letter s stick_k anchor Hfo Hsi Hdeep Ha Hlk Hk Hne Hdown; [done|].
  rewrite calculate_joint_S, Hk.
  destruct (Screen.points s !! endpoint letter stick_k) as [joint|] eqn:Hj; [|done].
  destruct (Point.locked joint) eqn:Hfree; [done|].
  destruct (Screen.points s !! endpoint (other letter) stick_k) as [prevJoint|]; [|done].
  unfold follow. set (s' := set_position _ _ s).
  assert (endpoint letter stick_k ≠ deep_end rank stick) as Hother.
  { intros Heq. apply Hne. apply (forest_one_parent rank _ k si stick_k stick Hfo Hk Hsi).
    congruence. }
  assert (Screen.points s' !! deep_end rank stick = Screen.points s !! deep_end rank stick)
    as Hs'.
  { simpl. by apply list_lookup_alter_ne. }
  assert (frame s s') as Hfr by (by eapply frame_set_position).
  destruct (FirstStickOtherThan _ k (Screen.sticks s')) as [k'|] eqn:Hk'; [|done].
  apply FirstStickOtherThan_Some in Hk' as (Hne' & (next & Hn & Ht) & _).
  rewrite Hn. rewrite <- Hs'. change (Screen.sticks s') with (Screen.sticks s) in Hn.
  pose proof (endpoint_anchorEnd _ next Ht) as Hent.
  apply (IH k' _ s' next anchor); try done.
  - by eapply frame_locked_point.
  - intros ->. assert (next = stick) as -> by congruence.
    assert (endpoint letter stick_k = endpoint aletter stick ∨
            endpoint letter stick_k = endpoint (other aletter) stick) as [Hx|Hx].
    { destruct Ht as [Ht|Ht], aletter; simpl; auto. }
    + rewrite Hx in Hj. congruence.
    + congruence.
  - destruct (deep_end_cases next (other (anchorEnd (endpoint letter stick_k) next)))
      as [Hd|Hd]; [done|].
    rewrite other_other, Hent in Hd. exfalso. apply Hne'. symmetry.
    apply (forest_one_parent rank _ k k' stick_k next Hfo Hk Hn). congruence.
Qed.

(** From its locked end, [calculate_joint] on [si] leaves the deep end of
    [si] at the snapped position, whatever the walk does further down. *)
Lemma calculate_joint_snaps depth si stick aletter (s : Screen.t F) anchor joint :
  0 < depth →
  forest rank (Screen.sticks s) →
  Screen.sticks s !! si = Some stick →
  deep_end rank stick = endpoint (other aletter) stick →
  Screen.points s !! endpoint aletter stick = Some anchor →
  Point.locked anchor = true →
  Screen.points s !! endpoint (other aletter) stick = Some joint →
  Point.locked joint = false →
  Screen.points (calculate_joint depth si (other aletter) s).1
    !! endpoint (other aletter) stick =
  Some (Point.mk (snapped joint anchor (Stick.length stick)) false
          (Point.prevPosition joint)) ∧
  Screen.points (calculate_joint depth si (other aletter) s).1
    !! endpoint aletter stick = Some anchor.
Proof.
  intros Hpos Hfo Hsi Hdeep Ha Hlk Hj Hfree. destruct depth as [|depth]; [lia|]. split.
  2: { eapply frame_locked_point; [apply calculate_joint_frame|done|done]. }
  rewrite calculate_joint_S, Hsi, Hj, Hfree, other_other, Ha.
  unfold follow. set (s' := set_position _ _ s).
  assert (Screen.points s' !! endpoint (other aletter) stick =
          Some (Point.mk (snapped joint anchor (Stick.length stick)) false
                  (Point.prevPosition joint))) as Hs'.
  { simpl. by rewrite list_lookup_alter_eq, Hj, <- Hfree. }
  assert (frame s s') as Hfr by (by eapply frame_set_position).
  destruct (FirstStickOtherThan _ si (Screen.sticks s')) as [k'|] eqn:Hk'; [|done].
  apply FirstStickOtherThan_Some in Hk' as (Hne' & (next & Hn & Ht) & _).
  rewrite Hn. rewrite <- Hs'.
  change (Screen.sticks s') with (Screen.sticks s) in Hn.
  pose proof (endpoint_anchorEnd _ next Ht) as Hent.
  pose proof (calculate_joint_avoids depth si stick aletter k'
                (other (anchorEnd (endpoint (other aletter) stick) next)) s' next anchor)
    as Hav.
  rewrite Hdeep in Hav. apply Hav; try done.
  - by eapply frame_locked_point.
  - destruct (deep_end_cases next (other (anchorEnd (endpoint (other aletter) stick) next)))
      as [Hd|Hd]; [done|].
    rewrite other_other, Hent in Hd. exfalso. apply Hne'.
    apply (forest_one_parent rank _ k' si next stick Hfo Hn Hsi). congruence.
Qed.

End Anchored.

(** ** Exact arithmetic *)

Section Exact.
#[local] Open Scope R_scope.

Lemma squares_nonneg (a b : R) : 0 <= a * a + b * b.
Proof.
  pose proof (Rle_0_sqr a). pose proof (Rle_0_sqr b). unfold Rsqr in *. lra.
Qed.

Lemma squares_zero (a b : R) : a * a + b * b = 0 → a = 0 ∧ b = 0.
Proof. intros H0. by apply Rplus_sqr_eq_0. Qed.

Lemma distance_nonneg (u : array R) : 0 <= distance u.
Proof. unfold distance. simpl. apply sqrt_pos. Qed.

Lemma distance_sym (u v : array R) : distance (asub u v) = distance (asub v u).
Proof. unfold distance, asub. simpl. f_equal. ring. Qed.

Lemma distance_zero (u v : array R) : distance (asub u v) = 0 ↔ u = v.
Proof.
  destruct u as [ux uy], v as [vx vy]. unfold distance, asub. simpl. split.
  - intros H0. apply sqrt_eq_0 in H0; [|apply squares_nonneg].
    apply squares_zero in H0 as [Hx Hy]. f_equal; lra.
  - intros [= -> ->]. replace ((vx - vx) * (vx - vx) + (vy - vy) * (vy - vy)) with 0 by ring.
    apply sqrt_0.
Qed.

(** The snapped joint is at the stick's length from the other end. *)
Lemma snapped_distance (joint prevJoint : Point.t R) (length : R) :
  Point.position joint ≠ Point.position prevJoint → 0 <= length →
  distance (asub (snapped joint prevJoint length) (Point.position prevJoint)) = length.
Proof.
  intros Hne Hlen.
  assert (distance (asub (Point.position joint) (Point.position prevJoint)) ≠ 0) as Hn.
  { by rewrite distance_zero. }
  revert Hn. unfold snapped, distance, asub, aadd, amul, adiv.
  destruct (Point.position joint) as [jx jy], (Point.position prevJoint) as [px py].
  simpl. set (d := (jx - px) * (jx - px) + (jy - py) * (jy - py)).
  intros Hn. assert (0 <= d) as Hd by apply squares_nonneg.
  pose proof (sqrt_sqrt d Hd) as Hsq.
  replace ((px + (jx - px) / sqrt d * length - px) * (px + (jx - px) / sqrt d * length - px) +
           (py + (jy - py) / sqrt d * length - py) * (py + (jy - py) / sqrt d * length - py))
    with (length * length * (d / (sqrt d * sqrt d))).
  - rewrite Hsq. replace (d / d) with 1; [|field; by rewrite <- Hsq; nra].
    rewrite Rmult_1_r. by apply sqrt_square.
  - unfold d. field. done.
Qed.

(** The two ends of [stick] are at its stored length from each other. *)
Definition has_length (stick : Stick.t R) (s : Screen.t R) : Prop :=
  ∃ pa pb,
    Screen.points s !! Stick.pointA stick = Some pa ∧
    Screen.points s !! Stick.pointB stick = Some pb ∧
    distance (asub (Point.position pa) (Point.position pb)) = Stick.length stick.

(** Every stick has its stored length, and that is not zero. *)
Definition at_rest (s : Screen.t R) : Prop :=
  Forall (λ stick, 0 < Stick.length stick ∧ has_length stick s) (Screen.sticks s).

(** A joint that is at the stick's length already is snapped to where it
    is. *)
Lemma snapped_at_rest (joint prevJoint : Point.t R) (length : R) :
  distance (asub (Point.position joint) (Point.position prevJoint)) = length →
  0 < length →
  snapped joint prevJoint length = Point.position joint.
Proof.
  intros Hd Hlen. unfold snapped. rewrite Hd. clear Hd.
  unfold asub, aadd, amul, adiv.
  destruct (Point.position joint) as [jx jy], (Point.position prevJoint) as [px py].
  simpl. f_equal; field; lra.
Qed.

(** On a horizontal line the snapped joint is the stick's length to the
    right of the other end, or to the left, as the joint was. *)
Lemma distance_on_line (x x' y : R) :
  x' < x → distance (asub (x', y) (x, y)) = x - x'.
Proof.
  intros Hlt. unfold distance, asub. simpl.
  replace ((x' - x) * (x' - x) + (y - y) * (y - y)) with ((x - x') * (x - x')) by ring.
  apply sqrt_square. lra.
Qed.

Lemma snapped_right (joint prevJoint : Point.t R) (length jx px y : R) :
  Point.position joint = (jx, y) → Point.position prevJoint = (px, y) → px < jx →
  snapped joint prevJoint length = (px + length, y).
Proof.
  intros Hj Hp Hlt. unfold snapped, aadd, amul, adiv, distance, asub. rewrite Hj, Hp. simpl.
  replace ((jx - px) * (jx - px) + (y - y) * (y - y)) with ((jx - px) * (jx - px)) by ring.
  rewrite sqrt_square by lra. f_equal; field; lra.
Qed.

Lemma snapped_left (joint prevJoint : Point.t R) (length jx px y : R) :
  Point.position joint = (jx, y) → Point.position prevJoint = (px, y) → jx < px →
  snapped joint prevJoint length = (px - length, y).
Proof.
  intros Hj Hp Hlt. unfold snapped, aadd, amul, adiv, distance, asub. rewrite Hj, Hp. simpl.
  replace ((jx - px) * (jx - px) + (y - y) * (y - y)) with ((px - jx) * (px - jx)) by ring.
  rewrite sqrt_square by lra. f_equal; field; lra.
Qed.

(** The dot product of two arrays is at most the product of their norms. *)
Lemma dot_le_norms (a b u v l d : R) :
  0 <= l → 0 <= d → l * l = a * a + b * b → d * d = u * u + v * v →
  a * u + b * v <= l * d.
Proof.
  intros Hl Hd Hll Hdd.
  assert ((a * u + b * v) * (a * u + b * v) <= (l * d) * (l * d)) as Hsq.
  { replace ((l * d) * (l * d)) with ((a * a + b * b) * (u * u + v * v))
      by (rewrite <- Hll, <- Hdd; ring).
    pose proof (Rle_0_sqr (a * v - b * u)) as Hcross. unfold Rsqr in Hcross. lra. }
  destruct (Rle_or_lt (a * u + b * v) (l * d)) as [|Hgt]; [done|].
  assert (0 <= l * d) as Hld by (by apply Rmult_le_pos).
  assert ((l * d) * (l * d) < (a * u + b * v) * (a * u + b * v)); [|lra].
  apply Rmult_le_0_lt_compat; lra.
Qed.

End Exact.

(** ** Concrete screens, in exact arithmetic *)

(** The screens of [Examples] that lie on a horizontal line, over the reals,
    and what the solver makes of them. *)
Module ExactExamples.
#[local] Open Scope R_scope.

Definition point (x y : R) (locked : bool) : Point.t R :=
  Point.mk (x, y) locked (x, y).

Definition dragged (x y x0 y0 : R) : Point.t R :=
  Point.mk (x, y) true (x0, y0).

Definition screen (points : list (Point.t R)) (sticks : list (Stick.t R)) : Screen.t R :=
  Screen.mk points sticks (Some 0%nat) (Some 0%nat).

Definition two_anchors : Screen.t R :=
  screen [dragged 50 100 100 100; point 200 100 false; point 400 100 true]
    [Stick.mk 0 1 100; Stick.mk 2 1 200].

Definition chain : Screen.t R :=
  screen [dragged 50 100 100 100; point 200 100 false; point 300 100 false]
    [Stick.mk 0 1 100; Stick.mk 1 2 100].

(** [chain] after the solver ran. *)
Definition chain_at_rest : Screen.t R :=
  screen
    [dragged 50 100 100 100; Point.mk (150, 100) false (200, 100);
     Point.mk (250, 100) false (300, 100)]
    [Stick.mk 0 1 100; Stick.mk 1 2 100].

Definition braced_sticks : list (Stick.t R) :=
  [Stick.mk 1 3 240; Stick.mk 1 2 80; Stick.mk 0 3 140; Stick.mk 0 1 100; Stick.mk 3 2 160].

Definition braced : Screen.t R :=
  screen
    [dragged 460 300 280 300; point 180 300 false; point 260 300 true; point 420 300 false]
    braced_sticks.

(** [braced] after one sweep, and after two; the third sweep gives [braced]
    again. *)
Definition braced_once : Screen.t R :=
  screen
    [dragged 460 300 280 300; Point.mk (340, 300) false (180, 300); point 260 300 true;
     Point.mk (100, 300) false (420, 300)]
    braced_sticks.

Definition braced_twice : Screen.t R :=
  screen
    [dragged 460 300 280 300; Point.mk (660, 300) false (180, 300); point 260 300 true;
     point 420 300 false]
    braced_sticks.

Definition meeting : Screen.t R :=
  Screen.mk
    [point 300 100 false; dragged 200 100 100 100; Point.mk (300, 100) false (200, 100)]
    [Stick.mk 2 1 100] (Some 2%nat) None.

End ExactExamples.

(** Running the solver on a written-out screen whose points lie on a
    horizontal line: one call of [calculate_joint] after the other, each
    snap decided by the side the joint is on. *)
Ltac tidy :=
  repeat match goal with
  | |- context [calculate_joint ?d ?k (other ?l) ?s] =>
      let l' := eval vm_compute in (other l) in change (other l) with l'
  end;
  cbn [Stick.length Stick.pointA Stick.pointB endpoint other].

Ltac walk :=
  repeat first
    [ erewrite calculate_joint_locked by reflexivity
    | erewrite calculate_joint_moves by reflexivity;
      tidy;
      first [ erewrite snapped_right by (reflexivity || lra)
            | erewrite snapped_left by (reflexivity || lra) ];
      first [ erewrite follow_Some by reflexivity
            | erewrite follow_None by reflexivity ];
      tidy ].

Ltac step :=
  rewrite sweep_cons;
  first [ erewrite sweep_step_skip by reflexivity
        | erewrite sweep_step_from_A by reflexivity
        | erewrite sweep_step_from_B by reflexivity ];
  cbn [fst snd];
  walk; rewrite and_then_returned.

Ltac one_sweep sticks :=
  match goal with
  | |- sweep _ (enumerate ?l) _ = _ => change (enumerate l) with sticks
  end;
  unfold recursionlimit;
  repeat step;
  cbv [sweep set_position alter list_alter Screen.points Screen.sticks
       Screen.tempPoint Screen.moving_point Point.locked Point.prevPosition
       ExactExamples.two_anchors ExactExamples.chain ExactExamples.chain_at_rest
       ExactExamples.braced ExactExamples.braced_once ExactExamples.braced_twice
       ExactExamples.screen ExactExamples.point ExactExamples.dragged
       ExactExamples.braced_sticks];
  repeat f_equal; lra.

Section ExactRuns.
#[local] Open Scope R_scope.

Lemma two_anchors_sweep :
  sweep recursionlimit (enumerate (Screen.sticks ExactExamples.two_anchors))
    ExactExamples.two_anchors = (ExactExamples.two_anchors, Returned).
Proof. one_sweep [(0%nat, Stick.mk 0 1 100); (1%nat, Stick.mk 2 1 200)]. Qed.

Lemma chain_sweep :
  sweep recursionlimit (enumerate (Screen.sticks ExactExamples.chain))
    ExactExamples.chain = (ExactExamples.chain_at_rest, Returned).
Proof. one_sweep [(0%nat, Stick.mk 0 1 100); (1%nat, Stick.mk 1 2 100)]. Qed.

Lemma chain_at_rest_sweep :
  sweep recursionlimit (enumerate (Screen.sticks ExactExamples.chain_at_rest))
    ExactExamples.chain_at_rest = (ExactExamples.chain_at_rest, Returned).
Proof. one_sweep [(0%nat, Stick.mk 0 1 100); (1%nat, Stick.mk 1 2 100)]. Qed.

Lemma braced_sweep :
  sweep recursionlimit (enumerate (Screen.sticks ExactExamples.braced))
    ExactExamples.braced = (ExactExamples.braced_once, Returned).
Proof.
  one_sweep [(0%nat, Stick.mk 1 3 240); (1%nat, Stick.mk 1 2 80); (2%nat, Stick.mk 0 3 140);
             (3%nat, Stick.mk 0 1 100); (4%nat, Stick.mk 3 2 160)].
Qed.

Lemma braced_once_sweep :
  sweep recursionlimit (enumerate (Screen.sticks ExactExamples.braced_once))
    ExactExamples.braced_once = (ExactExamples.braced_twice, Returned).
Proof.
  one_sweep [(0%nat, Stick.mk 1 3 240); (1%nat, Stick.mk 1 2 80); (2%nat, Stick.mk 0 3 140);
             (3%nat, Stick.mk 0 1 100); (4%nat, Stick.mk 3 2 160)].
Qed.

Lemma braced_twice_sweep :
  sweep recursionlimit (enumerate (Screen.sticks ExactExamples.braced_twice))
    ExactExamples.braced_twice = (ExactExamples.braced, Returned).
Proof.
  one_sweep [(0%nat, Stick.mk 1 3 240); (1%nat, Stick.mk 1 2 80); (2%nat, Stick.mk 0 3 140);
             (3%nat, Stick.mk 0 1 100); (4%nat, Stick.mk 3 2 160)].
Qed.

(** Ten sweeps, from the sweeps one by one. *)
Ltac ten_sweeps :=
  unfold simulate_frame, Config.STICK_ITERATIONS;
  repeat (rewrite sweeps_S;
          first [ rewrite two_anchors_sweep | rewrite chain_sweep
                | rewrite chain_at_rest_sweep | rewrite braced_sweep
                | rewrite braced_once_sweep | rewrite braced_twice_sweep ];
          rewrite and_then_returned);
  reflexivity.

Lemma two_anchors_run :
  simulate_frame recursionlimit ExactExamples.two_anchors =
  (ExactExamples.two_anchors, Returned).
Proof. ten_sweeps. Qed.

Lemma chain_run :
  simulate_frame recursionlimit ExactExamples.chain = (ExactExamples.chain_at_rest, Returned).
Proof. ten_sweeps. Qed.

(** Ten sweeps are three times round the cycle of three and one more. *)
Lemma braced_run :
  simulate_frame recursionlimit ExactExamples.braced = (ExactExamples.braced_once, Returned).
Proof. ten_sweeps. Qed.

Lemma braced_once_run :
  simulate_frame recursionlimit ExactExamples.braced_once =
  (ExactExamples.braced_twice, Returned).
Proof. ten_sweeps. Qed.

End ExactRuns.

(** ** A stick that hangs from an anchor *)

Section Hanging.
Context {F : Type} `{Scalar F}.
Variable rank : nat → nat.
Variable si : nat.
Variable stick : Stick.t F.
Variable aletter : Letter.
Variable depth : nat.
Hypothesis Hdeep : deep_end rank stick = endpoint (other aletter) stick.

(** What is known of the position of the free end and of the position of
    the anchor: [apart_at] before the free end is snapped to the stick,
    [held_at] once it is.  The snap takes the one to the other. *)
Variables apart_at held_at : array F → array F → Prop.
Hypothesis held_apart_at : ∀ j p, held_at j p → apart_at j p.
Hypothesis snapped_held_at : ∀ joint anchor : Point.t F,
  apart_at (Point.position joint) (Point.position anchor) →
  held_at (snapped joint anchor (Stick.length stick)) (Point.position anchor).

(** What stays true of the screen while the solver runs. *)
Definition hanging (s : Screen.t F) : Prop :=
  wf s ∧ forest rank (Screen.sticks s) ∧ deep_ends_free rank s ∧
  2 * max_rank rank (Screen.sticks s) + 1 < depth ∧
  Screen.sticks s !! si = Some stick ∧
  ∃ anchor, Screen.points s !! endpoint aletter stick = Some anchor ∧
    Point.locked anchor = true.

(** The free end has been snapped to the stick. *)
Definition held (s : Screen.t F) : Prop :=
  ∃ anchor joint,
    Screen.points s !! endpoint aletter stick = Some anchor ∧
    Screen.points s !! endpoint (other aletter) stick = Some joint ∧
    held_at (Point.position joint) (Point.position anchor).

(** The free end can be snapped to the stick. *)
Definition apart (s : Screen.t F) : Prop :=
  ∃ anchor joint,
    Screen.points s !! endpoint aletter stick = Some anchor ∧
    Screen.points s !! endpoint (other aletter) stick = Some joint ∧
    apart_at (Point.position joint) (Point.position anchor).

Lemma held_apart s : held s → apart s.
Proof.
  intros (anchor & joint & Ha & Hj & Hd). exists anchor, joint.
  split; [done|]. split; [done|]. by apply held_apart_at.
Qed.

Lemma hanging_frame s s' : frame s s' → hanging s → hanging s'.
Proof.
  intros Hfr (Hwf & Hfo & Hfree & Hd & Hsi & anchor & Ha & Hlk).
  pose proof Hfr as (Hs & _).
  split; [by eapply wf_frame|]. split; [by rewrite Hs|].
  split; [by eapply deep_ends_free_frame|]. split; [by rewrite Hs|].
  split; [by rewrite Hs|]. exists anchor. split; [|done].
  by eapply frame_locked_point.
Qed.

Lemma hanging_joint s :
  hanging s →
  ∃ joint, Screen.points s !! endpoint (other aletter) stick = Some joint ∧
    Point.locked joint = false.
Proof.
  intros (_ & _ & Hfree & _ & Hsi & _).
  unfold deep_ends_free in Hfree. rewrite Forall_lookup in Hfree.
  specialize (Hfree si stick Hsi). simpl in Hfree. rewrite Hdeep in Hfree.
  destruct (Screen.points s !! endpoint (other aletter) stick) as [joint|]; [|done].
  exists joint. split; [done|]. simpl in Hfree. congruence.
Qed.

(** A stick with a locked end is entered from that end, going down. *)
Lemma sweep_step_down (e : nat * Stick.t F) (s : Screen.t F) pa pb :
  deep_ends_free rank s → Screen.sticks s !! e.1 = Some e.2 →
  Screen.points s !! Stick.pointA e.2 = Some pa →
  Screen.points s !! Stick.pointB e.2 = Some pb →
  (Point.locked pa = true → deep_end rank e.2 = Stick.pointB e.2 ∧ Point.locked pb = false) ∧
  (Point.locked pb = true → deep_end rank e.2 = Stick.pointA e.2 ∧ Point.locked pa = false).
Proof.
  intros Hfree He Ha Hb. unfold deep_ends_free in Hfree. rewrite Forall_lookup in Hfree.
  specialize (Hfree e.1 e.2 He). simpl in Hfree.
  destruct (deep_end_cases rank e.2 A) as [Hd|Hd]; simpl in Hd; rewrite Hd in Hfree.
  - rewrite Ha in Hfree. simpl in Hfree. split; intros Hlk; [congruence|].
    split; [done|congruence].
  - rewrite Hb in Hfree. simpl in Hfree. split; intros Hlk; [|congruence].
    split; [done|congruence].
Qed.

(** The step of another stick leaves the two ends of [si] alone. *)
Lemma sweep_step_other (e : nat * Stick.t F) (s : Screen.t F) :
  hanging s → Screen.sticks s !! e.1 = Some e.2 → e.1 ≠ si →
  Screen.points (sweep_step depth e s).1 !! endpoint aletter stick =
    Screen.points s !! endpoint aletter stick ∧
  Screen.points (sweep_step depth e s).1 !! endpoint (other aletter) stick =
    Screen.points s !! endpoint (other aletter) stick.
Proof.
  intros (Hwf & Hfo & Hfree & Hd & Hsi & anchor & Ha & Hlk) He Hne. split.
  { rewrite Ha. eapply frame_locked_point; [apply sweep_step_frame|done|done]. }
  unfold sweep_step.
  destruct (Screen.points s !! Stick.pointA e.2) as [pa|] eqn:Hpa; [|done].
  destruct (Screen.points s !! Stick.pointB e.2) as [pb|] eqn:Hpb; [|done].
  destruct (sweep_step_down e s pa pb Hfree He Hpa Hpb) as [HA HB].
  rewrite <- Hdeep.
  destruct (Point.locked pa) eqn:Hla.
  - destruct HA as [HA _]; [done|].
    by apply (calculate_joint_avoids rank depth si stick aletter e.1 B s e.2 anchor).
  - destruct (Point.locked pb) eqn:Hlb; [|done].
    destruct HB as [HB _]; [done|].
    by apply (calculate_joint_avoids rank depth si stick aletter e.1 A s e.2 anchor).
Qed.

(** The step of [si] itself snaps the free end to the stick. *)
Lemma sweep_step_self (s : Screen.t F) :
  hanging s → apart s → held (sweep_step depth (si, stick) s).1.
Proof.
  intros Hh (anchor & joint & Ha & Hj & Hne).
  destruct (hanging_joint s Hh) as (joint' & Hj' & Hfree).
  assert (joint' = joint) as -> by congruence.
  destruct Hh as (Hwf & Hfo & _ & Hd & Hsi & anchor' & Ha' & Hlk).
  assert (anchor' = anchor) as -> by congruence.
  destruct (calculate_joint_snaps rank depth si stick aletter s anchor joint)
    as [Hjoint Hanchor]; try done; [lia|].
  assert (sweep_step depth (si, stick) s =
          calculate_joint depth si (other aletter) s) as Hstep.
  { unfold sweep_step. destruct aletter; simpl in *; rewrite ?Ha, ?Hj, ?Hlk, ?Hfree; done. }
  rewrite Hstep.
  eexists _, _. split; [done|]. split; [done|].
  simpl. by apply snapped_held_at.
Qed.

Lemma sweep_step_held (e : nat * Stick.t F) (s : Screen.t F) :
  hanging s → Screen.sticks s !! e.1 = Some e.2 → held s →
  held (sweep_step depth e s).1.
Proof.
  intros Hh He Hheld. destruct (decide (e.1 = si)) as [Heq|Hne].
  - destruct e as [k st]. simpl in *. subst k.
    assert (st = stick) as -> by (destruct Hh as (_ & _ & _ & _ & Hsi & _); congruence).
    apply sweep_step_self; [done|]. by apply held_apart.
  - destruct (sweep_step_other e s Hh He Hne) as [Ha Hj].
    destruct Hheld as (anchor & joint & Ha' & Hj' & Hdist).
    exists anchor, joint. by rewrite Ha, Hj.
Qed.

Lemma sweep_step_apart (e : nat * Stick.t F) (s : Screen.t F) :
  hanging s → Screen.sticks s !! e.1 = Some e.2 → apart s →
  apart (sweep_step depth e s).1.
Proof.
  intros Hh He Hap. destruct (decide (e.1 = si)) as [Heq|Hne].
  - destruct e as [k st]. simpl in *. subst k.
    assert (st = stick) as -> by (destruct Hh as (_ & _ & _ & _ & Hsi & _); congruence).
    apply held_apart. by apply sweep_step_self.
  - destruct (sweep_step_other e s Hh He Hne) as [Ha Hj].
    destruct Hap as (anchor & joint & Ha' & Hj' & Hdist).
    exists anchor, joint. by rewrite Ha, Hj.
Qed.

(** One pass: what a step keeps, the pass keeps; and the pass returns. *)
Lemma sweep_keeps (P : Screen.t F → Prop) l (s : Screen.t F) :
  (∀ e s, hanging s → Screen.sticks s !! e.1 = Some e.2 → P s → P (sweep_step depth e s).1) →
  hanging s → (∀ e, e ∈ l → Screen.sticks s !! e.1 = Some e.2) → P s →
  P (sweep depth l s).1 ∧ (sweep depth l s).2 = Returned.
Proof.
  intros Hstep. revert s. induction l as [|e l IH]; intros s Hh Hl HP; [done|].
  simpl. unfold and_then.
  pose proof (sweep_step_frame depth e s) as Hfr.
  pose proof Hh as (Hwf & Hfo & _ & Hd & _).
  rewrite (sweep_step_returns rank depth e s) by (try done; apply Hl; left).
  pose proof Hfr as (Hs & _).
  apply IH; [by eapply hanging_frame| |apply Hstep; [done| |done]].
  - intros e' He'. rewrite Hs. apply Hl. by right.
  - apply Hl. left.
Qed.

Lemma sweep_reaches l (s : Screen.t F) :
  hanging s → (∀ e, e ∈ l → Screen.sticks s !! e.1 = Some e.2) →
  (si, stick) ∈ l → apart s →
  held (sweep depth l s).1.
Proof.
  revert s. induction l as [|e l IH]; intros s Hh Hl Hin Hap.
  { by apply elem_of_nil in Hin. }
  simpl. unfold and_then.
  pose proof (sweep_step_frame depth e s) as Hfr.
  pose proof Hh as (Hwf & Hfo & _ & Hd & _).
  rewrite (sweep_step_returns rank depth e s) by (try done; apply Hl; left).
  pose proof Hfr as (Hs & _).
  assert (∀ e', e' ∈ l → Screen.sticks (sweep_step depth e s).1 !! e'.1 = Some e'.2) as Hl'.
  { intros e' He'. rewrite Hs. apply Hl. by right. }
  apply elem_of_cons in Hin as [<-|Hin].
  - apply (sweep_keeps held); [apply sweep_step_held|by eapply hanging_frame|done|].
    by apply sweep_step_self.
  - apply IH; [by eapply hanging_frame|done|done|].
    apply sweep_step_apart; [done| |done]. apply Hl. left.
Qed.

Lemma sweeps_held n (s : Screen.t F) :
  hanging s → held s → held (sweeps n depth s).1.
Proof.
  revert s. induction n as [|n IH]; intros s Hh Hheld; [done|].
  simpl. unfold and_then.
  destruct (sweep_keeps held (enumerate (Screen.sticks s)) s sweep_step_held Hh
              (enumerate_lookup _) Hheld) as [Hheld' ->].
  apply IH; [|done]. eapply hanging_frame; [apply sweep_frame|done].
Qed.

(** After one sweep or more the free end has been snapped to the stick. *)
Lemma sweeps_reaches n (s : Screen.t F) :
  hanging s → apart s → 1 ≤ n → held (sweeps n depth s).1.
Proof.
  intros Hh Hap Hn. destruct n as [|n]; [lia|].
  simpl. unfold and_then.
  pose proof Hh as (Hwf & Hfo & _ & Hd & Hsi & _).
  rewrite (sweep_returns rank depth _ s) by (try done; apply enumerate_lookup).
  apply sweeps_held.
  - eapply hanging_frame; [apply sweep_frame|done].
  - apply sweep_reaches; [done|apply enumerate_lookup| |done].
    unfold enumerate. by apply (elem_of_lookup_imap_2 pair _ stick si).
Qed.

End Hanging.

(** ** The value of a float, and what rounding costs *)

(** Rocq's primitive floats are the binary64 numbers of IEEE 754, and
    [FloatAxioms] gives each operation as the operation of [SpecFloat] on
    signs, mantissas and exponents.  From those definitions this section
    derives what the accuracy of the solver rests on: an operation on
    numbers whose exact result [x] is at most [2^900] in absolute value gives
    a number, at most [3 eps |x| + 3 eta] from [x]. *)

Section Values.
Import SpecFloat.
#[local] Open Scope R_scope.

(** Two to the power [e]. *)
Definition bpow (e : Z) : R := powerRZ 2 e.

Lemma bpow_pos e : 0 < bpow e.
Proof. apply powerRZ_lt. lra. Qed.

Lemma bpow_add e1 e2 : bpow (e1 + e2) = bpow e1 * bpow e2.
Proof. apply powerRZ_add. lra. Qed.

Lemma bpow_IZR (n : Z) : (0 <= n)%Z → bpow n = IZR (2 ^ n).
Proof.
  intros Hn. unfold bpow. destruct n as [|p|p]; [done| |lia].
  change (2 ^ Z.pos p)%Z with (Z.pow_pos 2 p). by rewrite Zpower_pos_powerRZ.
Qed.

Lemma bpow_le e1 e2 : (e1 <= e2)%Z → bpow e1 <= bpow e2.
Proof.
  intros Hle. replace e2 with (e1 + (e2 - e1))%Z by lia. rewrite bpow_add.
  rewrite <- (Rmult_1_r (bpow e1)) at 1. apply Rmult_le_compat_l; [left; apply bpow_pos|].
  rewrite bpow_IZR by lia. apply IZR_le. pose proof (Z.pow_pos_nonneg 2 (e2 - e1)). lia.
Qed.

Lemma bpow_lt e1 e2 : (e1 < e2)%Z → bpow e1 < bpow e2.
Proof.
  intros Hlt. replace e2 with (e1 + (e2 - e1))%Z by lia. rewrite bpow_add.
  rewrite <- (Rmult_1_r (bpow e1)) at 1. apply Rmult_lt_compat_l; [apply bpow_pos|].
  rewrite bpow_IZR by lia. apply IZR_lt.
  pose proof (Z.pow_gt_1 2 (e2 - e1)). lia.
Qed.

Lemma bpow_0 : bpow 0 = 1.
Proof. done. Qed.

Lemma bpow_opp e : bpow (- e) = / bpow e.
Proof. apply powerRZ_neg'. Qed.

(** The value of a float of the specification; the infinities and NaN have
    none and are given zero. *)
Definition SF2R (x : spec_float) : R :=
  match x with
  | S754_finite s m e => (if s then -1 else 1) * IZR (Z.pos m) * bpow e
  | _ => 0
  end.

Definition SFfinite (x : spec_float) : Prop :=
  match x with
  | S754_finite _ _ _ | S754_zero _ => True
  | _ => False
  end.

(** The number of binary digits. *)
Lemma digits2_pos_bounds (p : positive) :
  (2 ^ (Z.pos (digits2_pos p) - 1) <= Z.pos p < 2 ^ Z.pos (digits2_pos p))%Z.
Proof.
  induction p as [p IH|p IH|]; cbn [digits2_pos].
  - rewrite Pos2Z.inj_succ. replace (Z.succ (Z.pos (digits2_pos p)) - 1)%Z
      with (Z.succ (Z.pos (digits2_pos p) - 1)) by lia.
    rewrite !Z.pow_succ_r by lia. lia.
  - rewrite Pos2Z.inj_succ. replace (Z.succ (Z.pos (digits2_pos p)) - 1)%Z
      with (Z.succ (Z.pos (digits2_pos p) - 1)) by lia.
    rewrite !Z.pow_succ_r by lia. lia.
  - simpl. lia.
Qed.

Lemma Zdigits2_bounds (m : Z) :
  (0 < m)%Z → (2 ^ (Zdigits2 m - 1) <= m < 2 ^ Zdigits2 m)%Z.
Proof. destruct m as [|p|p]; try lia. intros _. apply digits2_pos_bounds. Qed.

Lemma Zdigits2_nonneg (m : Z) : (0 <= Zdigits2 m)%Z.
Proof. destruct m; simpl; lia. Qed.

(** Shifting to the right is division. *)
Lemma shr_1_m (mrs : shr_record) :
  (0 <= shr_m mrs)%Z → shr_m (shr_1 mrs) = (shr_m mrs / 2)%Z.
Proof.
  destruct mrs as [m r s]. cbn [shr_m]. intros Hm.
  destruct m as [|[p|p|]|p]; cbn [shr_1 shr_m]; try lia; try done.
  - apply Z.div_unique_pos with 1%Z; lia.
  - apply Z.div_unique_pos with 0%Z; lia.
Qed.

Lemma iter_shr_1_m (n : positive) (mrs : shr_record) :
  (0 <= shr_m mrs)%Z →
  shr_m (iter_pos shr_1 n mrs) = (shr_m mrs / 2 ^ Z.pos n)%Z.
Proof.
  revert mrs. induction n as [n IH|n IH|]; intros mrs Hm; cbn [iter_pos].
  - assert (0 <= shr_m (shr_1 mrs))%Z as H1.
    { rewrite shr_1_m by done. apply Z.div_pos; lia. }
    assert (0 <= shr_m (iter_pos shr_1 n (shr_1 mrs)))%Z as H2.
    { rewrite IH by done. apply Z.div_pos; [done|]. apply Z.pow_pos_nonneg; lia. }
    rewrite IH, IH, shr_1_m by done.
    rewrite !Z.div_div by (try lia; apply Z.pow_pos_nonneg; lia).
    f_equal. rewrite Pos2Z.inj_xI.
    replace (2 * Z.pos n + 1)%Z with (1 + Z.pos n + Z.pos n)%Z by lia.
    rewrite (Z.pow_add_r 2 (1 + Z.pos n) (Z.pos n)) by lia.
    rewrite (Z.pow_add_r 2 1 (Z.pos n)) by lia. lia.
  - assert (0 <= shr_m (iter_pos shr_1 n mrs))%Z as H2.
    { rewrite IH by done. apply Z.div_pos; [done|]. apply Z.pow_pos_nonneg; lia. }
    rewrite IH, IH by done.
    rewrite !Z.div_div by (try lia; apply Z.pow_pos_nonneg; lia).
    f_equal. rewrite <- Z.pow_add_r by lia. f_equal. lia.
  - rewrite shr_1_m by done. done.
Qed.

Lemma loc_of_shr_record_of_loc m l :
  loc_of_shr_record (shr_record_of_loc m l) = l.
Proof. by destruct l as [|[]]. Qed.

Lemma shr_record_of_loc_m m l : shr_m (shr_record_of_loc m l) = m.
Proof. by destruct l as [|[]]. Qed.

Lemma round_nearest_even_cases m l :
  round_nearest_even m l = m ∨ round_nearest_even m l = (m + 1)%Z.
Proof. destruct l as [|[]]; simpl; auto. destruct (Z.even m); auto. Qed.


(** The unit of relative error and the least positive float. *)
Definition eps : R := bpow (-52).
Definition eta : R := bpow (-1074).

Lemma eps_pos : 0 < eps.
Proof. apply bpow_pos. Qed.

Lemma eta_pos : 0 < eta.
Proof. apply bpow_pos. Qed.

Lemma eps_le_1 : eps <= 1.
Proof. rewrite <- bpow_0. apply bpow_le. lia. Qed.

Lemma fexp_eq (k : Z) :
  fexp FloatOps.prec FloatOps.emax k = Z.max (k - 53) (-1074).
Proof. reflexivity. Qed.

(** What is shifted out is less than one unit of the last place kept. *)
Lemma shift_bracket (m n e : Z) (x : R) :
  (0 <= m)%Z → (0 < n)%Z →
  IZR m * bpow e <= x < (IZR m + 1) * bpow e →
  IZR (m / 2 ^ n) * bpow (e + n) <= x < (IZR (m / 2 ^ n) + 1) * bpow (e + n).
Proof.
  intros Hm Hn [Hlo Hhi].
  assert (0 < 2 ^ n)%Z as Hpow by (apply Z.pow_pos_nonneg; lia).
  pose proof (Z.div_mod m (2 ^ n) ltac:(lia)) as Hdm.
  pose proof (Z.mod_pos_bound m (2 ^ n) Hpow) as Hmod.
  set (q := (m / 2 ^ n)%Z) in *. set (r := (m mod 2 ^ n)%Z) in *.
  rewrite bpow_add, (bpow_IZR n) by lia.
  pose proof (bpow_pos e) as He.
  assert (IZR q * IZR (2 ^ n) <= IZR m) as H1.
  { rewrite <- mult_IZR. apply IZR_le. lia. }
  assert (IZR m + 1 <= (IZR q + 1) * IZR (2 ^ n)) as H2.
  { rewrite <- (plus_IZR m 1), <- (plus_IZR q 1), <- mult_IZR. apply IZR_le. lia. }
  split.
  - apply Rle_trans with (IZR m * bpow e); [|done].
    replace (IZR q * (bpow e * IZR (2 ^ n))) with (IZR q * IZR (2 ^ n) * bpow e) by ring.
    apply Rmult_le_compat_r; lra.
  - apply Rlt_le_trans with ((IZR m + 1) * bpow e); [done|].
    replace ((IZR q + 1) * (bpow e * IZR (2 ^ n)))
      with ((IZR q + 1) * IZR (2 ^ n) * bpow e) by ring.
    apply Rmult_le_compat_r; lra.
Qed.

(** The unit of the last place of a float is at most [eps] times its value,
    or [eta]. *)
Lemma fexp_bound (m e : Z) :
  (0 <= m)%Z →
  (e < fexp FloatOps.prec FloatOps.emax (Zdigits2 m + e))%Z →
  bpow (fexp FloatOps.prec FloatOps.emax (Zdigits2 m + e)) <= eps * (IZR m * bpow e) + eta.
Proof.
  intros Hm. rewrite fexp_eq. intros Hshift. pose proof (bpow_pos e) as He.
  pose proof eps_pos as Hu. pose proof eta_pos as Heta.
  assert (0 <= IZR m) as Hm' by (by apply IZR_le).
  assert (0 <= eps * (IZR m * bpow e)) as Hnn.
  { apply Rmult_le_pos; [lra|]. apply Rmult_le_pos; lra. }
  destruct (Z.max_spec (Zdigits2 m + e - 53) (-1074)) as [[Hlt ->]|[Hle ->]].
  { unfold eta. lra. }
  destruct (Z.eq_dec m 0%Z) as [->|Hne].
  { change (Zdigits2 0) with 0%Z in *. lia. }
  destruct (Zdigits2_bounds m ltac:(lia)) as [Hd _].
  pose proof (Zdigits2_nonneg m) as Hd0.
  assert (1 <= Zdigits2 m)%Z as Hd1.
  { destruct m; simpl in *; lia. }
  replace (Zdigits2 m + e - 53)%Z with (-52 + ((Zdigits2 m - 1) + e))%Z by lia.
  rewrite !bpow_add. fold eps. rewrite (bpow_IZR (Zdigits2 m - 1)) by lia.
  apply Rle_trans with (eps * (IZR m * bpow e)); [|lra].
  apply Rmult_le_compat_l; [lra|]. apply Rmult_le_compat_r; [lra|]. by apply IZR_le.
Qed.

(** The first half of rounding: shift, if the mantissa is too long. *)
Lemma shr_fexp_spec (m e : Z) (l : location) :
  (0 <= m)%Z →
  let n := (fexp FloatOps.prec FloatOps.emax (Zdigits2 m + e) - e)%Z in
  ((0 < n)%Z ∧
   (shr_fexp FloatOps.prec FloatOps.emax m e l).2 = (e + n)%Z ∧
   shr_m (shr_fexp FloatOps.prec FloatOps.emax m e l).1 = (m / 2 ^ n)%Z) ∨
  ((n <= 0)%Z ∧
   shr_fexp FloatOps.prec FloatOps.emax m e l = (shr_record_of_loc m l, e)).
Proof.
  intros Hm n. unfold shr_fexp. fold n. destruct n as [|p|p] eqn:Hn.
  - right. split; [lia|done].
  - left. split; [lia|]. split; [done|]. cbn [shr fst].
    rewrite iter_shr_1_m; by rewrite shr_record_of_loc_m.
  - right. split; [lia|done].
Qed.

(** Shift and cut: the mantissa that is left, with its exponent, is the
    value from below, within the unit of the last place. *)
Lemma shr_fexp_cut (m e : Z) (l : location) (x : R) :
  (0 <= m)%Z →
  IZR m * bpow e <= x < (IZR m + 1) * bpow e →
  let t := shr_m (shr_fexp FloatOps.prec FloatOps.emax m e l).1 in
  let e' := (shr_fexp FloatOps.prec FloatOps.emax m e l).2 in
  (0 <= t)%Z ∧
  ((IZR t * bpow e' <= x < (IZR t + 1) * bpow e' ∧
    bpow e' <= eps * (IZR m * bpow e) + eta) ∨
   shr_fexp FloatOps.prec FloatOps.emax m e l = (shr_record_of_loc m l, e)).
Proof.
  intros Hm Hx t e'.
  destruct (shr_fexp_spec m e l Hm) as [(Hn & He' & Ht)|[Hn Heq]].
  - unfold t, e'. rewrite He', Ht. split.
    { apply Z.div_pos; [done|]. apply Z.pow_pos_nonneg; lia. }
    left. split; [by apply shift_bracket|].
    replace (e + (fexp FloatOps.prec FloatOps.emax (Zdigits2 m + e) - e))%Z
      with (fexp FloatOps.prec FloatOps.emax (Zdigits2 m + e)) by lia.
    apply fexp_bound; [done|lia].
  - unfold t. rewrite Heq. cbn [fst]. rewrite shr_record_of_loc_m. split; [done|].
    by right.
Qed.


Lemma Rabs_le_inv (a b : R) : Rabs a <= b → - b <= a <= b.
Proof. unfold Rabs. destruct (Rcase_abs a); lra. Qed.

(** Rounding: a mantissa [m] with exponent [e] that is the value [x] from
    below, within one unit [bpow e], comes out as a float at most
    [3 eps x + 3 eta] from [x], when [x] is the mantissa exactly or one unit is
    small enough. *)
Lemma binary_round_aux_spec (sx : bool) (m e : Z) (l : location) (x : R) :
  (0 <= m)%Z →
  IZR m * bpow e <= x < (IZR m + 1) * bpow e →
  (l = loc_Exact → x = IZR m * bpow e) →
  (l ≠ loc_Exact → bpow e <= eps * x + eta) →
  x <= bpow 900 →
  SFfinite (binary_round_aux FloatOps.prec FloatOps.emax sx m e l) ∧
  Rabs (SF2R (binary_round_aux FloatOps.prec FloatOps.emax sx m e l) -
        (if sx then -1 else 1) * x) <= 3 * eps * x + 3 * eta.
Proof.
  intros Hm Hx Hexact Hinexact Hbig.
  pose proof eps_pos as Hu. pose proof eps_le_1 as Hu1. pose proof eta_pos as Heta.
  pose proof (bpow_pos e) as He.
  assert (0 <= IZR m) as Hm' by (by apply IZR_le).
  assert (0 <= IZR m * bpow e) as Hme by (apply Rmult_le_pos; lra).
  assert (0 <= x) as Hx0 by lra.
  assert (0 <= eps * x) as Hux by (apply Rmult_le_pos; lra).
  unfold binary_round_aux.
  pose proof (shr_fexp_cut m e l x Hm Hx) as Hcut1.
  destruct (shr_fexp FloatOps.prec FloatOps.emax m e l) as [mrs1 e1] eqn:H1.
  cbn [fst snd] in Hcut1.
  set (M := round_nearest_even (shr_m mrs1) (loc_of_shr_record mrs1)).
  assert ((0 <= M)%Z ∧ Rabs (IZR M * bpow e1 - x) <= eps * x + eta) as [HM HMx].
  { pose proof (bpow_pos e1) as He1.
    destruct Hcut1 as [Ht [[[Hlo Hhi] Hb]|Heq]].
    - assert (bpow e1 <= eps * x + eta) as Hb'.
      { apply Rle_trans with (eps * (IZR m * bpow e) + eta); [done|].
        apply Rplus_le_compat_r. apply Rmult_le_compat_l; lra. }
      destruct (round_nearest_even_cases (shr_m mrs1) (loc_of_shr_record mrs1))
        as [HMeq|HMeq]; unfold M; rewrite HMeq.
      + split; [done|]. apply Rabs_le. lra.
      + split; [lia|]. rewrite plus_IZR. apply Rabs_le. lra.
    - injection Heq as -> ->. unfold M.
      rewrite loc_of_shr_record_of_loc, shr_record_of_loc_m.
      destruct (round_nearest_even_cases m l) as [HMeq|HMeq].
      + rewrite HMeq. split; [done|].
        destruct l as [|c].
        * specialize (Hexact eq_refl). apply Rabs_le. lra.
        * specialize (Hinexact ltac:(done)). apply Rabs_le. lra.
      + rewrite HMeq. split; [lia|].
        destruct l as [|c]; [simpl in HMeq; lia|].
        specialize (Hinexact ltac:(done)). rewrite plus_IZR. apply Rabs_le. lra. }
  assert (0 <= IZR M) as HM' by (by apply IZR_le).
  pose proof (bpow_pos e1) as He1.
  assert (0 <= IZR M * bpow e1) as HMe by (apply Rmult_le_pos; lra).
  apply Rabs_le_inv in HMx.
  assert (IZR M * bpow e1 <= IZR M * bpow e1 < (IZR M + 1) * bpow e1) as Hbr2 by lra.
  pose proof (shr_fexp_cut M e1 loc_Exact (IZR M * bpow e1) HM Hbr2) as Hcut2.
  destruct (shr_fexp FloatOps.prec FloatOps.emax M e1 loc_Exact) as [mrs2 e2] eqn:H2.
  cbn [fst snd] in Hcut2.
  set (v := IZR (shr_m mrs2) * bpow e2).
  assert ((0 <= shr_m mrs2)%Z ∧ Rabs (v - x) <= 3 * eps * x + 3 * eta) as [Ht2 Hvx].
  { destruct Hcut2 as [Ht [[[Hlo Hhi] Hb]|Heq]].
    - split; [done|]. pose proof (bpow_pos e2) as He2.
      assert (eps * (IZR M * bpow e1) <= eps * (x + (eps * x + eta))) as Hprod.
      { apply Rmult_le_compat_l; lra. }
      assert (eps * (eps * x) <= eps * x) as Huu.
      { rewrite <- (Rmult_1_l (eps * x)) at 2. apply Rmult_le_compat_r; lra. }
      assert (eps * eta <= eta) as Hue.
      { rewrite <- (Rmult_1_l eta) at 2. apply Rmult_le_compat_r; lra. }
      apply Rabs_le. unfold v. lra.
    - injection Heq as -> ->. unfold v. cbn [shr_record_of_loc shr_m]. split; [done|].
      apply Rabs_le. lra. }
  apply Rabs_le_inv in Hvx. unfold v in Hvx.
  destruct (shr_m mrs2) as [|mm|mm] eqn:Hmm; [| |lia].
  - cbn [SFfinite SF2R]. split; [done|]. apply Rabs_le.
    rewrite Rmult_0_l in Hvx. destruct sx; lra.
  - assert (e2 <= 971)%Z as He2.
    { destruct (Z_le_gt_dec e2 971) as [|Hgt]; [done|]. exfalso.
      assert (bpow 972 <= IZR (Z.pos mm) * bpow e2) as Hlow.
      { apply Rle_trans with (1 * bpow e2).
        - rewrite Rmult_1_l. apply bpow_le. lia.
        - apply Rmult_le_compat_r; [left; apply bpow_pos|]. apply IZR_le. lia. }
      assert (4 * bpow 900 + 3 < bpow 972) as Hgap.
      { rewrite !bpow_IZR by lia. rewrite <- (mult_IZR 4), <- plus_IZR.
        apply IZR_lt. vm_compute. reflexivity. }
      assert (3 * eps * x <= 3 * x) as H3.
      { replace (3 * eps * x) with (eps * (3 * x)) by ring.
        rewrite <- (Rmult_1_l (3 * x)) at 2. apply Rmult_le_compat_r; lra. }
      assert (eta <= 1) as Heta1.
      { rewrite <- bpow_0. apply bpow_le. lia. }
      lra. }
    replace (Z.leb e2 (FloatOps.emax - FloatOps.prec)) with true
      by (symmetry; apply Z.leb_le; unfold FloatOps.emax, FloatOps.prec; lia).
    cbn [SFfinite SF2R]. split; [done|]. apply Rabs_le. destruct sx; lra.
Qed.


Definition sgn (s : bool) : R := if s then -1 else 1.

Lemma sgn_xorb s1 s2 : sgn (xorb s1 s2) = sgn s1 * sgn s2.
Proof. destruct s1, s2; simpl; lra. Qed.

Lemma SF2R_finite s m e : SF2R (S754_finite s m e) = sgn s * (IZR (Z.pos m) * bpow e).
Proof. unfold SF2R, sgn. destruct s; ring. Qed.

Lemma mantissa_pos m e : 0 < IZR (Z.pos m) * bpow e.
Proof. apply Rmult_lt_0_compat; [by apply IZR_lt|apply bpow_pos]. Qed.

Lemma Rabs_sgn s (x : R) : 0 <= x → Rabs (sgn s * x) = x.
Proof.
  intros Hx. destruct s; simpl.
  - replace (-1 * x) with (- x) by ring. rewrite Rabs_Ropp. by apply Rabs_pos_eq.
  - rewrite Rmult_1_l. by apply Rabs_pos_eq.
Qed.

(** What the error of an operation is allowed to be. *)
Definition within (computed exact : R) : Prop :=
  Rabs (computed - exact) <= 3 * eps * Rabs exact + 3 * eta.

Lemma within_refl (x : R) : within x x.
Proof.
  unfold within. replace (x - x) with 0 by ring. rewrite Rabs_R0.
  pose proof eps_pos. pose proof eta_pos. pose proof (Rabs_pos x).
  assert (0 <= 3 * eps * Rabs x) by (apply Rmult_le_pos; lra). lra.
Qed.

(** The product. *)
Lemma SFmul_spec (x y : spec_float) :
  SFfinite x → SFfinite y → Rabs (SF2R x * SF2R y) <= bpow 900 →
  SFfinite (SFmul FloatOps.prec FloatOps.emax x y) ∧
  within (SF2R (SFmul FloatOps.prec FloatOps.emax x y)) (SF2R x * SF2R y).
Proof.
  intros Hx Hy Hbig.
  destruct x as [sx| | |sx mx ex], y as [sy| | |sy my ey]; try done;
    try (split; [done|]; cbn [SFmul SF2R]; rewrite ?Rmult_0_l, ?Rmult_0_r;
         apply within_refl).
  cbn [SFmul]. rewrite !SF2R_finite in *.
  set (P := IZR (Z.pos (mx * my)) * bpow (ex + ey)).
  assert (IZR (Z.pos mx) * bpow ex * (IZR (Z.pos my) * bpow ey) = P) as HP.
  { unfold P. rewrite Pos2Z.inj_mul, mult_IZR, bpow_add. ring. }
  assert (0 < P) as HPpos by apply mantissa_pos.
  replace (sgn sx * (IZR (Z.pos mx) * bpow ex) * (sgn sy * (IZR (Z.pos my) * bpow ey)))
    with (sgn (xorb sx sy) * P) in * by (rewrite sgn_xorb, <- HP; ring).
  rewrite Rabs_sgn in Hbig by lra.
  destruct (binary_round_aux_spec (xorb sx sy) (Z.pos (mx * my)) (ex + ey) loc_Exact P)
    as [Hfin Herr]; try done.
  - pose proof (bpow_pos (ex + ey)). unfold P. lra.
  - split; [done|]. unfold within. rewrite Rabs_sgn by lra. exact Herr.
Qed.

(** Aligning a mantissa to a smaller exponent keeps the value. *)
Lemma iter_xO (m d : positive) : Z.pos (Pos.iter xO m d) = (Z.pos m * 2 ^ Z.pos d)%Z.
Proof.
  induction d as [|d IH] using Pos.peano_ind.
  - simpl. lia.
  - rewrite Pos.iter_succ, Pos2Z.inj_xO, IH, Pos2Z.inj_succ, Z.pow_succ_r by lia. lia.
Qed.

Lemma shl_align_value (m : positive) (e e' : Z) :
  IZR (Z.pos (shl_align m e e').1) * bpow (shl_align m e e').2 = IZR (Z.pos m) * bpow e.
Proof.
  unfold shl_align. destruct (e' - e)%Z as [|d|d] eqn:Hd; cbn [fst snd]; try done.
  rewrite iter_xO, mult_IZR, <- bpow_IZR by lia.
  rewrite Rmult_assoc, <- bpow_add. f_equal. f_equal. lia.
Qed.

Lemma shl_align_exponent (m : positive) (e e' : Z) :
  (e' <= e)%Z → (shl_align m e e').2 = e'.
Proof.
  intros Hle. unfold shl_align. destruct (e' - e)%Z as [|d|d] eqn:Hd; cbn [snd]; lia.
Qed.

Lemma binary_round_spec (s : bool) (m : positive) (e : Z) :
  IZR (Z.pos m) * bpow e <= bpow 900 →
  SFfinite (binary_round FloatOps.prec FloatOps.emax s m e) ∧
  within (SF2R (binary_round FloatOps.prec FloatOps.emax s m e))
    (sgn s * (IZR (Z.pos m) * bpow e)).
Proof.
  intros Hbig. unfold binary_round.
  pose proof (shl_align_value m e
                (fexp FloatOps.prec FloatOps.emax (Z.pos (digits2_pos m) + e))) as Hv.
  destruct (shl_align m e _) as [mz ez]. cbn [fst snd] in Hv.
  pose proof (mantissa_pos m e) as Hpos.
  destruct (binary_round_aux_spec s (Z.pos mz) ez loc_Exact (IZR (Z.pos m) * bpow e))
    as [Hfin Herr]; try done.
  - pose proof (bpow_pos ez). rewrite <- Hv. lra.
  - split; [done|]. unfold within. rewrite Rabs_sgn by lra. exact Herr.
Qed.

Lemma binary_normalize_spec (m e : Z) (szero : bool) :
  Rabs (IZR m * bpow e) <= bpow 900 →
  SFfinite (binary_normalize FloatOps.prec FloatOps.emax m e szero) ∧
  within (SF2R (binary_normalize FloatOps.prec FloatOps.emax m e szero)) (IZR m * bpow e).
Proof.
  intros Hbig. destruct m as [|p|p]; cbn [binary_normalize].
  - split; [done|]. cbn [SF2R]. rewrite Rmult_0_l. apply within_refl.
  - pose proof (mantissa_pos p e). rewrite Rabs_pos_eq in Hbig by lra.
    destruct (binary_round_spec false p e Hbig) as [Hfin Herr]. split; [done|].
    unfold sgn in Herr. by rewrite Rmult_1_l in Herr.
  - pose proof (mantissa_pos p e).
    replace (IZR (Z.neg p) * bpow e) with (- (IZR (Z.pos p) * bpow e)) in *
      by (change (Z.neg p) with (- Z.pos p)%Z; rewrite opp_IZR; ring).
    rewrite Rabs_Ropp, Rabs_pos_eq in Hbig by lra.
    destruct (binary_round_spec true p e Hbig) as [Hfin Herr]. split; [done|].
    unfold sgn in Herr.
    by replace (-1 * (IZR (Z.pos p) * bpow e)) with (- (IZR (Z.pos p) * bpow e)) in Herr
      by ring.
Qed.

Lemma cond_Zopp_IZR (s : bool) (m : Z) : IZR (cond_Zopp s m) = sgn s * IZR m.
Proof. destruct s; simpl; [rewrite opp_IZR|]; ring. Qed.

(** Both mantissas on the smaller exponent. *)
Lemma aligned_value (s : bool) (m : positive) (e ez : Z) :
  (ez <= e)%Z →
  IZR (cond_Zopp s (Z.pos (shl_align m e ez).1)) * bpow ez = SF2R (S754_finite s m e).
Proof.
  intros Hle. rewrite cond_Zopp_IZR, SF2R_finite, <- (shl_align_value m e ez).
  rewrite (shl_align_exponent m e ez Hle). ring.
Qed.

(** The sum and the difference. *)
Lemma SFadd_spec (x y : spec_float) :
  SFfinite x → SFfinite y → Rabs (SF2R x + SF2R y) <= bpow 900 →
  SFfinite (SFadd FloatOps.prec FloatOps.emax x y) ∧
  within (SF2R (SFadd FloatOps.prec FloatOps.emax x y)) (SF2R x + SF2R y).
Proof.
  intros Hx Hy Hbig.
  destruct x as [sx| | |sx mx ex], y as [sy| | |sy my ey]; try done.
  - split; [by destruct sx, sy|]. replace (SF2R (SFadd _ _ _ _)) with 0
      by (by destruct sx, sy). cbn [SF2R]. rewrite Rplus_0_l. apply within_refl.
  - split; [done|]. cbn [SFadd SF2R]. rewrite Rplus_0_l. apply within_refl.
  - split; [done|]. cbn [SFadd SF2R]. rewrite Rplus_0_r. apply within_refl.
  - cbn [SFadd]. set (ez := Z.min ex ey).
    rewrite <- (aligned_value sx mx ex ez), <- (aligned_value sy my ey ez) in * by lia.
    rewrite <- Rmult_plus_distr_r, <- plus_IZR in *.
    by apply binary_normalize_spec.
Qed.

Lemma SFsub_spec (x y : spec_float) :
  SFfinite x → SFfinite y → Rabs (SF2R x - SF2R y) <= bpow 900 →
  SFfinite (SFsub FloatOps.prec FloatOps.emax x y) ∧
  within (SF2R (SFsub FloatOps.prec FloatOps.emax x y)) (SF2R x - SF2R y).
Proof.
  intros Hx Hy Hbig.
  destruct x as [sx| | |sx mx ex], y as [sy| | |sy my ey]; try done.
  - split; [by destruct sx, sy|]. replace (SF2R (SFsub _ _ _ _)) with 0
      by (by destruct sx, sy). cbn [SF2R]. rewrite Rminus_0_r. apply within_refl.
  - split; [done|]. cbn [SFsub]. rewrite !SF2R_finite. cbn [SF2R].
    replace (0 - sgn sy * (IZR (Z.pos my) * bpow ey))
      with (sgn (negb sy) * (IZR (Z.pos my) * bpow ey)) by (destruct sy; simpl; ring).
    apply within_refl.
  - split; [done|]. cbn [SFsub SF2R]. rewrite Rminus_0_r. apply within_refl.
  - cbn [SFsub]. set (ez := Z.min ex ey).
    rewrite <- (aligned_value sx mx ex ez), <- (aligned_value sy my ey ez) in * by lia.
    rewrite <- Rmult_minus_distr_r, <- minus_IZR in *.
    by apply binary_normalize_spec.
Qed.


(** The quotient. *)
Lemma new_location_exact (n k : Z) : new_location n k = loc_Exact → k = 0%Z.
Proof.
  unfold new_location, new_location_even, new_location_odd.
  destruct (Z.even n), (Z.eqb_spec k 0); done.
Qed.

Lemma SFdiv_core_binary_spec (mx my : positive) (ex ey : Z) :
  let x := (IZR (Z.pos mx) * bpow ex) / (IZR (Z.pos my) * bpow ey) in
  let c := SFdiv_core_binary FloatOps.prec FloatOps.emax (Z.pos mx) ex (Z.pos my) ey in
  (0 <= c.1.1)%Z ∧
  IZR c.1.1 * bpow c.1.2 <= x < (IZR c.1.1 + 1) * bpow c.1.2 ∧
  (c.2 = loc_Exact → x = IZR c.1.1 * bpow c.1.2) ∧
  bpow c.1.2 <= eps * x + eta.
Proof.
  intros x c. unfold SFdiv_core_binary in c.
  set (d1 := Zdigits2 (Z.pos mx)) in *. set (d2 := Zdigits2 (Z.pos my)) in *.
  set (e' := Z.min (fexp FloatOps.prec FloatOps.emax (d1 + ex - (d2 + ey))) (ex - ey)) in *.
  set (s := (ex - ey - e')%Z) in *.
  assert (0 <= s)%Z as Hs by (unfold s, e'; lia).
  set (m' := match s with
             | 0%Z => Z.pos mx
             | Z.pos _ => Z.shiftl (Z.pos mx) s
             | Z.neg _ => 0%Z
             end) in *.
  assert (m' = (Z.pos mx * 2 ^ s)%Z) as Hm'.
  { unfold m'. destruct s as [|p|p] eqn:Hsp; [simpl; lia| |lia].
    by rewrite Z.shiftl_mul_pow2. }
  pose proof (Z_div_mod m' (Z.pos my) ltac:(lia)) as Hdiv.
  unfold c. clear c. destruct (Z.div_eucl m' (Z.pos my)) as [q r]. cbn [fst snd].
  destruct Hdiv as [Heq Hr].
  pose proof (bpow_pos ex) as Hex. pose proof (bpow_pos ey) as Hey.
  pose proof (bpow_pos e') as He'.
  assert (0 < IZR (Z.pos mx)) as Hmx by (by apply IZR_lt).
  assert (0 < IZR (Z.pos my)) as Hmy by (by apply IZR_lt).
  assert (0 < 2 ^ s)%Z as Hpow by (apply Z.pow_pos_nonneg; lia).
  assert (0 <= q)%Z as Hq by nia.
  assert (x = (IZR q + IZR r / IZR (Z.pos my)) * bpow e') as Hx.
  { unfold x. replace ex with (s + e' + ey)%Z by (unfold s; lia).
    rewrite !bpow_add, (bpow_IZR s) by done.
    assert (IZR (Z.pos mx) * IZR (2 ^ s) = IZR (Z.pos my) * IZR q + IZR r) as Hreal.
    { rewrite <- !mult_IZR, <- plus_IZR. f_equal. lia. }
    field_simplify; [|lra|lra].
    replace (IZR (Z.pos mx) * IZR (2 ^ s) * bpow e')
      with ((IZR (Z.pos my) * IZR q + IZR r) * bpow e') by (rewrite <- Hreal; ring).
    field. lra. }
  assert (0 <= IZR r / IZR (Z.pos my) < 1) as Hfrac.
  { assert (0 <= IZR r) by (apply IZR_le; lia).
    assert (IZR r < IZR (Z.pos my)) by (apply IZR_lt; lia).
    split.
    - apply Rmult_le_pos; [done|]. left. by apply Rinv_0_lt_compat.
    - apply Rmult_lt_reg_r with (IZR (Z.pos my)); [done|]. field_simplify; lra. }
  split; [done|]. split; [|split].
  - rewrite Hx. split.
    + apply Rmult_le_compat_r; lra.
    + apply Rmult_lt_compat_r; lra.
  - intros Hl%new_location_exact. subst r. rewrite Hx.
    unfold Rdiv. rewrite Rmult_0_l. ring.
  - assert (0 <= x) as Hx0.
    { rewrite Hx. apply Rmult_le_pos; [|lra]. apply IZR_le in Hq. lra. }
    pose proof eps_pos as Hu. pose proof eta_pos as Heta.
    assert (0 <= eps * x) as Hux by (apply Rmult_le_pos; lra).
    assert (e' <= fexp FloatOps.prec FloatOps.emax (d1 + ex - (d2 + ey)))%Z as Hle
      by (unfold e'; lia).
    rewrite fexp_eq in Hle.
    destruct (Z.max_spec (d1 + ex - (d2 + ey) - 53) (-1074)) as [[_ Hmax]|[_ Hmax]];
      rewrite Hmax in Hle.
    { apply Rle_trans with eta; [by apply bpow_le|lra]. }
    apply Rle_trans with (eps * x); [|lra].
    apply Rle_trans with (bpow (d1 + ex - (d2 + ey) - 53)); [by apply bpow_le|].
    replace (d1 + ex - (d2 + ey) - 53)%Z with (-52 + ((d1 - 1 + ex) + - (d2 + ey)))%Z by lia.
    rewrite bpow_add. fold eps. apply Rmult_le_compat_l; [lra|].
    rewrite bpow_add, bpow_opp. unfold x, Rdiv.
    destruct (Zdigits2_bounds (Z.pos mx) ltac:(lia)) as [Hd1 _].
    destruct (Zdigits2_bounds (Z.pos my) ltac:(lia)) as [_ Hd2].
    fold d1 in Hd1. fold d2 in Hd2.
    assert (1 <= d1)%Z as Hd1' by (unfold d1; simpl; lia).
    assert (0 <= d2)%Z as Hd2' by apply Zdigits2_nonneg.
    assert (bpow (d1 - 1 + ex) <= IZR (Z.pos mx) * bpow ex) as Hnum.
    { rewrite bpow_add, (bpow_IZR (d1 - 1)) by lia.
      apply Rmult_le_compat_r; [lra|]. by apply IZR_le. }
    assert (IZR (Z.pos my) * bpow ey <= bpow (d2 + ey)) as Hden.
    { rewrite bpow_add, (bpow_IZR d2) by lia. apply Rmult_le_compat_r; [lra|].
      apply IZR_le. lia. }
    assert (0 < IZR (Z.pos my) * bpow ey) as Hden0 by (by apply Rmult_lt_0_compat).
    pose proof (bpow_pos (d1 - 1 + ex)) as Hn0.
    apply Rmult_le_compat; [lra| |done|].
    + left. apply Rinv_0_lt_compat. apply bpow_pos.
    + by apply Rinv_le_contravar.
Qed.

Lemma SFdiv_spec (x y : spec_float) :
  SFfinite x → SFfinite y → SF2R y ≠ 0 → Rabs (SF2R x / SF2R y) <= bpow 900 →
  SFfinite (SFdiv FloatOps.prec FloatOps.emax x y) ∧
  within (SF2R (SFdiv FloatOps.prec FloatOps.emax x y)) (SF2R x / SF2R y).
Proof.
  intros Hx Hy Hy0 Hbig.
  destruct x as [sx| | |sx mx ex], y as [sy| | |sy my ey]; try done.
  - split; [done|]. cbn [SFdiv SF2R]. unfold Rdiv. rewrite Rmult_0_l. apply within_refl.
  - cbn [SFdiv].
    pose proof (SFdiv_core_binary_spec mx my ex ey) as Hcore. cbn zeta in Hcore.
    destruct (SFdiv_core_binary _ _ _ _ _ _) as [[mz ez] lz]. cbn [fst snd] in Hcore.
    destruct Hcore as (Hq & Hbr & Hexact & Hb).
    pose proof (mantissa_pos mx ex) as HX. pose proof (mantissa_pos my ey) as HY.
    set (q := IZR (Z.pos mx) * bpow ex / (IZR (Z.pos my) * bpow ey)) in *.
    assert (0 < q) as Hqpos.
    { unfold q. apply Rmult_lt_0_compat; [done|]. by apply Rinv_0_lt_compat. }
    rewrite !SF2R_finite in *.
    pose proof (bpow_pos ey) as Hey.
    assert (0 < IZR (Z.pos my)) as Hmy by (by apply IZR_lt).
    replace (sgn sx * (IZR (Z.pos mx) * bpow ex) / (sgn sy * (IZR (Z.pos my) * bpow ey)))
      with (sgn (xorb sx sy) * q) in *
      by (rewrite sgn_xorb; unfold q; destruct sx, sy; simpl; field; repeat split; lra).
    rewrite Rabs_sgn in Hbig by lra.
    destruct (binary_round_aux_spec (xorb sx sy) mz ez lz q) as [Hfin Herr]; try done.
    split; [done|]. unfold within. rewrite Rabs_sgn by lra. exact Herr.
Qed.

(** The square root. *)
Lemma SFsqrt_core_binary_spec (m : positive) (e : Z) :
  let x := sqrt (IZR (Z.pos m) * bpow e) in
  let c := SFsqrt_core_binary FloatOps.prec FloatOps.emax (Z.pos m) e in
  (0 <= c.1.1)%Z ∧
  IZR c.1.1 * bpow c.1.2 <= x < (IZR c.1.1 + 1) * bpow c.1.2 ∧
  (c.2 = loc_Exact → x = IZR c.1.1 * bpow c.1.2) ∧
  bpow c.1.2 <= eps * x + eta.
Proof.
  intros x c. unfold SFsqrt_core_binary in c.
  set (d := Zdigits2 (Z.pos m)) in *.
  set (e' := Z.min (fexp FloatOps.prec FloatOps.emax (Z.div2 (d + e + 1))) (Z.div2 e)) in *.
  set (s := (e - 2 * e')%Z) in *.
  assert (0 <= s)%Z as Hs.
  { unfold s, e'. pose proof (Z.div2_odd e). destruct (Z.odd e); simpl in *; lia. }
  set (m' := match s with
             | 0%Z => Z.pos m
             | Z.pos _ => Z.shiftl (Z.pos m) s
             | Z.neg _ => 0%Z
             end) in *.
  assert (m' = (Z.pos m * 2 ^ s)%Z) as Hm'.
  { unfold m'. destruct s as [|p|p] eqn:Hsp; [simpl; lia| |lia].
    by rewrite Z.shiftl_mul_pow2. }
  assert (0 < 2 ^ s)%Z as Hpow by (apply Z.pow_pos_nonneg; lia).
  assert (0 <= m')%Z as Hm'0 by lia.
  pose proof (Z.sqrtrem_spec m' Hm'0) as Hsq.
  unfold c. clear c. destruct (Z.sqrtrem m') as [q r]. cbn [fst snd].
  destruct Hsq as [Heq Hr].
  assert (0 <= q)%Z as Hq by lia.
  pose proof (bpow_pos e') as He'.
  assert (0 <= IZR q) as Hq' by (by apply IZR_le).
  assert (0 <= IZR m') as Hm'R by (by apply IZR_le).
  assert (x = sqrt (IZR m') * bpow e') as Hx.
  { unfold x. replace e with (s + (e' + e'))%Z by (unfold s; lia).
    rewrite !bpow_add, (bpow_IZR s) by done.
    replace (IZR (Z.pos m) * (IZR (2 ^ s) * (bpow e' * bpow e')))
      with (IZR m' * (bpow e' * bpow e')) by (rewrite Hm', mult_IZR; ring).
    rewrite sqrt_mult_alt by done. f_equal. apply sqrt_square. lra. }
  assert (IZR q <= sqrt (IZR m') < IZR q + 1) as Hroot.
  { split.
    - rewrite <- (sqrt_square (IZR q)) at 1 by done. apply sqrt_le_1_alt.
      rewrite <- mult_IZR. apply IZR_le. lia.
    - rewrite <- (sqrt_square (IZR q + 1)) by lra. apply sqrt_lt_1_alt.
      split; [done|]. rewrite <- (plus_IZR q 1), <- mult_IZR. apply IZR_lt. lia. }
  split; [done|]. split; [|split].
  - rewrite Hx. split.
    + apply Rmult_le_compat_r; lra.
    + apply Rmult_lt_compat_r; lra.
  - intros Hl. assert (r = 0)%Z as ->.
    { destruct (Z.eqb_spec r 0); done. }
    rewrite Hx. f_equal. replace m' with (q * q)%Z by lia.
    rewrite mult_IZR. by apply sqrt_square.
  - assert (0 <= x) as Hx0 by apply sqrt_pos.
    pose proof eps_pos as Hu. pose proof eta_pos as Heta.
    assert (0 <= eps * x) as Hux by (apply Rmult_le_pos; lra).
    assert (e' <= fexp FloatOps.prec FloatOps.emax (Z.div2 (d + e + 1)))%Z as Hle
      by (unfold e'; lia).
    rewrite fexp_eq in Hle. set (k := Z.div2 (d + e + 1)) in *.
    destruct (Z.max_spec (k - 53) (-1074)) as [[_ Hmax]|[_ Hmax]]; rewrite Hmax in Hle.
    { apply Rle_trans with eta; [by apply bpow_le|lra]. }
    apply Rle_trans with (eps * x); [|lra].
    apply Rle_trans with (bpow (k - 53)); [by apply bpow_le|].
    replace (k - 53)%Z with (-52 + (k - 1))%Z by lia.
    rewrite bpow_add. fold eps. apply Rmult_le_compat_l; [lra|].
    pose proof (bpow_pos (k - 1)) as Hk.
    rewrite <- (sqrt_square (bpow (k - 1))) by lra. unfold x. apply sqrt_le_1_alt.
    rewrite <- bpow_add.
    destruct (Zdigits2_bounds (Z.pos m) ltac:(lia)) as [Hd _]. fold d in Hd.
    assert (1 <= d)%Z as Hd' by (unfold d; simpl; lia).
    apply Rle_trans with (bpow (d - 1 + e)).
    + apply bpow_le. unfold k. pose proof (Z.div2_odd (d + e + 1)).
      destruct (Z.odd (d + e + 1)); simpl in *; lia.
    + rewrite bpow_add, (bpow_IZR (d - 1)) by lia.
      apply Rmult_le_compat_r; [left; apply bpow_pos|]. by apply IZR_le.
Qed.

Lemma sqrt_le_bpow (x : R) : 0 <= x → x <= bpow 900 → sqrt x <= bpow 900.
Proof.
  intros Hx Hbig. assert (1 <= bpow 900) as H1.
  { rewrite <- bpow_0. apply bpow_le. lia. }
  destruct (Rle_or_lt x 1) as [Hle|Hgt].
  - apply Rle_trans with 1; [|done]. rewrite <- sqrt_1. by apply sqrt_le_1_alt.
  - left. apply Rlt_le_trans with x; [by apply sqrt_less|done].
Qed.

Lemma SFsqrt_spec (x : spec_float) :
  SFfinite x → 0 <= SF2R x → SF2R x <= bpow 900 →
  SFfinite (SFsqrt FloatOps.prec FloatOps.emax x) ∧
  within (SF2R (SFsqrt FloatOps.prec FloatOps.emax x)) (sqrt (SF2R x)).
Proof.
  intros Hx Hx0 Hbig. destruct x as [sx| | |[] mx ex]; try done.
  - split; [done|]. cbn [SFsqrt SF2R]. rewrite sqrt_0. apply within_refl.
  - rewrite SF2R_finite in Hx0. pose proof (mantissa_pos mx ex). simpl in Hx0. lra.
  - cbn [SFsqrt]. rewrite SF2R_finite in *. unfold sgn in *. rewrite Rmult_1_l in *.
    pose proof (SFsqrt_core_binary_spec mx ex) as Hcore. cbn zeta in Hcore.
    destruct (SFsqrt_core_binary _ _ _ _) as [[mz ez] lz]. cbn [fst snd] in Hcore.
    destruct Hcore as (Hq & Hbr & Hexact & Hb).
    set (q := sqrt (IZR (Z.pos mx) * bpow ex)) in *.
    assert (0 <= q) as Hq0 by apply sqrt_pos.
    destruct (binary_round_aux_spec false mz ez lz q) as [Hfin Herr]; try done.
    { by apply sqrt_le_bpow. }
    split; [done|]. unfold within. rewrite (Rabs_pos_eq q) by done.
    rewrite Rmult_1_l in Herr. exact Herr.
Qed.

End Values.

(** ** The same for the floats of the machine *)

Section Machine.
#[local] Open Scope R_scope.

(** The value of a float, and whether it has one. *)
Definition F2R (f : PrimFloat.float) : R := SF2R (FloatOps.Prim2SF f).
Definition finite (f : PrimFloat.float) : Prop := SFfinite (FloatOps.Prim2SF f).

Lemma mul_model (a b : PrimFloat.float) :
  finite a → finite b → Rabs (F2R a * F2R b) <= bpow 900 →
  finite (PrimFloat.mul a b) ∧ within (F2R (PrimFloat.mul a b)) (F2R a * F2R b).
Proof. unfold finite, F2R. rewrite FloatAxioms.mul_spec. apply SFmul_spec. Qed.

Lemma add_model (a b : PrimFloat.float) :
  finite a → finite b → Rabs (F2R a + F2R b) <= bpow 900 →
  finite (PrimFloat.add a b) ∧ within (F2R (PrimFloat.add a b)) (F2R a + F2R b).
Proof. unfold finite, F2R. rewrite FloatAxioms.add_spec. apply SFadd_spec. Qed.

Lemma sub_model (a b : PrimFloat.float) :
  finite a → finite b → Rabs (F2R a - F2R b) <= bpow 900 →
  finite (PrimFloat.sub a b) ∧ within (F2R (PrimFloat.sub a b)) (F2R a - F2R b).
Proof. unfold finite, F2R. rewrite FloatAxioms.sub_spec. apply SFsub_spec. Qed.

Lemma div_model (a b : PrimFloat.float) :
  finite a → finite b → F2R b ≠ 0 → Rabs (F2R a / F2R b) <= bpow 900 →
  finite (PrimFloat.div a b) ∧ within (F2R (PrimFloat.div a b)) (F2R a / F2R b).
Proof. unfold finite, F2R. rewrite FloatAxioms.div_spec. apply SFdiv_spec. Qed.

Lemma sqrt_model (a : PrimFloat.float) :
  finite a → 0 <= F2R a → F2R a <= bpow 900 →
  finite (PrimFloat.sqrt a) ∧ within (F2R (PrimFloat.sqrt a)) (sqrt (F2R a)).
Proof. unfold finite, F2R. rewrite FloatAxioms.sqrt_spec. apply SFsqrt_spec. Qed.

End Machine.


(** ** What a snap costs in accuracy *)

Section Products.
#[local] Open Scope R_scope.

Lemma mul_bound (x y A B : R) :
  - A <= x <= A → - B <= y <= B → - (A * B) <= x * y <= A * B.
Proof. intros Hx Hy. split; nra. Qed.

Lemma Rabs_bound (x A : R) : Rabs x <= A → - A <= x <= A.
Proof. apply Rabs_le_inv. Qed.

Lemma within_bound (c x B : R) :
  within c x → - B <= x <= B → - (3 * eps * B + 3 * eta) <= c - x <= 3 * eps * B + 3 * eta.
Proof.
  intros Hw Hx. apply Rabs_le_inv. unfold within in Hw.
  apply Rle_trans with (3 * eps * Rabs x + 3 * eta); [done|].
  apply Rplus_le_compat_r. apply Rmult_le_compat_l.
  - pose proof eps_pos. lra.
  - by apply Rabs_le.
Qed.

Lemma eps_val : eps = / 4503599627370496.
Proof.
  unfold eps. change (-52)%Z with (- (52))%Z. rewrite bpow_opp, bpow_IZR by lia.
  f_equal.
Qed.

Lemma abs_le_norm (a b : R) : - sqrt (a * a + b * b) <= a <= sqrt (a * a + b * b).
Proof.
  apply Rabs_le_inv. rewrite <- sqrt_Rsqr_abs. apply sqrt_le_1_alt.
  unfold Rsqr. pose proof (Rle_0_sqr b) as Hb. unfold Rsqr in Hb. lra.
Qed.

Lemma norm_sqr (a b : R) : sqrt (a * a + b * b) * sqrt (a * a + b * b) = a * a + b * b.
Proof.
  apply sqrt_sqrt. pose proof (Rle_0_sqr a) as Ha. pose proof (Rle_0_sqr b) as Hb.
  unfold Rsqr in *. lra.
Qed.

(** The norm of a sum is at most the sum of the norms. *)
Lemma norm_triangle (x1 x2 y1 y2 : R) :
  sqrt ((x1 + y1) * (x1 + y1) + (x2 + y2) * (x2 + y2)) <=
  sqrt (x1 * x1 + x2 * x2) + sqrt (y1 * y1 + y2 * y2).
Proof.
  set (nx := sqrt (x1 * x1 + x2 * x2)). set (ny := sqrt (y1 * y1 + y2 * y2)).
  assert (0 <= nx) as Hnx by apply sqrt_pos.
  assert (0 <= ny) as Hny by apply sqrt_pos.
  pose proof (norm_sqr x1 x2) as Hx. pose proof (norm_sqr y1 y2) as Hy.
  fold nx in Hx. fold ny in Hy.
  pose proof (dot_le_norms x1 x2 y1 y2 nx ny Hnx Hny Hx Hy) as Hdot.
  rewrite <- (sqrt_square (nx + ny)) by lra. apply sqrt_le_1_alt. nra.
Qed.

(** A norm is at most the sum of two bounds of its coordinates. *)
Lemma norm_le_sum (x y A B : R) :
  - A <= x <= A → - B <= y <= B → sqrt (x * x + y * y) <= A + B.
Proof.
  intros Hx Hy. rewrite <- (sqrt_square (A + B)) by lra. apply sqrt_le_1_alt. nra.
Qed.

End Products.


Section Powers.
#[local] Open Scope R_scope.

Lemma three_eta (k : Z) : (-1072 <= k)%Z → 3 * eta <= bpow k.
Proof.
  intros Hk. apply Rle_trans with (bpow (-1072)); [|by apply bpow_le].
  unfold eta. replace (-1072)%Z with (2 + -1074)%Z by lia. rewrite bpow_add.
  rewrite (bpow_IZR 2) by lia. pose proof (bpow_pos (-1074)).
  change (IZR (2 ^ 2)) with 4. lra.
Qed.

Lemma inv_pow2_60 : bpow (-60) = / 1152921504606846976.
Proof.
  change (-60)%Z with (- (60))%Z. rewrite bpow_opp, bpow_IZR by lia. f_equal.
Qed.

Lemma inv_pow2_120 : bpow (-120) = / 1329227995784915872903807060280344576.
Proof.
  change (-120)%Z with (- (120))%Z. rewrite bpow_opp, bpow_IZR by lia. f_equal.
Qed.

Lemma le_bpow900 : 1073741824 <= bpow 900.
Proof.
  apply Rle_trans with (bpow 30); [|apply bpow_le; lia].
  rewrite bpow_IZR by lia. apply Req_le. f_equal.
Qed.

Lemma below_bpow900 (x : R) : - 1073741824 <= x <= 1073741824 → Rabs x <= bpow 900.
Proof. intros Hx. pose proof le_bpow900. apply Rabs_le. lra. Qed.

End Powers.

(** The computation of [snapped], operation by operation: the anchor is at
    [(px, py)], the joint at [(jx, jy)], the stick has length [len].  Each
    float the code computes is followed by how far its value is from what
    exact arithmetic would give. *)
Section SnapAnalysis.
#[local] Open Scope R_scope.
Variables px py jx jy len : PrimFloat.float.
Hypothesis Fpx : finite px.
Hypothesis Fpy : finite py.
Hypothesis Fjx : finite jx.
Hypothesis Fjy : finite jy.
Hypothesis Flen : finite len.

Let Px := F2R px.
Let Py := F2R py.
Let Jx := F2R jx.
Let Jy := F2R jy.
Let L := F2R len.
Let a := Jx - Px.
Let b := Jy - Py.
Let D := sqrt (a * a + b * b).

(** The anchor is in the box, the stick is neither tiny nor huge, and the
    joint is neither on the anchor nor far away. *)
Hypothesis HPx : - 4096 <= Px <= 4096.
Hypothesis HPy : - 4096 <= Py <= 4096.
Hypothesis HL : / 1073741824 <= L <= 4096.
Hypothesis HD0 : bpow (-500) <= D <= 16384.

Lemma gap_bounds : 0 < D <= 16384.
Proof. pose proof (bpow_pos (-500)). lra. Qed.

Lemma eta_le_gap : 3 * eta <= / 1152921504606846976 * D.
Proof.
  apply Rle_trans with (/ 1152921504606846976 * bpow (-500)).
  - rewrite <- inv_pow2_60, <- bpow_add. apply three_eta. lia.
  - apply Rmult_le_compat_l; [lra|]. apply HD0.
Qed.

Lemma eta_le_gap_sqr : 3 * eta <= / 1152921504606846976 * (D * D).
Proof.
  apply Rle_trans with (/ 1152921504606846976 * (bpow (-500) * bpow (-500))).
  - rewrite <- inv_pow2_60, <- !bpow_add. apply three_eta. lia.
  - apply Rmult_le_compat_l; [lra|]. pose proof (bpow_pos (-500)). nra.
Qed.

Lemma eta_small : 3 * eta <= / 1329227995784915872903807060280344576.
Proof. rewrite <- inv_pow2_120. apply three_eta. lia. Qed.

(** What is known of the distance and of [eta], where [lra] finds it. *)
Ltac known :=
  pose proof gap_bounds as KD; pose proof eta_le_gap as KE;
  pose proof eta_le_gap_sqr as KE2; pose proof eta_small as KE0.

Lemma eta_nonneg : 0 <= 3 * eta.
Proof. pose proof eta_pos. lra. Qed.

Lemma gap_sqr : D * D = a * a + b * b.
Proof. apply norm_sqr. Qed.

Lemma a_bound : - D <= a <= D.
Proof. apply abs_le_norm. Qed.

Lemma b_bound : - D <= b <= D.
Proof. unfold D. rewrite (Rplus_comm (a * a)). apply abs_le_norm. Qed.

(** The two differences. *)
Let fdx := PrimFloat.sub jx px.
Let fdy := PrimFloat.sub jy py.
Let dx := F2R fdx.
Let dy := F2R fdy.

Lemma dx_model : finite fdx ∧ within dx a.
Proof.
  apply sub_model; [done|done|]. apply below_bpow900.
  change (- 1073741824 <= a <= 1073741824). pose proof a_bound. known. lra.
Qed.

Lemma dy_model : finite fdy ∧ within dy b.
Proof.
  apply sub_model; [done|done|]. apply below_bpow900.
  change (- 1073741824 <= b <= 1073741824). pose proof b_bound. known. lra.
Qed.

Lemma dx_within : within dx a.
Proof. apply dx_model. Qed.

Lemma dy_within : within dy b.
Proof. apply dy_model. Qed.

Lemma stage1_x : - (/ 1125899906842624 * D) <= dx - a <= / 1125899906842624 * D.
Proof.
  known.
  pose proof (within_bound dx a D dx_within a_bound) as H. rewrite eps_val in H.
  pose proof eta_nonneg. lra.
Qed.

Lemma stage1_y : - (/ 1125899906842624 * D) <= dy - b <= / 1125899906842624 * D.
Proof.
  known.
  pose proof (within_bound dy b D dy_within b_bound) as H. rewrite eps_val in H.
  pose proof eta_nonneg. lra.
Qed.

Lemma dx_bound : - (2 * D) <= dx <= 2 * D.
Proof. known. pose proof stage1_x. pose proof a_bound. lra. Qed.

Lemma dy_bound : - (2 * D) <= dy <= 2 * D.
Proof. known. pose proof stage1_y. pose proof b_bound. lra. Qed.

Lemma dxdx_bound : - (4 * (D * D)) <= dx * dx <= 4 * (D * D).
Proof.
  known.
  pose proof (mul_bound dx dx (2 * D) (2 * D) dx_bound dx_bound). lra.
Qed.

Lemma dydy_bound : - (4 * (D * D)) <= dy * dy <= 4 * (D * D).
Proof.
  known.
  pose proof (mul_bound dy dy (2 * D) (2 * D) dy_bound dy_bound). lra.
Qed.

Lemma DD_bound : 0 < D * D <= 268435456.
Proof. known. split; nra. Qed.

(** The sum of the squares. *)
Lemma squares_close :
  - (/ 140737488355328 * (D * D)) <= dx * dx + dy * dy - D * D
  <= / 140737488355328 * (D * D).
Proof.
  known.
  pose proof stage1_x as Hx. pose proof stage1_y as Hy. pose proof a_bound. pose proof b_bound.
  pose proof gap_sqr as Hdd.
  pose proof (mul_bound a (dx - a) D (/ 1125899906842624 * D) a_bound Hx) as H1.
  pose proof (mul_bound b (dy - b) D (/ 1125899906842624 * D) b_bound Hy) as H2.
  pose proof (mul_bound (dx - a) (dx - a) _ _ Hx Hx) as H3.
  pose proof (mul_bound (dy - b) (dy - b) _ _ Hy Hy) as H4.
  replace (dx * dx + dy * dy - D * D)
    with (2 * (a * (dx - a)) + (dx - a) * (dx - a) +
          2 * (b * (dy - b)) + (dy - b) * (dy - b)) by (rewrite Hdd; ring).
  pose proof DD_bound. lra.
Qed.

Let fsx := PrimFloat.mul fdx fdx.
Let fsy := PrimFloat.mul fdy fdy.
Let fs := PrimFloat.add fsx fsy.
Let sx := F2R fsx.
Let sy := F2R fsy.
Let s := F2R fs.

Lemma sx_model : finite fsx ∧ within sx (dx * dx).
Proof.
  apply mul_model; [apply dx_model|apply dx_model|]. apply below_bpow900.
  change (- 1073741824 <= dx * dx <= 1073741824). pose proof dxdx_bound. pose proof DD_bound. lra.
Qed.

Lemma sy_model : finite fsy ∧ within sy (dy * dy).
Proof.
  apply mul_model; [apply dy_model|apply dy_model|]. apply below_bpow900.
  change (- 1073741824 <= dy * dy <= 1073741824). pose proof dydy_bound. pose proof DD_bound. lra.
Qed.

Lemma sx_within : within sx (dx * dx).
Proof. apply sx_model. Qed.

Lemma sy_within : within sy (dy * dy).
Proof. apply sy_model. Qed.

Lemma sx_close :
  - (/ 281474976710656 * (D * D)) <= sx - dx * dx <= / 281474976710656 * (D * D).
Proof.
  known.
  pose proof (within_bound sx (dx * dx) _ sx_within dxdx_bound) as H. rewrite eps_val in H.
  pose proof eta_nonneg. pose proof DD_bound. lra.
Qed.

Lemma sy_close :
  - (/ 281474976710656 * (D * D)) <= sy - dy * dy <= / 281474976710656 * (D * D).
Proof.
  known.
  pose proof (within_bound sy (dy * dy) _ sy_within dydy_bound) as H. rewrite eps_val in H.
  pose proof eta_nonneg. pose proof DD_bound. lra.
Qed.

Lemma sum_bound : - (3 * (D * D)) <= sx + sy <= 3 * (D * D).
Proof.
  known. pose proof sx_close. pose proof sy_close. pose proof squares_close.
  pose proof DD_bound. lra.
Qed.

Lemma s_model : finite fs ∧ within s (sx + sy).
Proof.
  apply add_model; [apply sx_model|apply sy_model|]. apply below_bpow900.
  change (- 1073741824 <= sx + sy <= 1073741824). pose proof sum_bound. pose proof DD_bound. lra.
Qed.

Lemma s_within : within s (sx + sy).
Proof. apply s_model. Qed.

Lemma stage2 :
  (1 - / 35184372088832) * (D * D) <= s <= (1 + / 35184372088832) * (D * D).
Proof.
  known.
  pose proof (within_bound s (sx + sy) _ s_within sum_bound) as H. rewrite eps_val in H.
  pose proof sx_close. pose proof sy_close. pose proof squares_close.
  pose proof eta_nonneg. pose proof DD_bound. lra.
Qed.

Lemma s_bound : 0 <= s <= 536870912.
Proof. known. pose proof stage2. pose proof DD_bound. lra. Qed.

(** The norm. *)
Lemma sqrt_s :
  (1 - / 35184372088832) * D <= sqrt s <= (1 + / 35184372088832) * D.
Proof.
  known.
  pose proof stage2 as [Hlo Hhi]. pose proof DD_bound. split.
  - rewrite <- (sqrt_square ((1 - / 35184372088832) * D)) by lra.
    apply sqrt_le_1_alt. nra.
  - rewrite <- (sqrt_square ((1 + / 35184372088832) * D)) by lra.
    apply sqrt_le_1_alt. nra.
Qed.

Let fn := PrimFloat.sqrt fs.
Let n := F2R fn.

Lemma n_model : finite fn ∧ within n (sqrt s).
Proof.
  pose proof s_bound. pose proof le_bpow900.
  apply sqrt_model; [apply s_model|change (0 <= s); lra|change (s <= bpow 900); lra].
Qed.

Lemma n_within : within n (sqrt s).
Proof. apply n_model. Qed.

Lemma stage3 : (1 - / 17592186044416) * D <= n <= (1 + / 17592186044416) * D.
Proof.
  known.
  pose proof sqrt_s as Hq.
  assert (- (2 * D) <= sqrt s <= 2 * D) as Hq' by lra.
  pose proof (within_bound n (sqrt s) _ n_within Hq') as H. rewrite eps_val in H.
  pose proof eta_nonneg. lra.
Qed.

Lemma n_pos : 0 < n.
Proof. known. pose proof stage3. lra. Qed.

(** The direction. *)
Lemma quotient_x : - / 4398046511104 <= dx / n - a / D <= / 4398046511104.
Proof.
  known.
  pose proof stage3 as Hn3. pose proof stage1_x as Hx. pose proof a_bound as Ha'.
  pose proof n_pos as Hnp.
  assert (- 1 <= a / D <= 1) as Hhat.
  { split.
    - apply Rmult_le_reg_r with D; [lra|]. unfold Rdiv. rewrite Rmult_assoc.
      rewrite Rinv_l by lra. lra.
    - apply Rmult_le_reg_r with D; [lra|]. unfold Rdiv. rewrite Rmult_assoc.
      rewrite Rinv_l by lra. lra. }
  assert ((dx / n - a / D) * n = (dx - a) - (a / D) * (n - D)) as Heq.
  { field. lra. }
  assert (- (/ 17592186044416 * D) <= n - D <= / 17592186044416 * D) as Hnd by lra.
  pose proof (mul_bound (a / D) (n - D) 1 _ Hhat Hnd) as Hprod.
  set (t := dx / n - a / D) in *.
  assert (/ 2 * D <= n) as Hhalf by lra.
  split.
  - destruct (Rle_or_lt (- / 4398046511104) t) as [|Hlt]; [done|]. exfalso. nra.
  - destruct (Rle_or_lt t (/ 4398046511104)) as [|Hlt]; [done|]. exfalso. nra.
Qed.

Lemma quotient_y : - / 4398046511104 <= dy / n - b / D <= / 4398046511104.
Proof.
  known.
  pose proof stage3 as Hn3. pose proof stage1_y as Hy. pose proof b_bound as Hb'.
  pose proof n_pos as Hnp.
  assert (- 1 <= b / D <= 1) as Hhat.
  { split.
    - apply Rmult_le_reg_r with D; [lra|]. unfold Rdiv. rewrite Rmult_assoc.
      rewrite Rinv_l by lra. lra.
    - apply Rmult_le_reg_r with D; [lra|]. unfold Rdiv. rewrite Rmult_assoc.
      rewrite Rinv_l by lra. lra. }
  assert ((dy / n - b / D) * n = (dy - b) - (b / D) * (n - D)) as Heq.
  { field. lra. }
  assert (- (/ 17592186044416 * D) <= n - D <= / 17592186044416 * D) as Hnd by lra.
  pose proof (mul_bound (b / D) (n - D) 1 _ Hhat Hnd) as Hprod.
  set (t := dy / n - b / D) in *.
  assert (/ 2 * D <= n) as Hhalf by lra.
  split.
  - destruct (Rle_or_lt (- / 4398046511104) t) as [|Hlt]; [done|]. exfalso. nra.
  - destruct (Rle_or_lt t (/ 4398046511104)) as [|Hlt]; [done|]. exfalso. nra.
Qed.

Lemma hat_x : - 1 <= a / D <= 1.
Proof.
  known.
  pose proof a_bound. split.
  - apply Rmult_le_reg_r with D; [lra|]. unfold Rdiv. rewrite Rmult_assoc.
    rewrite Rinv_l by lra. lra.
  - apply Rmult_le_reg_r with D; [lra|]. unfold Rdiv. rewrite Rmult_assoc.
    rewrite Rinv_l by lra. lra.
Qed.

Lemma hat_y : - 1 <= b / D <= 1.
Proof.
  known.
  pose proof b_bound. split.
  - apply Rmult_le_reg_r with D; [lra|]. unfold Rdiv. rewrite Rmult_assoc.
    rewrite Rinv_l by lra. lra.
  - apply Rmult_le_reg_r with D; [lra|]. unfold Rdiv. rewrite Rmult_assoc.
    rewrite Rinv_l by lra. lra.
Qed.

Lemma hat_norm : (a / D) * (a / D) + (b / D) * (b / D) = 1.
Proof.
  known.
  replace (a / D * (a / D) + b / D * (b / D)) with ((a * a + b * b) * (/ D * / D))
    by (unfold Rdiv; ring).
  rewrite <- gap_sqr. field. lra.
Qed.

Lemma quotient_x_bound : - 2 <= dx / n <= 2.
Proof. known. pose proof quotient_x. pose proof hat_x. lra. Qed.

Lemma quotient_y_bound : - 2 <= dy / n <= 2.
Proof. known. pose proof quotient_y. pose proof hat_y. lra. Qed.

Let fux := PrimFloat.div fdx fn.
Let fuy := PrimFloat.div fdy fn.
Let ux := F2R fux.
Let uy := F2R fuy.

Lemma ux_model : finite fux ∧ within ux (dx / n).
Proof.
  pose proof n_pos. pose proof quotient_x_bound.
  apply div_model; [apply dx_model|apply n_model|change (n ≠ 0); lra|].
  apply below_bpow900. change (- 1073741824 <= dx / n <= 1073741824). lra.
Qed.

Lemma uy_model : finite fuy ∧ within uy (dy / n).
Proof.
  pose proof n_pos. pose proof quotient_y_bound.
  apply div_model; [apply dy_model|apply n_model|change (n ≠ 0); lra|].
  apply below_bpow900. change (- 1073741824 <= dy / n <= 1073741824). lra.
Qed.

Lemma ux_within : within ux (dx / n).
Proof. apply ux_model. Qed.

Lemma uy_within : within uy (dy / n).
Proof. apply uy_model. Qed.

Lemma stage4_x : - / 2199023255552 <= ux - a / D <= / 2199023255552.
Proof.
  known.
  pose proof (within_bound ux (dx / n) 2 ux_within quotient_x_bound) as H. rewrite eps_val in H.
  pose proof quotient_x. pose proof eta_nonneg. lra.
Qed.

Lemma stage4_y : - / 2199023255552 <= uy - b / D <= / 2199023255552.
Proof.
  known.
  pose proof (within_bound uy (dy / n) 2 uy_within quotient_y_bound) as H. rewrite eps_val in H.
  pose proof quotient_y. pose proof eta_nonneg. lra.
Qed.

Lemma ux_bound : - 2 <= ux <= 2.
Proof. known. pose proof stage4_x. pose proof hat_x. lra. Qed.

Lemma uy_bound : - 2 <= uy <= 2.
Proof. known. pose proof stage4_y. pose proof hat_y. lra. Qed.

(** The direction times the length. *)
Lemma uxL_bound : - (2 * L) <= ux * L <= 2 * L.
Proof.
  known.
  assert (- L <= L <= L) as HLL by lra.
  pose proof (mul_bound ux L 2 L ux_bound HLL). lra.
Qed.

Lemma uyL_bound : - (2 * L) <= uy * L <= 2 * L.
Proof.
  known.
  assert (- L <= L <= L) as HLL by lra.
  pose proof (mul_bound uy L 2 L uy_bound HLL). lra.
Qed.

Let fvx := PrimFloat.mul fux len.
Let fvy := PrimFloat.mul fuy len.
Let vx := F2R fvx.
Let vy := F2R fvy.

Lemma vx_model : finite fvx ∧ within vx (ux * L).
Proof.
  pose proof uxL_bound.
  apply mul_model; [apply ux_model|done|]. apply below_bpow900.
  change (- 1073741824 <= ux * L <= 1073741824). lra.
Qed.

Lemma vy_model : finite fvy ∧ within vy (uy * L).
Proof.
  pose proof uyL_bound.
  apply mul_model; [apply uy_model|done|]. apply below_bpow900.
  change (- 1073741824 <= uy * L <= 1073741824). lra.
Qed.

Lemma vx_within : within vx (ux * L).
Proof. apply vx_model. Qed.

Lemma vy_within : within vy (uy * L).
Proof. apply vy_model. Qed.

Lemma stage5_x : - (/ 1099511627776 * L) <= vx - a / D * L <= / 1099511627776 * L.
Proof.
  known.
  pose proof (within_bound vx (ux * L) _ vx_within uxL_bound) as H. rewrite eps_val in H.
  assert (- L <= L <= L) as HLL by lra.
  pose proof (mul_bound (ux - a / D) L (/ 2199023255552) L stage4_x HLL) as Hp.
  replace (vx - a / D * L) with ((vx - ux * L) + (ux - a / D) * L) by ring.
  pose proof eta_nonneg. lra.
Qed.

Lemma stage5_y : - (/ 1099511627776 * L) <= vy - b / D * L <= / 1099511627776 * L.
Proof.
  known.
  pose proof (within_bound vy (uy * L) _ vy_within uyL_bound) as H. rewrite eps_val in H.
  assert (- L <= L <= L) as HLL by lra.
  pose proof (mul_bound (uy - b / D) L (/ 2199023255552) L stage4_y HLL) as Hp.
  replace (vy - b / D * L) with ((vy - uy * L) + (uy - b / D) * L) by ring.
  pose proof eta_nonneg. lra.
Qed.

Lemma vx_bound : - 8193 <= vx <= 8193.
Proof.
  known.
  pose proof stage5_x. assert (- L <= L <= L) as HLL by lra.
  pose proof (mul_bound (a / D) L 1 L hat_x HLL). lra.
Qed.

Lemma vy_bound : - 8193 <= vy <= 8193.
Proof.
  known.
  pose proof stage5_y. assert (- L <= L <= L) as HLL by lra.
  pose proof (mul_bound (b / D) L 1 L hat_y HLL). lra.
Qed.

Lemma sum_x_bound : - 16384 <= Px + vx <= 16384.
Proof. known. pose proof vx_bound. lra. Qed.

Lemma sum_y_bound : - 16384 <= Py + vy <= 16384.
Proof. known. pose proof vy_bound. lra. Qed.

(** The anchor plus that. *)
Let fqx := PrimFloat.add px fvx.
Let fqy := PrimFloat.add py fvy.
Let qx := F2R fqx.
Let qy := F2R fqy.

Lemma qx_model : finite fqx ∧ within qx (Px + vx).
Proof.
  pose proof sum_x_bound.
  apply add_model; [done|apply vx_model|]. apply below_bpow900.
  change (- 1073741824 <= Px + vx <= 1073741824). lra.
Qed.

Lemma qy_model : finite fqy ∧ within qy (Py + vy).
Proof.
  pose proof sum_y_bound.
  apply add_model; [done|apply vy_model|]. apply below_bpow900.
  change (- 1073741824 <= Py + vy <= 1073741824). lra.
Qed.

Lemma qx_within : within qx (Px + vx).
Proof. apply qx_model. Qed.

Lemma qy_within : within qy (Py + vy).
Proof. apply qy_model. Qed.

Lemma stage6_x :
  - (/ 1099511627776 * L + / 34359738368) <= (qx - Px) - a / D * L
  <= / 1099511627776 * L + / 34359738368.
Proof.
  known.
  pose proof (within_bound qx (Px + vx) 16384 qx_within sum_x_bound) as H. rewrite eps_val in H.
  pose proof stage5_x. pose proof eta_nonneg. lra.
Qed.

Lemma stage6_y :
  - (/ 1099511627776 * L + / 34359738368) <= (qy - Py) - b / D * L
  <= / 1099511627776 * L + / 34359738368.
Proof.
  known.
  pose proof (within_bound qy (Py + vy) 16384 qy_within sum_y_bound) as H. rewrite eps_val in H.
  pose proof stage5_y. pose proof eta_nonneg. lra.
Qed.

Lemma q_bound : - 16385 <= qx <= 16385 ∧ - 16385 <= qy <= 16385.
Proof.
  known.
  pose proof stage6_x. pose proof stage6_y. pose proof hat_x. pose proof hat_y.
  assert (- L <= L <= L) as HLL by lra.
  pose proof (mul_bound (a / D) L 1 L hat_x HLL).
  pose proof (mul_bound (b / D) L 1 L hat_y HLL). lra.
Qed.

(** The joint is at the length of the stick from the anchor, nearly. *)
Lemma snap_close :
  - (/ 549755813888 * L + / 17179869184)
  <= sqrt ((qx - Px) * (qx - Px) + (qy - Py) * (qy - Py)) - L
  <= / 549755813888 * L + / 17179869184.
Proof.
  known.
  set (wx := a / D * L). set (wy := b / D * L).
  set (rx := (qx - Px) - wx). set (ry := (qy - Py) - wy).
  assert (sqrt (wx * wx + wy * wy) = L) as Hw.
  { replace (wx * wx + wy * wy) with (L * L)
      by (unfold wx, wy; pose proof hat_norm as Hh; nra).
    apply sqrt_square. lra. }
  assert (sqrt (rx * rx + ry * ry) <= / 549755813888 * L + / 17179869184) as Hr.
  { pose proof (norm_le_sum rx ry _ _ stage6_x stage6_y). fold rx ry in H. lra. }
  replace (qx - Px) with (wx + rx) by (unfold rx; ring).
  replace (qy - Py) with (wy + ry) by (unfold ry; ring).
  split.
  - pose proof (norm_triangle (wx + rx) (wy + ry) (- rx) (- ry)) as Ht.
    replace (wx + rx + - rx) with wx in Ht by ring.
    replace (wy + ry + - ry) with wy in Ht by ring.
    replace (- rx * - rx + - ry * - ry) with (rx * rx + ry * ry) in Ht by ring.
    lra.
  - pose proof (norm_triangle wx wy rx ry) as Ht. lra.
Qed.

(** The whole of it, for the floats the code computes. *)
Lemma snap_model :
  finite fqx ∧ finite fqy ∧
  - (/ 549755813888 * L + / 17179869184)
  <= sqrt ((qx - Px) * (qx - Px) + (qy - Py) * (qy - Py)) - L
  <= / 549755813888 * L + / 17179869184.
Proof.
  split; [apply qx_model|]. split; [apply qy_model|]. apply snap_close.
Qed.

End SnapAnalysis.

(** ** The snap in float64 *)

Section SnapFloat.
#[local] Open Scope R_scope.

(** The Euclidean distance of two positions, a real number. *)
Definition gap (v w : array PrimFloat.float) : R :=
  sqrt ((F2R v.1 - F2R w.1) * (F2R v.1 - F2R w.1) +
        (F2R v.2 - F2R w.2) * (F2R v.2 - F2R w.2)).

(** A position whose two coordinates are numbers, neither an infinity nor
    NaN. *)
Definition numbers (v : array PrimFloat.float) : Prop := finite v.1 ∧ finite v.2.

(** A position on the canvas or not far off it: both coordinates are
    numbers, of absolute value 4096 at most. *)
Definition in_box (v : array PrimFloat.float) : Prop :=
  finite v.1 ∧ finite v.2 ∧ - 4096 <= F2R v.1 <= 4096 ∧ - 4096 <= F2R v.2 <= 4096.

(** A length that is a number between [2^-30] and 4096. *)
Definition usable (length : PrimFloat.float) : Prop :=
  finite length ∧ / 1073741824 <= F2R length <= 4096.

(** How far from the length of its stick a snapped joint may be: [2^-39]
    of the length and [2^-34]. *)
Definition slack (length : PrimFloat.float) : R :=
  / 549755813888 * F2R length + / 17179869184.

Lemma gap_sym (v w : array PrimFloat.float) : gap v w = gap w v.
Proof. unfold gap. f_equal. ring. Qed.

Lemma gap_in_box (v w : array PrimFloat.float) : in_box v → in_box w → gap v w <= 16384.
Proof.
  intros (_ & _ & Hv1 & Hv2) (_ & _ & Hw1 & Hw2). unfold gap.
  replace 16384 with (8192 + 8192) by lra. apply norm_le_sum; lra.
Qed.

Lemma slack_small (length : PrimFloat.float) :
  usable length → 0 < slack length < / 1000000 ∧ bpow (-500) <= F2R length - slack length.
Proof.
  intros [_ Hl]. unfold slack.
  assert (bpow (-500) <= / 2147483648) as Hb.
  { apply Rle_trans with (bpow (-31)); [apply bpow_le; lia|].
    change (-31)%Z with (- (31))%Z. rewrite bpow_opp, bpow_IZR by lia.
    apply Req_le. f_equal. }
  lra.
Qed.

(** What [calculate_joint] writes is a position at the length of the stick
    from the anchor, up to [slack], when the joint was neither on the anchor
    nor far from it. *)
Lemma snapped_accurate (joint anchor : Point.t PrimFloat.float) (length : PrimFloat.float) :
  finite (Point.position joint).1 → finite (Point.position joint).2 →
  in_box (Point.position anchor) → usable length →
  bpow (-500) <= gap (Point.position joint) (Point.position anchor) <= 16384 →
  finite (snapped joint anchor length).1 ∧ finite (snapped joint anchor length).2 ∧
  - slack length
  <= gap (snapped joint anchor length) (Point.position anchor) - F2R length
  <= slack length.
Proof.
  destruct joint as [[jx jy] lj prevj], anchor as [[px py] la preva]. simpl.
  intros Fjx Fjy (Fpx & Fpy & Hpx & Hpy) [Flen Hlen] Hgap. simpl in *.
  apply (snap_model px py jx jy length); done.
Qed.

(** The value of a float that is a whole number. *)
Lemma F2R_whole (f : PrimFloat.float) (m : positive) (e : Z) (z : Z) :
  FloatOps.Prim2SF f = SpecFloat.S754_finite false m (- e) → (0 <= e)%Z →
  (Z.pos m = z * 2 ^ e)%Z → F2R f = IZR z.
Proof.
  intros Hf He Hm. unfold F2R. rewrite Hf. unfold SF2R.
  rewrite Hm, mult_IZR, bpow_opp, bpow_IZR by done.
  assert (0 < IZR (2 ^ e)) as Hpos.
  { apply IZR_lt. by apply Z.pow_pos_nonneg. }
  field. lra.
Qed.

Lemma F2R_large (f : PrimFloat.float) (m : positive) (e : Z) (z : Z) :
  FloatOps.Prim2SF f = SpecFloat.S754_finite false m e → (0 <= e)%Z →
  (z = Z.pos m * 2 ^ e)%Z → F2R f = IZR z.
Proof.
  intros Hf He ->. unfold F2R. rewrite Hf. unfold SF2R.
  rewrite mult_IZR, bpow_IZR by done. ring.
Qed.

(** The free end before it is snapped: a position of numbers, neither on
    the anchor nor far from it. *)
Definition apart_at (length : PrimFloat.float) (j p : array PrimFloat.float) : Prop :=
  finite j.1 ∧ finite j.2 ∧ in_box p ∧ bpow (-500) <= gap j p <= 16384.

(** The free end once it is snapped: at the length of the stick from the
    anchor, up to [slack]. *)
Definition held_at (length : PrimFloat.float) (j p : array PrimFloat.float) : Prop :=
  finite j.1 ∧ finite j.2 ∧ in_box p ∧
  - slack length <= gap j p - F2R length <= slack length.

Lemma held_apart_at (length : PrimFloat.float) (j p : array PrimFloat.float) :
  usable length → held_at length j p → apart_at length j p.
Proof.
  intros Hu (Fj1 & Fj2 & Hp & Hg). do 3 (split; [done|]).
  destruct (slack_small length Hu) as [Hs Hb]. destruct Hu as [_ Hl]. lra.
Qed.

Lemma snapped_held_at (length : PrimFloat.float) (joint anchor : Point.t PrimFloat.float) :
  usable length →
  apart_at length (Point.position joint) (Point.position anchor) →
  held_at length (snapped joint anchor length) (Point.position anchor).
Proof.
  intros Hu (Fj1 & Fj2 & Hp & Hg).
  destruct (snapped_accurate joint anchor length Fj1 Fj2 Hp Hu Hg) as (Fq1 & Fq2 & Hq).
  done.
Qed.

End SnapFloat.

(** ** Length preservation *)

Section LengthClaim.
#[local] Open Scope R_scope.

(** C1, as the code has it, in float64.  When the sticks form a forest
    whose locked points are roots (chains and trees that hang from their
    anchors), take a stick with one locked end, of a length between [2^-30]
    and 4096, whose two ends have coordinates of absolute value 4096 at most
    (the canvas is 900 by 700) and are at least [2^-500] apart.  After
    [n ≥ 1] sweeps ([simulate_frame] makes [Config.STICK_ITERATIONS] of
    them) the solver has returned (the recursion bound being greater than
    twice the depth of the forest plus one), the coordinates of the two ends
    are numbers, and the Euclidean distance of the two ends differs from the
    length of the stick by less than [1e-6]. *)
Theorem hanging_stick_keeps_length (rank : nat → nat) (n depth : nat)
    (s : Screen.t PrimFloat.float) (si : nat) (stick : Stick.t PrimFloat.float)
    (pa pb : Point.t PrimFloat.float) :
  wf s →
  forest rank (Screen.sticks s) →
  deep_ends_free rank s →
  (2 * max_rank rank (Screen.sticks s) + 1 < depth)%nat →
  (1 ≤ n)%nat →
  Screen.sticks s !! si = Some stick →
  Screen.points s !! Stick.pointA stick = Some pa →
  Screen.points s !! Stick.pointB stick = Some pb →
  Point.locked pa ≠ Point.locked pb →
  in_box (Point.position pa) →
  in_box (Point.position pb) →
  bpow (-500) <= gap (Point.position pa) (Point.position pb) →
  usable (Stick.length stick) →
  (sweeps n depth s).2 = Returned ∧
  ∃ pa' pb',
    Screen.points (sweeps n depth s).1 !! Stick.pointA stick = Some pa' ∧
    Screen.points (sweeps n depth s).1 !! Stick.pointB stick = Some pb' ∧
    numbers (Point.position pa') ∧ numbers (Point.position pb') ∧
    Rabs (gap (Point.position pa') (Point.position pb') - F2R (Stick.length stick))
      < / 1000000.
Proof.
  intros Hwf Hfo Hfree Hd Hn Hsi Ha Hb Hone Hboxa Hboxb Hgap Hu.
  split; [by apply (sweeps_returns rank)|].
  pose proof (gap_in_box _ _ Hboxa Hboxb) as Hfar.
  destruct (slack_small _ Hu) as [Hslack _].
  destruct (sweep_step_down rank (si, stick) s pa pb Hfree Hsi Ha Hb) as [HA HB].
  destruct (Point.locked pa) eqn:Hla.
  - destruct HA as [Hdeep Hlb]; [done|].
    assert (hanging rank si stick A depth s) as Hh.
    { do 5 (split; [done|]). by exists pa. }
    assert (apart stick A (apart_at (Stick.length stick)) s) as Hap.
    { exists pa, pb. split; [done|]. split; [done|].
      destruct Hboxb as (Fb1 & Fb2 & _). do 3 (split; [done|]).
      rewrite gap_sym. lra. }
    destruct (sweeps_reaches rank si stick A depth Hdeep
                (apart_at (Stick.length stick)) (held_at (Stick.length stick))
                (λ j p, held_apart_at _ j p Hu)
                (λ joint anchor, snapped_held_at _ joint anchor Hu) n s Hh Hap Hn)
      as (anchor & joint & Ha' & Hj' & Fj1 & Fj2 & (Fa1 & Fa2 & _) & Hdist).
    exists anchor, joint. split; [done|]. split; [done|].
    split; [done|]. split; [done|].
    rewrite gap_sym. apply Rabs_def1; lra.
  - destruct (Point.locked pb) eqn:Hlb; [|done].
    destruct HB as [Hdeep _]; [done|].
    assert (hanging rank si stick B depth s) as Hh.
    { do 5 (split; [done|]). by exists pb. }
    assert (apart stick B (apart_at (Stick.length stick)) s) as Hap.
    { exists pb, pa. split; [done|]. split; [done|].
      destruct Hboxa as (Fa1 & Fa2 & _). do 3 (split; [done|]). lra. }
    destruct (sweeps_reaches rank si stick B depth Hdeep
                (apart_at (Stick.length stick)) (held_at (Stick.length stick))
                (λ j p, held_apart_at _ j p Hu)
                (λ joint anchor, snapped_held_at _ joint anchor Hu) n s Hh Hap Hn)
      as (anchor & joint & Ha' & Hj' & Fj1 & Fj2 & (Fa1 & Fa2 & _) & Hdist).
    exists joint, anchor. split; [done|]. split; [done|].
    split; [done|]. split; [done|].
    apply Rabs_def1; lra.
Qed.

End LengthClaim.


Section LengthChecks.
Import PrimFloat.

Lemma hanging_stick_keeps_length_witness :
  (simulate_frame recursionlimit Examples.chain).2 = Returned ∧
  ∃ pa' pb',
    Screen.points (simulate_frame recursionlimit Examples.chain).1 !! 0 = Some pa' ∧
    Screen.points (simulate_frame recursionlimit Examples.chain).1 !! 1 = Some pb' ∧
    numbers (Point.position pa') ∧ numbers (Point.position pb') ∧
    (Rabs (gap (Point.position pa') (Point.position pb') - F2R 100%float) < / 1000000)%R.
Proof.
  assert (F2R 50%float = 50%R) as H50 by (by eapply (F2R_whole _ _ 47 50%Z)).
  assert (F2R 100%float = 100%R) as H100 by (by eapply (F2R_whole _ _ 46 100%Z)).
  assert (F2R 200%float = 200%R) as H200 by (by eapply (F2R_whole _ _ 45 200%Z)).
  unfold simulate_frame.
  apply (hanging_stick_keeps_length (λ i, i) Config.STICK_ITERATIONS recursionlimit
           Examples.chain 0
           (Stick.mk 0 1 100%float) (Examples.dragged 50 100 100 100)
           (Examples.point 200 100 false)).
  - written_wf.
  - split; [each_stick|by_decision].
  - unfold deep_ends_free. each_stick.
  - unfold recursionlimit. simpl. lia.
  - unfold Config.STICK_ITERATIONS. lia.
  - reflexivity.
  - reflexivity.
  - reflexivity.
  - simpl. done.
  - unfold in_box. simpl. rewrite H50, H100. repeat split; lra.
  - unfold in_box. simpl. rewrite H200, H100. repeat split; lra.
  - apply Rle_trans with (bpow 0); [apply bpow_le; lia|]. rewrite bpow_0.
    unfold gap. cbn [Point.position Examples.dragged Examples.point fst snd].
    rewrite H50, H100, H200.
    replace ((50 - 200) * (50 - 200) + (100 - 100) * (100 - 100))%R with (150 * 150)%R by lra.
    rewrite sqrt_square by lra. lra.
  - unfold usable. simpl. rewrite H100. repeat split; lra.
Defined.

(** A skeleton far from the canvas, where the floats are two apart: a stick
    of length 101 hangs from an anchor at [2^53], its free end 200 to the
    right.  (The canvas is 900 by 700; no run of the program on it shows
    such coordinates.) *)
Definition far_chain : Screen.t float :=
  Examples.screen
    [Examples.point 0x1p53 0 true; Examples.point 9007199254741192 0 false]
    [Stick.mk 0 1 101%float].

(** A skeleton whose two points are nearer than floats can square: a stick
    of length 100 hangs from an anchor at the origin, its free end [2^-600]
    to the right. *)
Definition near_chain : Screen.t float :=
  Examples.screen
    [Examples.point 0 0 true; Examples.point 0x1p-600 0 false]
    [Stick.mk 0 1 100%float].

(** C1 as stated fails where two anchors hold one point.  From
    [Examples.two_anchors] the solver returns the very screen it was given
    (in every sweep the first stick is put right and the second one undoes
    it), in which the first stick, with one locked end, has length 150 for
    a stored length of 100.  No direction was of length zero: a division by
    a zero distance leaves a NaN in the joint, and there is none.  The same
    holds in exact arithmetic, on [ExactExamples.two_anchors].

    In float64 it fails on chains as well, where the numbers are out of
    range.  On [far_chain] every sweep puts the free end at [2^53 + 100],
    the float nearest to [2^53 + 101]: the stick of length 101 is 100 long.
    On [near_chain] the two ends are not at the same place, yet the squares
    of their distance underflow, the direction is divided by zero and the
    free end is lost. *)
Lemma pulled_stick_off_length :
  (∃ stick pa pb,
     Screen.sticks Examples.two_anchors !! 0 = Some stick ∧
     simulate_frame recursionlimit Examples.two_anchors =
       (Examples.two_anchors, Returned) ∧
     Screen.points Examples.two_anchors !! Stick.pointA stick = Some pa ∧
     Screen.points Examples.two_anchors !! Stick.pointB stick = Some pb ∧
     Point.locked pa = true ∧ Point.locked pb = false ∧
     distance (asub (Point.position pa) (Point.position pb)) = 150%float ∧
     Stick.length stick = 100%float ∧
     PrimFloat.ltb (PrimFloat.abs (PrimFloat.sub 150 100)) 0x1p-20 = false) ∧
  (∃ stick pa pb,
     Screen.sticks ExactExamples.two_anchors !! 0 = Some stick ∧
     simulate_frame recursionlimit ExactExamples.two_anchors =
       (ExactExamples.two_anchors, Returned) ∧
     Screen.points ExactExamples.two_anchors !! Stick.pointA stick = Some pa ∧
     Screen.points ExactExamples.two_anchors !! Stick.pointB stick = Some pb ∧
     Point.locked pa = true ∧ Point.locked pb = false ∧
     distance (asub (Point.position pa) (Point.position pb)) = 150%R ∧
     Stick.length stick = 100%R) ∧
  (∃ stick pa pb pb',
     Screen.sticks far_chain !! 0 = Some stick ∧
     Screen.points far_chain !! Stick.pointA stick = Some pa ∧
     Screen.points far_chain !! Stick.pointB stick = Some pb ∧
     Point.locked pa = true ∧ Point.locked pb = false ∧
     wf far_chain ∧ forest (λ i, i) (Screen.sticks far_chain) ∧
     deep_ends_free (λ i, i) far_chain ∧
     usable (Stick.length stick) ∧
     (bpow (-500) <= gap (Point.position pa) (Point.position pb))%R ∧
     (simulate_frame recursionlimit far_chain).2 = Returned ∧
     Screen.points (simulate_frame recursionlimit far_chain).1 !! Stick.pointA stick =
       Some pa ∧
     Screen.points (simulate_frame recursionlimit far_chain).1 !! Stick.pointB stick =
       Some pb' ∧
     gap (Point.position pa) (Point.position pb') = 100%R ∧
     F2R (Stick.length stick) = 101%R) ∧
  (∃ stick pa pb pb',
     Screen.sticks near_chain !! 0 = Some stick ∧
     Screen.points near_chain !! Stick.pointA stick = Some pa ∧
     Screen.points near_chain !! Stick.pointB stick = Some pb ∧
     Point.locked pa = true ∧ Point.locked pb = false ∧
     wf near_chain ∧ forest (λ i, i) (Screen.sticks near_chain) ∧
     deep_ends_free (λ i, i) near_chain ∧
     usable (Stick.length stick) ∧
     in_box (Point.position pa) ∧ in_box (Point.position pb) ∧
     Point.position pa ≠ Point.position pb ∧
     (0 < gap (Point.position pa) (Point.position pb))%R ∧
     (simulate_frame recursionlimit near_chain).2 = Returned ∧
     Screen.points (simulate_frame recursionlimit near_chain).1 !! Stick.pointB stick =
       Some pb' ∧
     Point.position pb' = (nan, nan)).
Proof.
  assert (F2R 0%float = 0%R) as H0 by done.
  assert (F2R 100%float = 100%R) as H100 by (by eapply (F2R_whole _ _ 46 100%Z)).
  assert (F2R 101%float = 101%R) as H101 by (by eapply (F2R_whole _ _ 46 101%Z)).
  assert (F2R 0x1p53%float = 9007199254740992%R) as Hfar
    by (by eapply (F2R_large _ _ 1 9007199254740992%Z)).
  assert (F2R 9007199254741092%float = 9007199254741092%R) as Hfar'
    by (by eapply (F2R_large _ _ 1 9007199254741092%Z)).
  assert (F2R 9007199254741192%float = 9007199254741192%R) as Hfar''
    by (by eapply (F2R_large _ _ 1 9007199254741192%Z)).
  assert (0 < F2R 0x1p-600%float <= 1)%R as Hnear.
  { replace (F2R 0x1p-600%float) with (bpow (-600)).
    - split; [apply bpow_pos|]. rewrite <- bpow_0. apply bpow_le. lia.
    - unfold F2R. replace (FloatOps.Prim2SF 0x1p-600%float)
        with (SpecFloat.S754_finite false 4503599627370496 (-652)) by done.
      unfold SF2R. change (Z.pos 4503599627370496) with (2 ^ 52)%Z.
      rewrite <- (bpow_IZR 52) by lia. rewrite Rmult_1_l, <- bpow_add. f_equal. }
  split; [|split; [|split]].
  - eexists _, _, _.
    split; [reflexivity|]. split; [vm_compute; reflexivity|].
    split; [reflexivity|]. split; [reflexivity|].
    split; [reflexivity|]. split; [reflexivity|].
    split; [vm_compute; reflexivity|].
    split; reflexivity.
  - eexists _, _, _.
    split; [reflexivity|]. split; [apply two_anchors_run|].
    split; [reflexivity|]. split; [reflexivity|].
    split; [reflexivity|]. split; [reflexivity|].
    split; [|reflexivity].
    cbv [Point.position ExactExamples.dragged ExactExamples.point].
    rewrite distance_on_line by lra. lra.
  - exists (Stick.mk 0 1 101%float), (Examples.point 0x1p53 0 true),
      (Examples.point 9007199254741192 0 false),
      (Point.mk (9007199254741092%float, 0%float) false (9007199254741192%float, 0%float)).
    split; [reflexivity|]. split; [reflexivity|]. split; [reflexivity|].
    split; [reflexivity|]. split; [reflexivity|].
    split; [unfold far_chain; written_wf|].
    split; [split; [each_stick|by_decision]|].
    split; [unfold deep_ends_free; each_stick|].
    split.
    { unfold usable. cbn [Stick.length]. rewrite H101. repeat split; lra. }
    split.
    { apply Rle_trans with (bpow 0); [apply bpow_le; lia|]. rewrite bpow_0.
      unfold gap. cbn [Point.position Examples.point fst snd]. rewrite Hfar, Hfar'', H0.
      replace ((9007199254740992 - 9007199254741192) * (9007199254740992 - 9007199254741192)
               + (0 - 0) * (0 - 0))%R with (200 * 200)%R by lra.
      rewrite sqrt_square by lra. lra. }
    split; [vm_compute; reflexivity|]. split; [vm_compute; reflexivity|].
    split; [vm_compute; reflexivity|].
    split; [|exact H101].
    unfold gap. cbn [Point.position Examples.point fst snd]. rewrite Hfar, Hfar', H0.
    replace ((9007199254740992 - 9007199254741092) * (9007199254740992 - 9007199254741092)
             + (0 - 0) * (0 - 0))%R with (100 * 100)%R by lra.
    rewrite sqrt_square by lra. done.
  - exists (Stick.mk 0 1 100%float), (Examples.point 0 0 true),
      (Examples.point 0x1p-600 0 false),
      (Point.mk (nan, nan) false (0x1p-600%float, 0%float)).
    split; [reflexivity|]. split; [reflexivity|]. split; [reflexivity|].
    split; [reflexivity|]. split; [reflexivity|].
    split; [unfold near_chain; written_wf|].
    split; [split; [each_stick|by_decision]|].
    split; [unfold deep_ends_free; each_stick|].
    split.
    { unfold usable. cbn [Stick.length]. rewrite H100. repeat split; lra. }
    split.
    { unfold in_box. cbn [Point.position Examples.point fst snd]. rewrite H0.
      repeat split; lra. }
    split.
    { unfold in_box. cbn [Point.position Examples.point fst snd]. rewrite H0.
      repeat split; lra. }
    split.
    { cbn [Point.position Examples.point]. intros Heq. apply (f_equal fst) in Heq.
      revert Heq. apply float_neq; vm_compute; reflexivity. }
    split.
    { unfold gap. cbn [Point.position Examples.point fst snd]. rewrite H0.
      apply sqrt_lt_R0. nra. }
    split; [vm_compute; reflexivity|]. split; [vm_compute; reflexivity|].
    reflexivity.
Qed.

End LengthChecks.

(** ** A screen at rest is a fixed point *)

Section AtRest.
#[local] Open Scope R_scope.

Lemma set_position_same (s : Screen.t R) i p v :
  Screen.points s !! i = Some p → Point.position p = v → set_position i v s = s.
Proof.
  intros Hi <-. destruct s as [points sticks temp moving]. unfold set_position. simpl in *.
  f_equal. apply list_eq. intros k. destruct (decide (i = k)) as [->|Hne].
  - rewrite list_lookup_alter_eq, Hi. simpl. by destruct p.
  - by rewrite list_lookup_alter_ne.
Qed.

Lemma at_rest_snapped (s : Screen.t R) si stick letter joint prevJoint :
  at_rest s → Screen.sticks s !! si = Some stick →
  Screen.points s !! endpoint letter stick = Some joint →
  Screen.points s !! endpoint (other letter) stick = Some prevJoint →
  snapped joint prevJoint (Stick.length stick) = Point.position joint.
Proof.
  intros Hrest Hsi Hj Hp. unfold at_rest in Hrest. rewrite Forall_lookup in Hrest.
  destruct (Hrest si stick Hsi) as (Hlen & pa & pb & Ha & Hb & Hd).
  apply snapped_at_rest; [|done].
  destruct letter; cbn [endpoint other] in *.
  - congruence.
  - rewrite distance_sym. congruence.
Qed.

Lemma calculate_joint_at_rest depth si letter (s : Screen.t R) :
  at_rest s → (calculate_joint depth si letter s).1 = s.
Proof.
  intros Hrest. revert si letter.
  induction depth as [|depth IH]; intros si letter; [done|].
  rewrite calculate_joint_S.
  destruct (Screen.sticks s !! si) as [stick|] eqn:Hsi; [|done].
  destruct (Screen.points s !! endpoint letter stick) as [joint|] eqn:Hj; [|done].
  destruct (Point.locked joint); [done|].
  destruct (Screen.points s !! endpoint (other letter) stick) as [prevJoint|] eqn:Hp; [|done].
  rewrite (set_position_same s _ joint) by (done || (symmetry; by eapply at_rest_snapped)).
  unfold follow. repeat case_match; done.
Qed.

Lemma and_then_same (o : Outcome R) k s :
  o.1 = s → (k s).1 = s → (o >>> k).1 = s.
Proof. unfold and_then. intros Ho Hk. destruct o as [s1 []]; simpl in *; congruence. Qed.

Lemma sweep_at_rest depth l (s : Screen.t R) :
  at_rest s → (sweep depth l s).1 = s.
Proof.
  intros Hrest. induction l as [|e l IH]; [done|]. simpl.
  apply and_then_same; [|done]. unfold sweep_step.
  repeat case_match; try done; by apply calculate_joint_at_rest.
Qed.

Lemma sweeps_at_rest n depth (s : Screen.t R) :
  at_rest s → (sweeps n depth s).1 = s.
Proof.
  intros Hrest. induction n as [|n IH]; [done|]. simpl.
  apply and_then_same; [by apply sweep_at_rest|done].
Qed.

(** C7, as the code has it.  In exact arithmetic a screen on which every
    stick has its stored length, and none has length zero, is a fixed point
    of the solver: [simulate_frame] leaves it as it is.  So a second call
    changes nothing when the first one ended at rest; in general it does
    not end there. *)
Theorem at_rest_is_fixed_point (depth : nat) (s : Screen.t R) :
  at_rest s → (simulate_frame depth s).1 = s.
Proof. intros Hrest. by apply sweeps_at_rest. Qed.

End AtRest.


Section AtRestChecks.
Import PrimFloat.

Lemma at_rest_is_fixed_point_witness :
  (simulate_frame recursionlimit ExactExamples.chain_at_rest).1 =
  ExactExamples.chain_at_rest.
Proof.
  apply (at_rest_is_fixed_point recursionlimit ExactExamples.chain_at_rest).
  unfold at_rest. each_stick.
  - split; [simpl; lra|]. eexists _, _. split; [reflexivity|]. split; [reflexivity|].
    cbv [Point.position Stick.length ExactExamples.dragged].
    rewrite distance_on_line by lra. lra.
  - split; [simpl; lra|]. eexists _, _. split; [reflexivity|]. split; [reflexivity|].
    cbv [Point.position Stick.length].
    rewrite distance_on_line by lra. lra.
Defined.

(** [ExactExamples.chain_at_rest] is where a first call leaves the chain
    whose anchor was dragged. *)
Lemma chain_comes_to_rest :
  simulate_frame recursionlimit ExactExamples.chain = (ExactExamples.chain_at_rest, Returned).
Proof. apply chain_run. Qed.

(** C7 as stated fails on the braced line of four points: a second call
    right after the first moves the two free points again, from 340 and 100
    to 660 and 420 (a sweep takes them round a cycle of three screens, and a
    call is ten sweeps).  This is so in exact arithmetic, on
    [ExactExamples.braced], and in float64, on [Examples.braced], where all
    coordinates in these calls are whole numbers; no direction is of length
    zero. *)
Lemma second_call_moves :
  (simulate_frame recursionlimit ExactExamples.braced =
     (ExactExamples.braced_once, Returned) ∧
   simulate_frame recursionlimit ExactExamples.braced_once =
     (ExactExamples.braced_twice, Returned) ∧
   ExactExamples.braced_once ≠ ExactExamples.braced_twice) ∧
  (∃ first second,
     simulate_frame recursionlimit Examples.braced = (first, Returned) ∧
     simulate_frame recursionlimit first = (second, Returned) ∧
     Point.position <$> Screen.points first !! 1 = Some (340, 300)%float ∧
     Point.position <$> Screen.points second !! 1 = Some (660, 300)%float ∧
     Point.position <$> Screen.points first !! 3 = Some (100, 300)%float ∧
     Point.position <$> Screen.points second !! 3 = Some (420, 300)%float ∧
     first ≠ second).
Proof.
  split.
  - split; [apply braced_run|]. split; [apply braced_once_run|].
    intros [= Hx _]. lra.
  - eexists _, _.
    split; [vm_compute; reflexivity|].
    split; [vm_compute; reflexivity|].
    split; [reflexivity|]. split; [reflexivity|].
    split; [reflexivity|]. split; [reflexivity|].
    intros Heq.
    apply (f_equal (λ s, (λ p, PrimFloat.eqb (Point.position p).1 340)
                           <$> Screen.points s !! 1)) in Heq.
    vm_compute in Heq. discriminate.
Qed.

End AtRestChecks.

(** ** Making sticks *)

Section Creation.
Context {F : Type} `{Scalar F}.

Lemma release_sticks x y (s : Screen.t F) :
  Screen.sticks (release x y s).1 = Screen.sticks s ∨
  ∃ t i len, t ≠ i ∧ Screen.sticks (release x y s).1 = Screen.sticks s ++ [Stick.mk t i len].
Proof.
  unfold release.
  destruct (Screen.moving_point s); [by left|].
  destruct (first_near x y 0 (Screen.points s)) as [i|]; [|by left].
  case_decide as Htemp; [by left|].
  destruct (Screen.tempPoint s) as [t|]; [|by left].
  unfold create_stick.
  destruct (Screen.points s !! t) as [pa|]; [|by left].
  destruct (Screen.points s !! i) as [pb|]; [|by left].
  right. exists t, i, (distance (asub (Point.position pa) (Point.position pb))).
  split; [congruence|done].
Qed.


(** No handler takes a stick away or changes one: the sticks a screen has
    are the first sticks of every later screen. *)
Lemma handle_sticks depth e (s : Screen.t F) :
  Screen.sticks s `prefix_of` Screen.sticks (handle depth e s).
Proof.
  destruct e as [x y|x y|x y]; simpl.
  - unfold click. by case_match.
  - unfold drag. simpl. repeat case_match; try done.
    unfold simulate_frame.
    by destruct (sweeps_frame Config.STICK_ITERATIONS depth
                   (set_position n (of_int x, of_int y)
                      (Screen.mk (Screen.points s) (Screen.sticks s) (Screen.tempPoint s)
                         (Some n)))) as (-> & _).
  - destruct (release_sticks x y s) as [->|(t & i & len & _ & ->)]; [done|].
    by apply prefix_app_r.
Qed.

Lemma mainloop_sticks depth events (s : Screen.t F) :
  Screen.sticks s `prefix_of` Screen.sticks (mainloop depth events s).
Proof.
  revert s. induction events as [|e events IH]; intros s; [done|].
  simpl. etrans; [apply (handle_sticks depth e)|apply IH].
Qed.

End Creation.


Section CreationChecks.
Import PrimFloat.



(** C8 as stated fails for two points at the same place: on
    [Examples.meeting], where the solver has put the free end of a stick on
    another free point, a release of the button on the two makes
    [create_stick] append a stick between them that has length zero, which
    is not positive.  The same holds in exact arithmetic, on
    [ExactExamples.meeting]. *)
Lemma zero_length_stick :
  (∃ stick,
     release 300 100 Examples.meeting = create_stick 2 0 Examples.meeting ∧
     create_stick 2 0 Examples.meeting =
       (Screen.mk (Screen.points Examples.meeting)
          (Screen.sticks Examples.meeting ++ [stick]) (Some 2) None, Returned) ∧
     Point.position <$> Screen.points Examples.meeting !! 2 = Some (300, 100)%float ∧
     Point.position <$> Screen.points Examples.meeting !! 0 = Some (300, 100)%float ∧
     Stick.length stick = 0%float ∧
     PrimFloat.ltb 0 (Stick.length stick) = false) ∧
  (∃ stick,
     create_stick 2 0 ExactExamples.meeting =
       (Screen.mk (Screen.points ExactExamples.meeting)
          (Screen.sticks ExactExamples.meeting ++ [stick]) (Some 2) None, Returned) ∧
     Stick.length stick = 0%R ∧
     ¬ (0 < Stick.length stick)%R).
Proof.
  split.
  - eexists. split; [vm_compute; reflexivity|]. split; [reflexivity|].
    split; [reflexivity|]. split; [reflexivity|]. split; reflexivity.
  - eexists. split; [reflexivity|].
    cbn [Stick.length].
    assert (distance (asub (300, 100)%R (300, 100)%R) = 0%R) as Hzero.
    { by apply distance_zero. }
    cbv [Point.position ExactExamples.point]. rewrite Hzero. split; [done|lra].
Qed.

End CreationChecks.

(** ** A joint on its anchor, in float64 *)

Section Degenerate.
Import PrimFloat.

Lemma mul_nan (x : float) : PrimFloat.mul nan x = nan.
Proof.
  rewrite <- (FloatAxioms.SF2Prim_Prim2SF (PrimFloat.mul nan x)), FloatAxioms.mul_spec.
  reflexivity.
Qed.

Lemma add_nan (x : float) : PrimFloat.add x nan = nan.
Proof.
  rewrite <- (FloatAxioms.SF2Prim_Prim2SF (PrimFloat.add x nan)), FloatAxioms.add_spec.
  change (FloatOps.Prim2SF nan) with SpecFloat.S754_nan.
  by destruct (FloatOps.Prim2SF x) as [[]|[]| |].
Qed.

(** A float minus itself is zero, or not a number (when the float is
    infinite or not a number itself). *)
Lemma sub_self (x : float) : PrimFloat.sub x x = zero ∨ PrimFloat.sub x x = nan.
Proof.
  rewrite <- (FloatAxioms.SF2Prim_Prim2SF (PrimFloat.sub x x)), FloatAxioms.sub_spec.
  destruct (FloatOps.Prim2SF x) as [[]|[]| |s m e]; auto.
  left. unfold FloatAxioms.SF64sub, SpecFloat.SFsub. by rewrite Z.sub_diag.
Qed.

(** The position written to a joint that is where the other end is. *)
Lemma snapped_coincident (joint prevJoint : Point.t float) (length : float) :
  Point.position joint = Point.position prevJoint →
  snapped joint prevJoint length = (nan, nan).
Proof.
  intros Hsame. unfold snapped, aadd, amul, adiv, distance, asub. rewrite <- Hsame.
  destruct (Point.position joint) as [x y]. cbn [fst snd fadd fsub fmul fdiv fsqrt float64].
  destruct (sub_self x) as [-> | ->], (sub_self y) as [-> | ->];
    match goal with
    | |- (PrimFloat.add _ (PrimFloat.mul ?d _), PrimFloat.add _ (PrimFloat.mul ?d' _)) = _ =>
        change d with nan; change d' with nan
    end;
    by rewrite !mul_nan, !add_nan.
Qed.

(** C4, as the code has it.  When the joint is where the other end of the
    stick is, [calculate_joint] reports nothing: it divides by the zero
    distance, writes the outcome, which is not a number in either
    coordinate, to the joint, and goes on with the loop over the other
    sticks. *)
Theorem coincident_joint_gets_nan (depth si : nat) (letter : Letter) (s : Screen.t float)
    (stick : Stick.t float) (joint prevJoint : Point.t float) :
  Screen.sticks s !! si = Some stick →
  Screen.points s !! endpoint letter stick = Some joint →
  Point.locked joint = false →
  Screen.points s !! endpoint (other letter) stick = Some prevJoint →
  Point.position joint = Point.position prevJoint →
  calculate_joint (S depth) si letter s =
  next_loop (calculate_joint depth) (endpoint letter stick) (others si (Screen.sticks s))
    (set_position (endpoint letter stick) (nan, nan) s).
Proof.
  intros Hsi Hj Hfree Hp Hsame.
  rewrite <- (snapped_coincident joint prevJoint (Stick.length stick) Hsame).
  simpl. by rewrite Hsi, Hj, Hfree, Hp.
Qed.

Lemma coincident_joint_gets_nan_witness :
  calculate_joint recursionlimit 0 B Examples.coincident =
  next_loop (calculate_joint 999) 1 (others 0 (Screen.sticks Examples.coincident))
    (set_position 1 (nan, nan) Examples.coincident).
Proof.
  exact (coincident_joint_gets_nan 999 0 B Examples.coincident (Stick.mk 0 1 100%float)
           (Examples.point 200 100 false) (Examples.dragged 200 100 100 100)
           eq_refl eq_refl eq_refl eq_refl eq_refl).
Defined.

(** C4 as stated fails on [Examples.coincident]: the call returns as any
    other, and the joint, which was at [(200, 100)], is left with
    coordinates that are not numbers. *)
Lemma degenerate_goes_unreported :
  calculate_joint recursionlimit 0 B Examples.coincident =
    (Examples.screen
       [Examples.dragged 200 100 100 100; Point.mk (nan, nan) false (200, 100)%float]
       (Screen.sticks Examples.coincident), Returned) ∧
  simulate_frame recursionlimit Examples.coincident =
    (Examples.screen
       [Examples.dragged 200 100 100 100; Point.mk (nan, nan) false (200, 100)%float]
       (Screen.sticks Examples.coincident), Returned).
Proof. split; vm_compute; reflexivity. Qed.

End Degenerate.

(** ** The length of a new stick, in float64 *)

Section CreationFloat.
Import PrimFloat.

Lemma add_nan_l (x : float) : PrimFloat.add nan x = nan.
Proof.
  rewrite <- (FloatAxioms.SF2Prim_Prim2SF (PrimFloat.add nan x)), FloatAxioms.add_spec.
  reflexivity.
Qed.

(** A square root is not less than zero: it is zero, greater, or NaN. *)
Lemma sqrt_not_negative (x : float) : PrimFloat.ltb (PrimFloat.sqrt x) zero = false.
Proof.
  rewrite FloatAxioms.ltb_spec, FloatAxioms.sqrt_spec.
  change (FloatOps.Prim2SF zero) with (SpecFloat.S754_zero false).
  unfold FloatAxioms.SF64sqrt, SpecFloat.SFsqrt.
  destruct (FloatOps.Prim2SF x) as [[]|[]| |[] m e]; try reflexivity.
  destruct (SpecFloat.SFsqrt_core_binary _ _ _ _) as [[mz ez] lz].
  unfold SpecFloat.binary_round_aux.
  destruct (SpecFloat.shr_fexp _ _ mz ez lz) as [mrs' e'].
  destruct (SpecFloat.shr_fexp _ _ _ e' _) as [mrs'' e''].
  destruct (SpecFloat.shr_m mrs''); [reflexivity| |reflexivity].
  by destruct (Z.leb _ _).
Qed.

(** The distance of a place to itself is zero, or NaN when a coordinate is
    infinite or NaN. *)
Lemma distance_self (v : array float) :
  distance (asub v v) = zero ∨ distance (asub v v) = nan.
Proof.
  destruct v as [x y]. unfold distance, asub.
  cbn [fst snd fadd fsub fmul fsqrt float64].
  destruct (sub_self x) as [-> | ->], (sub_self y) as [-> | ->].
  - left. reflexivity.
  - right. by rewrite mul_nan, add_nan.
  - right. by rewrite mul_nan, add_nan_l.
  - right. by rewrite mul_nan, add_nan.
Qed.

(** C8, as the code has it.  The stick [create_stick] appends has as its
    length the distance of its two ends at that moment, as float64 gives it.
    That length is not less than zero: it is greater than zero, zero or NaN,
    and for two ends at the same place it is zero or NaN.  Nothing changes it
    afterwards: the solver leaves the sticks as they are, and after any run
    of pointer events the sticks of now are still the first sticks of the
    screen. *)
Theorem new_stick_length (a b : nat) (s : Screen.t float) (pa pb : Point.t float)
    (depth : nat) (events : list Event) :
  Screen.points s !! a = Some pa →
  Screen.points s !! b = Some pb →
  ∃ stick,
    Screen.sticks (create_stick a b s).1 = Screen.sticks s ++ [stick] ∧
    Stick.pointA stick = a ∧ Stick.pointB stick = b ∧
    Stick.length stick = distance (asub (Point.position pa) (Point.position pb)) ∧
    PrimFloat.ltb (Stick.length stick) zero = false ∧
    (Point.position pa = Point.position pb →
     Stick.length stick = zero ∨ Stick.length stick = nan) ∧
    Screen.sticks (simulate_frame depth (create_stick a b s).1).1 =
      Screen.sticks (create_stick a b s).1 ∧
    Screen.sticks (create_stick a b s).1 `prefix_of`
      Screen.sticks (mainloop depth events (create_stick a b s).1).
Proof.
  intros Ha Hb. eexists. split.
  { unfold create_stick. rewrite Ha, Hb. reflexivity. }
  cbn [Stick.pointA Stick.pointB Stick.length].
  split; [done|]. split; [done|]. split; [done|].
  split; [apply sqrt_not_negative|]. split; [intros ->; apply distance_self|].
  split; [|apply mainloop_sticks].
  apply (sweeps_frame Config.STICK_ITERATIONS depth).
Qed.

Lemma new_stick_length_witness :
  ∃ stick,
    Screen.sticks (create_stick 0 2 Examples.chain).1 =
      Screen.sticks Examples.chain ++ [stick] ∧
    Stick.pointA stick = 0 ∧ Stick.pointB stick = 2 ∧
    Stick.length stick = distance (asub (50, 100)%float (300, 100)%float) ∧
    PrimFloat.ltb (Stick.length stick) zero = false ∧
    ((50, 100)%float = (300, 100)%float →
     Stick.length stick = zero ∨ Stick.length stick = nan) ∧
    Screen.sticks (simulate_frame recursionlimit (create_stick 0 2 Examples.chain).1).1 =
      Screen.sticks (create_stick 0 2 Examples.chain).1 ∧
    Screen.sticks (create_stick 0 2 Examples.chain).1 `prefix_of`
      Screen.sticks (mainloop recursionlimit [Motion 50 100; ButtonRelease 50 100]
                       (create_stick 0 2 Examples.chain).1).
Proof.
  exact (new_stick_length 0 2 Examples.chain (Examples.dragged 50 100 100 100)
           (Examples.point 300 100 false) recursionlimit
           [Motion 50 100; ButtonRelease 50 100] eq_refl eq_refl).
Defined.

(** A length that is NaN comes up in the program: a free point is
    remembered, the anchor of its stick is dragged onto it, which leaves it
    with NaN for coordinates, and a release of the button on a third point
    connects the two. *)
Lemma nan_stick_reached :
  ∃ sticks,
    Screen.sticks
      (mainloop recursionlimit
         (Examples.make_point 100 100 ++ Examples.make_point 200 100 ++
          Examples.make_point 300 300 ++ Examples.connect 100 100 200 100 ++
          Examples.toggle 100 100 ++ Examples.toggle 200 100 ++ Examples.toggle 200 100 ++
          [ButtonPress 80 100; Motion 90 100; Motion 190 100; ButtonRelease 190 100] ++
          [ButtonPress 500 500; ButtonRelease 300 300])
         (pantalla : Screen.t float)) = sticks ++ [Stick.mk 1 2 nan].
Proof. exists [Stick.mk 0 1 100%float]. vm_compute. reflexivity. Qed.

End CreationFloat.

(** ** The pointer handlers, one by one *)

Section Pointer.
Context {F : Type} `{Scalar F}.

(** What [first_near] finds is the first point the pointer is on. *)
Lemma first_near_Some x y i (l : list (Point.t F)) n :
  first_near x y i l = Some n →
  i ≤ n ∧
  (∃ p, l !! (n - i) = Some p ∧ near x y p = true) ∧
  ∀ m q, i ≤ m < n → l !! (m - i) = Some q → near x y q = false.
Proof.
  revert i. induction l as [|p l IH]; intros i; simpl; [done|].
  destruct (near x y p) eqn:Hp.
  - intros [= <-]. split; [lia|]. split; [|intros m q Hm; lia].
    exists p. by rewrite Nat.sub_diag.
  - intros Hn. destruct (IH _ Hn) as (Hle & (p' & Hl & Hnear) & Hmin).
    split; [lia|]. split.
    + exists p'. split; [|done]. replace (n - i) with (S (n - S i)) by lia. done.
    + intros m q Hm Hq. destruct (decide (m = i)) as [->|Hne].
      * rewrite Nat.sub_diag in Hq. simpl in Hq. congruence.
      * apply (Hmin m q); [lia|].
        replace (m - i) with (S (m - S i)) in Hq by lia. done.
Qed.

Lemma first_near_None x y i (l : list (Point.t F)) :
  first_near x y i l = None → ∀ m q, l !! m = Some q → near x y q = false.
Proof.
  revert i. induction l as [|p l IH]; intros i; simpl; [done|].
  destruct (near x y p) eqn:Hp; [done|].
  intros Hn [|m] q Hq; simpl in Hq; [congruence|]. by eapply IH.
Qed.

(** Past the points the pointer is not on, the scan goes on. *)
Lemma first_near_app x y i (l l' : list (Point.t F)) :
  first_near x y i l = None →
  first_near x y i (l ++ l') = first_near x y (i + length l) l'.
Proof.
  revert i. induction l as [|p l IH]; intros i; simpl.
  - intros _. by rewrite Nat.add_0_r.
  - destruct (near x y p); [done|]. intros Hn. rewrite IH by done. f_equal. lia.
Qed.

(** The scan looks at positions only. *)
Lemma first_near_positions x y i (l l' : list (Point.t F)) :
  Point.position <$> l = Point.position <$> l' →
  first_near x y i l = first_near x y i l'.
Proof.
  revert i l'. induction l as [|p l IH]; intros i [|p' l']; simpl; try done.
  intros [= Hp Hl]. unfold near. rewrite Hp. by rewrite (IH (S i) l').
Qed.

(** What the loop of [drag] leaves in [moving_point]: the last locked point
    the pointer is on, or what was there when there is none. *)
Lemma drag_loop_last x y i (l : list (Point.t F)) moving :
  (∃ n p, drag_loop x y i l moving = Some n ∧ i ≤ n ∧
     l !! (n - i) = Some p ∧ near x y p = true ∧ Point.locked p = true ∧
     ∀ m q, n < m → l !! (m - i) = Some q → near x y q && Point.locked q = false) ∨
  (drag_loop x y i l moving = moving ∧
     ∀ m q, l !! m = Some q → near x y q && Point.locked q = false).
Proof.
  revert i moving. induction l as [|p l IH]; intros i moving; simpl.
  { right. done. }
  destruct (IH (S i) (if near x y p && Point.locked p then Some i else moving))
    as [(n & p' & Hn & Hle & Hl & Hnear & Hlk & Hlast)|[Hn Hnone]].
  - left. exists n, p'. split; [done|]. split; [lia|].
    replace (n - i) with (S (n - S i)) by lia. split; [done|]. split; [done|].
    split; [done|]. intros m q Hm Hq. apply (Hlast m q); [done|].
    replace (m - i) with (S (m - S i)) in Hq by lia. done.
  - destruct (near x y p && Point.locked p) eqn:Hp.
    + left. exists i, p. rewrite Nat.sub_diag. split; [done|]. split; [done|].
      split; [done|]. apply andb_true_iff in Hp as [Hnear Hlk].
      split; [done|]. split; [done|]. intros m q Hm Hq.
      replace (m - i) with (S (m - S i)) in Hq by lia. by eapply Hnone.
    + right. split; [done|]. intros [|m] q Hq; simpl in Hq; [congruence|].
      by eapply Hnone.
Qed.

(** A lock toggled twice is as it was. *)
Lemma toggle_locked_twice i (s : Screen.t F) : toggle_locked i (toggle_locked i s) = s.
Proof.
  destruct s as [points sticks temp moving]. unfold toggle_locked. simpl. f_equal.
  apply list_eq. intros k. destruct (decide (i = k)) as [->|Hne].
  - rewrite !list_lookup_alter_eq. destruct (points !! k) as [[v b w]|]; [|done].
    simpl. by rewrite negb_involutive.
  - by rewrite !list_lookup_alter_ne.
Qed.

Lemma toggle_locked_positions i (s : Screen.t F) :
  Point.position <$> Screen.points (toggle_locked i s) = Point.position <$> Screen.points s.
Proof.
  unfold toggle_locked. simpl. apply list_eq. intros k. rewrite !list_lookup_fmap.
  destruct (decide (i = k)) as [->|Hne].
  - rewrite list_lookup_alter_eq. by destruct (Screen.points s !! k).
  - by rewrite list_lookup_alter_ne.
Qed.

(** What one event does to a point that is there: it stays where it is in
    the list and keeps its [prevPosition]; a press changes nothing of it, a
    motion not its lock, a release not its position. *)
Lemma handle_point depth e (s : Screen.t F) i p :
  Screen.points s !! i = Some p →
  ∃ p', Screen.points (handle depth e s) !! i = Some p' ∧
    Point.prevPosition p' = Point.prevPosition p ∧
    match e with
    | ButtonPress _ _ => p' = p
    | Motion x y =>
        Point.locked p' = Point.locked p ∧
        (Point.locked p = true →
         Point.position p' = Point.position p ∨ Point.position p' = (of_int x, of_int y))
    | ButtonRelease _ _ => Point.position p' = Point.position p
    end.
Proof.
  intros Hi. destruct e as [x y|x y|x y]; simpl.
  - exists p. unfold click. by case_match.
  - unfold drag. simpl.
    destruct (drag_loop x y 0 (Screen.points s) (Screen.moving_point s)) as [m|];
      [|exists p; auto].
    destruct (Screen.points s !! m) as [pm|] eqn:Hm; [|exists p; auto].
    set (s1 := Screen.mk (Screen.points s) (Screen.sticks s) (Screen.tempPoint s) (Some m)).
    set (s2 := set_position m (of_int x, of_int y) s1).
    assert (∃ p2, Screen.points s2 !! i = Some p2 ∧
              Point.prevPosition p2 = Point.prevPosition p ∧
              Point.locked p2 = Point.locked p ∧
              (Point.position p2 = Point.position p ∨
               Point.position p2 = (of_int x, of_int y))) as (p2 & Hp2 & Hprev & Hlk & Hpos).
    { unfold s2, set_position. simpl. destruct (decide (m = i)) as [->|Hne].
      - rewrite list_lookup_alter_eq, Hi. simpl. eexists. split; [done|]. simpl. auto.
      - rewrite list_lookup_alter_ne by done. exists p. auto. }
    destruct (sweeps_frame Config.STICK_ITERATIONS depth s2) as (_ & _ & _ & _ & Hfr).
    destruct (Hfr i p2 Hp2) as (p' & Hp' & Hlk' & Hprev' & Hpos').
    exists p'. split; [done|]. split; [congruence|]. split; [congruence|].
    intros Hlocked. rewrite Hpos' by congruence. done.
  - unfold release. destruct (Screen.moving_point s); [exists p; auto|].
    destruct (first_near x y 0 (Screen.points s)) as [j|].
    + case_decide.
      * unfold toggle_locked. simpl. destruct (decide (j = i)) as [->|Hne].
        -- rewrite list_lookup_alter_eq, Hi. simpl. eexists. split; [done|]. auto.
        -- rewrite list_lookup_alter_ne by done. exists p. auto.
      * destruct (Screen.tempPoint s) as [t|]; [|exists p; auto].
        unfold create_stick. repeat case_match; exists p; auto.
    + simpl. exists p. split; [|auto]. by apply lookup_app_l_Some.
Qed.

(** The point [drag] moves is a locked one, on a screen where the point
    being moved, if any, is a locked one. *)
Definition grip (s : Screen.t F) : Prop :=
  ∀ m, Screen.moving_point s = Some m →
    ∃ p, Screen.points s !! m = Some p ∧ Point.locked p = true.

Lemma grip_pantalla : grip (pantalla : Screen.t F).
Proof. intros m Hm. done. Qed.

Lemma drag_loop_grip x y (s : Screen.t F) m :
  grip s → drag_loop x y 0 (Screen.points s) (Screen.moving_point s) = Some m →
  ∃ p, Screen.points s !! m = Some p ∧ Point.locked p = true.
Proof.
  intros Hg Hm.
  destruct (drag_loop_last x y 0 (Screen.points s) (Screen.moving_point s))
    as [(n & p & Hn & _ & Hl & _ & Hlk & _)|[Hn _]].
  - rewrite Nat.sub_0_r in Hl. exists p. split; [congruence|done].
  - apply Hg. congruence.
Qed.

Lemma handle_grip depth e (s : Screen.t F) : grip s → grip (handle depth e s).
Proof.
  intros Hg. destruct e as [x y|x y|x y]; simpl.
  - unfold click. by case_match.
  - unfold drag. simpl.
    destruct (drag_loop x y 0 (Screen.points s) (Screen.moving_point s)) as [m|] eqn:Hm;
      [|by intros ?].
    destruct (drag_loop_grip x y s m Hg Hm) as (pm & Hpm & Hlk). rewrite Hpm.
    set (s2 := set_position m (of_int x, of_int y) _).
    destruct (sweeps_frame Config.STICK_ITERATIONS depth s2) as (_ & _ & Hmov & _ & Hfr).
    intros m'. unfold simulate_frame. rewrite Hmov. simpl. intros [= <-].
    destruct (Hfr m (Point.mk (of_int x, of_int y) true (Point.prevPosition pm)))
      as (p' & Hp' & Hlk' & _).
    { unfold s2, set_position. simpl. rewrite list_lookup_alter_eq, Hpm. simpl.
      by rewrite Hlk. }
    exists p'. done.
  - assert (∀ s' : Screen.t F, Screen.moving_point s' = None → grip s') as Hnone.
    { intros s' Hs' m. by rewrite Hs'. }
    apply Hnone. unfold release. destruct (Screen.moving_point s) eqn:Hmov; [done|].
    destruct (first_near x y 0 (Screen.points s)) as [j|]; [|done].
    case_decide; [done|]. destruct (Screen.tempPoint s) as [t|]; [|done].
    unfold create_stick. repeat case_match; done.
Qed.

Lemma mainloop_grip depth events (s : Screen.t F) : grip s → grip (mainloop depth events s).
Proof.
  revert s. induction events as [|e events IH]; intros s Hg; [done|].
  simpl. apply IH. by apply handle_grip.
Qed.

(** No stick from a point to itself. *)
Definition proper (s : Screen.t F) : Prop :=
  Forall (λ stick, Stick.pointA stick ≠ Stick.pointB stick) (Screen.sticks s).

Lemma handle_proper depth e (s : Screen.t F) : proper s → proper (handle depth e s).
Proof.
  intros Hp. unfold proper. destruct e as [x y|x y|x y]; simpl.
  - unfold click. by case_match.
  - unfold drag. simpl. repeat case_match; try done.
    unfold simulate_frame.
    by destruct (sweeps_frame Config.STICK_ITERATIONS depth
                   (set_position n (of_int x, of_int y)
                      (Screen.mk (Screen.points s) (Screen.sticks s) (Screen.tempPoint s)
                         (Some n)))) as (-> & _).
  - destruct (release_sticks x y s) as [->|(t & i & len & Hne & ->)]; [done|].
    apply Forall_app. split; [done|]. by apply Forall_singleton.
Qed.

Lemma mainloop_proper depth events (s : Screen.t F) :
  proper s → proper (mainloop depth events s).
Proof.
  revert s. induction events as [|e events IH]; intros s Hp; [done|].
  simpl. apply IH. by apply handle_proper.
Qed.

(** On a well-formed screen no handler meets a reference to nothing. *)
Lemma handlers_refer depth x y (s : Screen.t F) :
  wf s →
  (click x y s).2 = Returned ∧
  (drag depth x y s).2 ≠ Dangling ∧
  (release x y s).2 = Returned.
Proof.
  intros Hwf. pose proof Hwf as (Hst & Htp & Hmp). split; [|split].
  - unfold click. by case_match.
  - unfold drag. simpl.
    destruct (drag_loop x y 0 (Screen.points s) (Screen.moving_point s)) as [m|] eqn:Hm;
      [|done].
    assert (m < length (Screen.points s)) as Hlt.
    { apply drag_loop_lt in Hm as [Hm|Hm]; [by apply Hmp|lia]. }
    destruct (lookup_lt_is_Some_2 _ _ Hlt) as [pm ->].
    apply sweeps_refer. apply wf_set_position. split; [done|]. split; [done|].
    simpl. by intros ? [= <-].
  - unfold release. destruct (Screen.moving_point s); [done|].
    destruct (first_near x y 0 (Screen.points s)) as [j|] eqn:Hj; [|done].
    case_decide; [done|]. destruct (Screen.tempPoint s) as [t|] eqn:Ht; [|done].
    unfold create_stick.
    destruct (lookup_lt_is_Some_2 (Screen.points s) t (Htp t eq_refl)) as [pa ->].
    apply first_near_lt in Hj.
    destruct (lookup_lt_is_Some_2 (Screen.points s) j) as [pb ->]; [lia|done].
Qed.

End Pointer.

Section PointerProperties.
Context {F : Type} `{Scalar F}.

(** X1.  Whatever the run of pointer events from the empty screen, every
    reference the screen holds is to one of its points: the two ends of every
    stick, the remembered point and the point being moved are in [points].
    So no handler called next meets a reference to nothing: [click] and
    [release] return, and [drag] returns or runs out of stack in the
    solver. *)
Theorem reached_screens_are_well_formed (depth : nat) (events : list Event) (x y : Z) :
  wf (mainloop depth events (pantalla : Screen.t F)) ∧
  (click x y (mainloop depth events (pantalla : Screen.t F))).2 = Returned ∧
  ((drag depth x y (mainloop depth events (pantalla : Screen.t F))).2 = Returned ∨
   (drag depth x y (mainloop depth events (pantalla : Screen.t F))).2 = RecursionError) ∧
  (release x y (mainloop depth events (pantalla : Screen.t F))).2 = Returned.
Proof.
  pose proof (mainloop_wf depth events pantalla wf_pantalla) as Hwf.
  destruct (handlers_refer depth x y _ Hwf) as (Hc & Hd & Hr).
  split; [done|]. split; [done|]. split; [|done].
  destruct (drag depth x y _).2; auto. done.
Qed.

(** X2.  Whatever the run of pointer events from the empty screen, every
    stick of the screen joins two different points. *)
Theorem reached_sticks_join_two_points (depth : nat) (events : list Event) :
  Forall (λ stick : Stick.t F, Stick.pointA stick ≠ Stick.pointB stick)
    (Screen.sticks (mainloop depth events (pantalla : Screen.t F))).
Proof. apply (mainloop_proper depth events pantalla). constructor. Qed.

(** X3.  Whatever the run of pointer events from the empty screen, the point
    being moved, when there is one, is a locked point: a point that is not
    locked is never given the pointer's position. *)
Theorem moving_point_is_locked (depth : nat) (events : list Event) (m : nat) :
  Screen.moving_point (mainloop depth events (pantalla : Screen.t F)) = Some m →
  ∃ p, Screen.points (mainloop depth events (pantalla : Screen.t F)) !! m = Some p ∧
    Point.locked p = true.
Proof. apply (mainloop_grip depth events pantalla grip_pantalla). Qed.

(** X4.  No run of pointer events takes a point away, moves it in the list
    or changes its [prevPosition]: the point with index [i] is still there
    with the [prevPosition] it had. *)
Theorem prevPosition_never_changes (depth : nat) (events : list Event) (s : Screen.t F)
    (i : nat) (p : Point.t F) :
  Screen.points s !! i = Some p →
  ∃ p', Screen.points (mainloop depth events s) !! i = Some p' ∧
    Point.prevPosition p' = Point.prevPosition p.
Proof.
  revert s p. induction events as [|e events IH]; intros s p Hi; [by exists p|].
  destruct (handle_point depth e s i p Hi) as (p1 & Hp1 & Hprev & _).
  destruct (IH _ p1 Hp1) as (p' & Hp' & Hprev'). exists p'. split; [done|]. congruence.
Qed.

(** X5.  [click] returns and changes nothing but [tempPoint]: it remembers
    the first point, in the order the points were made, that is less than
    [Config.POINT_SIZE] from the pointer; with no such point the screen is
    as it was, the point remembered before included. *)
Theorem click_remembers_first_point (x y : Z) (s : Screen.t F) :
  (click x y s).2 = Returned ∧
  Screen.points (click x y s).1 = Screen.points s ∧
  Screen.sticks (click x y s).1 = Screen.sticks s ∧
  Screen.moving_point (click x y s).1 = Screen.moving_point s ∧
  ((∃ i p, Screen.tempPoint (click x y s).1 = Some i ∧
      Screen.points s !! i = Some p ∧ near x y p = true ∧
      ∀ j q, j < i → Screen.points s !! j = Some q → near x y q = false) ∨
   ((click x y s).1 = s ∧
      ∀ j q, Screen.points s !! j = Some q → near x y q = false)).
Proof.
  unfold click. destruct (first_near x y 0 (Screen.points s)) as [i|] eqn:Hi; simpl.
  - do 4 (split; [done|]). left.
    apply first_near_Some in Hi as (_ & (p & Hp & Hnear) & Hmin).
    rewrite Nat.sub_0_r in Hp. exists i, p. do 3 (split; [done|]).
    intros j q Hj Hq. apply (Hmin j q); [lia|]. by rewrite Nat.sub_0_r.
  - do 4 (split; [done|]). right. split; [done|]. by eapply first_near_None.
Qed.

(** X6.  [drag] gives the pointer's position to the last locked point, in
    the order the points were made, that is less than [Config.POINT_SIZE]
    from the pointer, whatever point was being moved before, and runs the
    solver.  With no locked point under the pointer it goes on moving the
    point that was being moved; with none being moved it changes nothing, so
    a point that is not locked cannot be picked up. *)
Theorem drag_moves_last_locked_point (depth : nat) (x y : Z) (s : Screen.t F) :
  (∃ n p, Screen.points s !! n = Some p ∧ near x y p = true ∧ Point.locked p = true ∧
     (∀ m q, n < m → Screen.points s !! m = Some q →
        near x y q && Point.locked q = false) ∧
     drag depth x y s =
       simulate_frame depth
         (set_position n (of_int x, of_int y)
            (Screen.mk (Screen.points s) (Screen.sticks s) (Screen.tempPoint s) (Some n)))) ∨
  ((∀ m q, Screen.points s !! m = Some q → near x y q && Point.locked q = false) ∧
   drag depth x y s =
     match Screen.moving_point s with
     | Some m =>
         match Screen.points s !! m with
         | Some _ => simulate_frame depth (set_position m (of_int x, of_int y) s)
         | None => (s, Dangling)
         end
     | None => (s, Returned)
     end).
Proof.
  unfold drag. simpl.
  destruct (drag_loop_last x y 0 (Screen.points s) (Screen.moving_point s))
    as [(n & p & -> & _ & Hl & Hnear & Hlk & Hlast)|[-> Hnone]].
  - left. rewrite Nat.sub_0_r in Hl. exists n, p. do 3 (split; [done|]).
    split; [|by rewrite Hl].
    intros m q Hm Hq. apply (Hlast m q Hm). by rewrite Nat.sub_0_r.
  - right. split; [done|]. by destruct s as [points sticks temp [m|]].
Qed.

(** X7.  A release of the button on the remembered point, with nothing
    being moved, toggles the lock of that point and nothing else; a second
    release at the same place gives the screen back as it was. *)
Theorem release_twice_restores (x y : Z) (s : Screen.t F) (i : nat) (p : Point.t F) :
  Screen.moving_point s = None →
  Screen.tempPoint s = Some i →
  first_near x y 0 (Screen.points s) = Some i →
  Screen.points s !! i = Some p →
  release x y s = (toggle_locked i s, Returned) ∧
  Screen.points (release x y s).1 !! i =
    Some (Point.mk (Point.position p) (negb (Point.locked p)) (Point.prevPosition p)) ∧
  (∀ j, j ≠ i → Screen.points (release x y s).1 !! j = Screen.points s !! j) ∧
  release x y (release x y s).1 = (s, Returned).
Proof.
  intros Hmov Htemp Hnear Hp.
  assert (release x y s = (toggle_locked i s, Returned)) as Hrel.
  { unfold release. rewrite Hmov, Hnear. by rewrite decide_True. }
  rewrite Hrel. split; [done|]. simpl. split; [|split].
  - by rewrite list_lookup_alter_eq, Hp.
  - intros j Hj. by rewrite list_lookup_alter_ne.
  - unfold release. simpl. rewrite Hmov.
    rewrite (first_near_positions x y 0 _ (Screen.points s))
      by apply (toggle_locked_positions i s).
    rewrite Hnear, decide_True by done. by rewrite toggle_locked_twice.
Qed.

(** X8.  What each event leaves of a point that is there: a press of the
    button changes nothing of it; a motion does not change its lock and, if
    it is locked, leaves its position or sets it to the pointer's; a release
    does not change its position. *)
Theorem events_keep (depth : nat) (e : Event) (s : Screen.t F) (i : nat) (p : Point.t F) :
  Screen.points s !! i = Some p →
  ∃ p', Screen.points (handle depth e s) !! i = Some p' ∧
    match e with
    | ButtonPress _ _ => p' = p
    | Motion x y =>
        Point.locked p' = Point.locked p ∧
        (Point.locked p = true →
         Point.position p' = Point.position p ∨ Point.position p' = (of_int x, of_int y))
    | ButtonRelease _ _ => Point.position p' = Point.position p
    end.
Proof.
  intros Hi. destruct (handle_point depth e s i p Hi) as (p' & Hp' & _ & He).
  by exists p'.
Qed.

End PointerProperties.

Section PointerChecks.
Import PrimFloat.

Lemma moving_point_is_locked_witness :
  ∃ p, Screen.points (mainloop recursionlimit Examples.chain_events
                        (pantalla : Screen.t float)) !! 0 = Some p ∧
    Point.locked p = true.
Proof.
  apply (moving_point_is_locked recursionlimit Examples.chain_events 0).
  vm_compute. reflexivity.
Defined.

Lemma prevPosition_never_changes_witness :
  ∃ p', Screen.points (mainloop recursionlimit [Motion 60 100; ButtonRelease 60 100]
                         Examples.chain) !! 0 = Some p' ∧
    Point.prevPosition p' = (100, 100)%float.
Proof.
  exact (prevPosition_never_changes recursionlimit [Motion 60 100; ButtonRelease 60 100]
           Examples.chain 0 (Examples.dragged 50 100 100 100) eq_refl).
Defined.

Lemma release_twice_restores_witness :
  release 100 100 (Screen.mk [Examples.point 100 100 false] [] (Some 0) None) =
    (toggle_locked 0 (Screen.mk [Examples.point 100 100 false] [] (Some 0) None), Returned) ∧
  Screen.points
    (release 100 100 (Screen.mk [Examples.point 100 100 false] [] (Some 0) None)).1 !! 0 =
    Some (Point.mk (100, 100)%float true (100, 100)%float) ∧
  (∀ j, j ≠ 0 →
     Screen.points
       (release 100 100 (Screen.mk [Examples.point 100 100 false] [] (Some 0) None)).1 !! j =
     Screen.points (Screen.mk [Examples.point 100 100 false] [] (Some 0) None) !! j) ∧
  release 100 100
    (release 100 100 (Screen.mk [Examples.point 100 100 false] [] (Some 0) None)).1 =
    (Screen.mk [Examples.point 100 100 false] [] (Some 0) None, Returned).
Proof.
  apply (release_twice_restores 100 100
           (Screen.mk [Examples.point 100 100 false] [] (Some 0) None) 0
           (Examples.point 100 100 false)); reflexivity.
Defined.

Lemma events_keep_witness :
  ∃ p', Screen.points (handle recursionlimit (Motion 60 100) Examples.chain) !! 0 = Some p' ∧
    (Point.locked p' = true ∧
     (true = true →
      Point.position p' = (50, 100)%float ∨
      Point.position p' = (of_int 60, of_int 100))).
Proof.
  exact (events_keep recursionlimit (Motion 60 100) Examples.chain 0
           (Examples.dragged 50 100 100 100) eq_refl).
Defined.

End PointerChecks.

(** ** The solver as a whole *)

Section SolverProperties.
Context {F : Type} `{Scalar F}.

(** No stick has a locked end. *)
Definition unanchored (s : Screen.t F) : Prop :=
  Forall (λ stick,
            ∃ pa pb,
              Screen.points s !! Stick.pointA stick = Some pa ∧
              Screen.points s !! Stick.pointB stick = Some pb ∧
              Point.locked pa = false ∧ Point.locked pb = false) (Screen.sticks s).

Lemma sweep_unanchored depth l (s : Screen.t F) :
  unanchored s → (∀ e, e ∈ l → Screen.sticks s !! e.1 = Some e.2) →
  sweep depth l s = (s, Returned).
Proof.
  intros Hun. induction l as [|e l IH]; intros Hl; [done|].
  rewrite sweep_cons. unfold unanchored in Hun. rewrite Forall_lookup in Hun.
  destruct (Hun e.1 e.2) as (pa & pb & Ha & Hb & Hla & Hlb); [apply Hl; left|].
  rewrite (sweep_step_skip depth e s pa pb) by done.
  rewrite and_then_returned. apply IH. intros e' He'. apply Hl. by right.
Qed.

Lemma sweeps_unanchored n depth (s : Screen.t F) :
  unanchored s → sweeps n depth s = (s, Returned).
Proof.
  intros Hun. induction n as [|n IH]; [done|].
  rewrite sweeps_S, (sweep_unanchored depth _ s Hun) by apply enumerate_lookup.
  by rewrite and_then_returned.
Qed.

(** X9.  On a screen where no stick has a locked end the solver returns
    and changes nothing, whatever the bound on the recursion and also when
    the sticks form a cycle: the walk starts at locked ends only. *)
Theorem solver_without_anchor_changes_nothing (n depth : nat) (s : Screen.t F) :
  unanchored s →
  simulate_frame depth s = (s, Returned) ∧ sweeps n depth s = (s, Returned).
Proof. intros Hun. split; by apply sweeps_unanchored. Qed.

End SolverProperties.

Section SolverChecks.
Import PrimFloat.

Lemma solver_without_anchor_changes_nothing_witness :
  simulate_frame 0
    (Screen.mk
       [Examples.point 100 100 false; Examples.point 400 100 false;
        Examples.point 400 500 false]
       [Stick.mk 0 1 300%float; Stick.mk 1 2 400%float; Stick.mk 2 0 500%float] None None) =
    (Screen.mk
       [Examples.point 100 100 false; Examples.point 400 100 false;
        Examples.point 400 500 false]
       [Stick.mk 0 1 300%float; Stick.mk 1 2 400%float; Stick.mk 2 0 500%float] None None,
     Returned) ∧
  sweeps 3 0
    (Screen.mk
       [Examples.point 100 100 false; Examples.point 400 100 false;
        Examples.point 400 500 false]
       [Stick.mk 0 1 300%float; Stick.mk 1 2 400%float; Stick.mk 2 0 500%float] None None) =
    (Screen.mk
       [Examples.point 100 100 false; Examples.point 400 100 false;
        Examples.point 400 500 false]
       [Stick.mk 0 1 300%float; Stick.mk 1 2 400%float; Stick.mk 2 0 500%float] None None,
     Returned).
Proof.
  apply (solver_without_anchor_changes_nothing 3 0).
  unfold unanchored. each_stick; eexists _, _; repeat split; reflexivity.
Defined.

End SolverChecks.

(** ** Coordinates that are not numbers, in float64 *)

Section Lost.
Import PrimFloat.

Lemma sub_nan_r (x : float) : PrimFloat.sub x nan = nan.
Proof.
  rewrite <- (FloatAxioms.SF2Prim_Prim2SF (PrimFloat.sub x nan)), FloatAxioms.sub_spec.
  change (FloatOps.Prim2SF nan) with SpecFloat.S754_nan.
  by destruct (FloatOps.Prim2SF x) as [[]|[]| |].
Qed.

Lemma sub_nan_l (x : float) : PrimFloat.sub nan x = nan.
Proof.
  rewrite <- (FloatAxioms.SF2Prim_Prim2SF (PrimFloat.sub nan x)), FloatAxioms.sub_spec.
  reflexivity.
Qed.

(** Both coordinates are NaN. *)
Definition lost (p : Point.t float) : Prop := Point.position p = (nan, nan).

(** A lost point is under no pointer: a comparison with NaN is false. *)
Lemma near_lost (x y : Z) (p : Point.t float) : lost p → near x y p = false.
Proof.
  unfold lost, near, distance, asub. intros ->.
  cbn [fst snd fadd fsub fmul fsqrt fltb float64]. by rewrite !sub_nan_r.
Qed.

(** From a lost point, or for one, [calculate_joint] writes NaN. *)
Lemma snapped_lost (joint prevJoint : Point.t float) (length : float) :
  lost joint ∨ lost prevJoint → snapped joint prevJoint length = (nan, nan).
Proof.
  unfold lost, snapped, aadd, amul, adiv, distance, asub.
  cbn [fst snd fadd fsub fmul fdiv fsqrt float64].
  intros [-> | ->]; cbn [fst snd]; rewrite ?sub_nan_l, ?sub_nan_r;
    change (PrimFloat.div nan
              (PrimFloat.sqrt (PrimFloat.add (PrimFloat.mul nan nan) (PrimFloat.mul nan nan))))
      with nan;
    by rewrite !mul_nan, !add_nan.
Qed.

(** The point [i] is there and lost. *)
Definition lost_at (i : nat) (s : Screen.t float) : Prop :=
  ∃ p, Screen.points s !! i = Some p ∧ lost p.

Lemma calculate_joint_lost depth si letter (s : Screen.t float) i :
  lost_at i s → lost_at i (calculate_joint depth si letter s).1.
Proof.
  revert si letter s. induction depth as [|depth IH]; intros si letter s Hi; [done|].
  rewrite calculate_joint_S.
  destruct (Screen.sticks s !! si) as [stick|]; [|done].
  destruct (Screen.points s !! endpoint letter stick) as [joint|] eqn:Hj; [|done].
  destruct (Point.locked joint); [done|].
  destruct (Screen.points s !! endpoint (other letter) stick) as [prevJoint|]; [|done].
  set (s1 := set_position _ _ s).
  assert (lost_at i s1) as Hi1.
  { destruct Hi as (p & Hp & Hlost). unfold s1, set_position, lost_at. simpl.
    destruct (decide (endpoint letter stick = i)) as [Heq|Hne].
    - rewrite Heq in *. rewrite list_lookup_alter_eq, Hp. simpl. eexists. split; [done|].
      unfold lost. simpl. apply snapped_lost. left. congruence.
    - rewrite list_lookup_alter_ne by done. by exists p. }
  unfold follow. repeat case_match; try done. by apply IH.
Qed.

Lemma and_then_lost i (o : Outcome float) k :
  lost_at i o.1 → (∀ s, lost_at i s → lost_at i (k s).1) → lost_at i (o >>> k).1.
Proof. unfold and_then. destruct o as [s1 []]; simpl; auto. Qed.

Lemma sweep_lost depth l (s : Screen.t float) i :
  lost_at i s → lost_at i (sweep depth l s).1.
Proof.
  revert s. induction l as [|e l IH]; intros s Hi; [done|].
  simpl. apply and_then_lost; [|done].
  unfold sweep_step. repeat case_match; try done; by apply calculate_joint_lost.
Qed.

Lemma sweeps_lost n depth (s : Screen.t float) i :
  lost_at i s → lost_at i (sweeps n depth s).1.
Proof.
  revert s. induction n as [|n IH]; intros s Hi; [done|].
  simpl. apply and_then_lost; [by apply sweep_lost|done].
Qed.

(** A point that is not locked and lost, on a screen where the point being
    moved is a locked one. *)
Definition adrift (i : nat) (s : Screen.t float) : Prop :=
  grip s ∧ ∃ p, Screen.points s !! i = Some p ∧ Point.locked p = false ∧ lost p.

Lemma handle_adrift depth e (s : Screen.t float) i :
  adrift i s → adrift i (handle depth e s).
Proof.
  intros (Hg & p & Hp & Hfree & Hlost). split; [by apply handle_grip|].
  destruct e as [x y|x y|x y]; simpl.
  - exists p. unfold click. by case_match.
  - destruct (handle_point depth (Motion x y) s i p Hp) as (p' & Hp' & _ & Hlk & _).
    simpl in Hp'. exists p'. split; [done|]. split; [congruence|].
    assert (lost_at i (drag depth x y s).1) as (p'' & Hp'' & Hlost'); [|congruence].
    unfold drag. simpl.
    destruct (drag_loop x y 0 (Screen.points s) (Screen.moving_point s)) as [m|] eqn:Hm;
      [|by exists p].
    destruct (drag_loop_grip x y s m Hg Hm) as (pm & Hpm & Hlkm). rewrite Hpm.
    apply sweeps_lost. exists p. split; [|done].
    unfold set_position. simpl. rewrite list_lookup_alter_ne; [done|]. congruence.
  - unfold release. destruct (Screen.moving_point s); [by exists p|].
    destruct (first_near x y 0 (Screen.points s)) as [j|] eqn:Hj.
    + apply first_near_Some in Hj as (_ & (q & Hq & Hnear) & _).
      rewrite Nat.sub_0_r in Hq.
      assert (j ≠ i) as Hne.
      { intros ->. assert (q = p) as -> by congruence.
        rewrite (near_lost x y p Hlost) in Hnear. congruence. }
      case_decide.
      * exists p. unfold toggle_locked. simpl. by rewrite list_lookup_alter_ne.
      * destruct (Screen.tempPoint s) as [t|]; [|by exists p].
        unfold create_stick. repeat case_match; by exists p.
    + exists p. simpl. split; [|done]. by apply lookup_app_l_Some.
Qed.

Lemma mainloop_adrift depth events (s : Screen.t float) i :
  adrift i s → adrift i (mainloop depth events s).
Proof.
  revert s. induction events as [|e events IH]; intros s Hi; [done|].
  simpl. apply IH. by apply handle_adrift.
Qed.

(** X12.  A point that is not locked and has NaN for its coordinates stays
    so for the rest of the run, whatever the pointer events: the solver
    writes nothing but NaN to it; it is under no pointer, so it is never the
    point a press or a release of the button finds; and it is never the point
    being moved.  Its lock is not toggled and it is not picked up again.  (A
    point remembered before it was lost stays remembered, and a release on
    another point still connects it.) *)
Theorem lost_point_stays_lost (depth : nat) (events events' : list Event) (i : nat)
    (p : Point.t float) :
  Screen.points (mainloop depth events pantalla) !! i = Some p →
  Point.locked p = false →
  Point.position p = (nan, nan) →
  ∃ p', Screen.points (mainloop depth events' (mainloop depth events pantalla)) !! i = Some p' ∧
    Point.locked p' = false ∧
    Point.position p' = (nan, nan) ∧
    Screen.moving_point
      (mainloop depth events' (mainloop depth events (pantalla : Screen.t float))) ≠ Some i ∧
    ∀ x y,
      near x y p' = false ∧
      first_near x y 0
        (Screen.points
           (mainloop depth events' (mainloop depth events (pantalla : Screen.t float)))) ≠
        Some i.
Proof.
  intros Hp Hfree Hlost.
  destruct (mainloop_adrift depth events' (mainloop depth events pantalla) i)
    as (Hg & p' & Hp' & Hfree' & Hlost').
  { split; [apply mainloop_grip, grip_pantalla|]. by exists p. }
  exists p'. do 3 (split; [done|]). split.
  - intros Hm. destruct (Hg i Hm) as (q & Hq & Hlk). congruence.
  - intros x y. split; [by apply near_lost|].
    intros (_ & (q & Hq & Hnear) & _)%first_near_Some.
    rewrite Nat.sub_0_r in Hq. assert (q = p') as -> by congruence.
    rewrite (near_lost x y p' Hlost') in Hnear. done.
Qed.

(** X13.  NaN goes down the chain: when the joint or the other end of the
    stick has NaN for its coordinates, [calculate_joint] writes NaN in both
    coordinates to the joint, if it is not locked, and goes on with the loop
    over the other sticks. *)
Theorem nan_goes_down_the_chain (depth si : nat) (letter : Letter) (s : Screen.t float)
    (stick : Stick.t float) (joint prevJoint : Point.t float) :
  Screen.sticks s !! si = Some stick →
  Screen.points s !! endpoint letter stick = Some joint →
  Point.locked joint = false →
  Screen.points s !! endpoint (other letter) stick = Some prevJoint →
  Point.position joint = (nan, nan) ∨ Point.position prevJoint = (nan, nan) →
  calculate_joint (S depth) si letter s =
  next_loop (calculate_joint depth) (endpoint letter stick) (others si (Screen.sticks s))
    (set_position (endpoint letter stick) (nan, nan) s).
Proof.
  intros Hsi Hj Hfree Hp Hnan.
  rewrite <- (snapped_lost joint prevJoint (Stick.length stick) Hnan).
  simpl. by rewrite Hsi, Hj, Hfree, Hp.
Qed.

End Lost.

Section LostChecks.
Import PrimFloat.

Lemma lost_point_stays_lost_witness :
  ∃ p', Screen.points
          (mainloop recursionlimit
             [ButtonRelease 200 100; ButtonPress 200 100; Motion 210 100; ButtonRelease 210 100]
             (mainloop recursionlimit (Examples.coincident_events ++ [Motion 200 100])
                pantalla)) !! 1 = Some p' ∧
    Point.locked p' = false ∧
    Point.position p' = (nan, nan) ∧
    Screen.moving_point
      (mainloop recursionlimit
         [ButtonRelease 200 100; ButtonPress 200 100; Motion 210 100; ButtonRelease 210 100]
         (mainloop recursionlimit (Examples.coincident_events ++ [Motion 200 100])
            (pantalla : Screen.t float))) ≠ Some 1 ∧
    ∀ x y,
      near x y p' = false ∧
      first_near x y 0
        (Screen.points
           (mainloop recursionlimit
              [ButtonRelease 200 100; ButtonPress 200 100; Motion 210 100;
               ButtonRelease 210 100]
              (mainloop recursionlimit (Examples.coincident_events ++ [Motion 200 100])
                 (pantalla : Screen.t float)))) ≠ Some 1.
Proof.
  apply (lost_point_stays_lost recursionlimit (Examples.coincident_events ++ [Motion 200 100])
           [ButtonRelease 200 100; ButtonPress 200 100; Motion 210 100; ButtonRelease 210 100]
           1 (Point.mk (nan, nan) false (200, 100)%float)).
  - vm_compute. reflexivity.
  - reflexivity.
  - reflexivity.
Defined.

Lemma nan_goes_down_the_chain_witness :
  calculate_joint 2 1 B
    (Examples.screen
       [Examples.dragged 200 100 100 100; Point.mk (nan, nan) false (200, 100)%float;
        Examples.point 300 100 false]
       [Stick.mk 0 1 100%float; Stick.mk 1 2 100%float]) =
  next_loop (calculate_joint 1) 2 (others 1 [Stick.mk 0 1 100%float; Stick.mk 1 2 100%float])
    (set_position 2 (nan, nan)
       (Examples.screen
          [Examples.dragged 200 100 100 100; Point.mk (nan, nan) false (200, 100)%float;
           Examples.point 300 100 false]
          [Stick.mk 0 1 100%float; Stick.mk 1 2 100%float])).
Proof.
  exact (nan_goes_down_the_chain 1 1 B
           (Examples.screen
              [Examples.dragged 200 100 100 100; Point.mk (nan, nan) false (200, 100)%float;
               Examples.point 300 100 false]
              [Stick.mk 0 1 100%float; Stick.mk 1 2 100%float])
           (Stick.mk 1 2 100%float)
           (Examples.point 300 100 false) (Point.mk (nan, nan) false (200, 100)%float)
           eq_refl eq_refl eq_refl eq_refl (or_intror eq_refl)).
Defined.

End LostChecks.

(** ** The snap moves the joint as little as it can, in exact arithmetic *)

Section Nearest.
#[local] Open Scope R_scope.

(** Where the snap puts the joint is the point at [length] from the other
    end that is nearest to where the joint was. *)
Lemma snapped_nearest (joint prevJoint : Point.t R) (length : R) (r : array R) :
  Point.position joint ≠ Point.position prevJoint → 0 <= length →
  distance (asub r (Point.position prevJoint)) = length →
  distance (asub (snapped joint prevJoint length) (Point.position joint)) <=
  distance (asub r (Point.position joint)).
Proof.
  intros Hne Hlen Hr.
  assert (distance (asub (Point.position joint) (Point.position prevJoint)) ≠ 0) as Hn.
  { by rewrite distance_zero. }
  revert Hn Hr. unfold snapped, distance, asub, aadd, amul, adiv.
  destruct (Point.position joint) as [jx jy], (Point.position prevJoint) as [px py],
    r as [rx ry].
  cbn [fst snd fadd fsub fmul fdiv fsqrt exact].
  set (D := (jx - px) * (jx - px) + (jy - py) * (jy - py)).
  set (d := sqrt D).
  intros Hn Hr.
  assert (0 <= D) as HD by apply squares_nonneg.
  assert (d * d = D) as Hdd by (by apply sqrt_sqrt).
  assert (0 <= d) as Hd by apply sqrt_pos.
  assert (0 < d) as Hdpos by lra.
  assert (length * length = (rx - px) * (rx - px) + (ry - py) * (ry - py)) as Hll.
  { rewrite <- Hr. rewrite sqrt_sqrt; [done|apply squares_nonneg]. }
  pose proof (dot_le_norms (rx - px) (ry - py) (jx - px) (jy - py) length d
                Hlen Hd Hll Hdd) as Hdot.
  apply sqrt_le_1_alt.
  replace ((px + (jx - px) / d * length - jx) * (px + (jx - px) / d * length - jx) +
           (py + (jy - py) / d * length - jy) * (py + (jy - py) / d * length - jy))
    with ((length - d) * (length - d) * (D / (d * d))).
  - assert (0 < D) as HDpos by (rewrite <- Hdd; apply Rmult_lt_0_compat; lra).
    rewrite Hdd. replace (D / D) with 1 by (field; lra).
    unfold D in Hdd. nra.
  - unfold D. field. lra.
Qed.

(** X14.  In exact arithmetic, a call of [calculate_joint] with a joint
    that is not locked and not where the other end of the stick is writes to
    the joint the point at the stick's length from the other end that is
    nearest to where the joint was, and goes on with the loop over the other
    sticks: the joint is at the stick's length from the other end, and no
    point at that length is nearer to the joint's place before. *)
Theorem calculate_joint_moves_least (depth si : nat) (letter : Letter) (s : Screen.t R)
    (stick : Stick.t R) (joint prevJoint : Point.t R) :
  Screen.sticks s !! si = Some stick →
  Screen.points s !! endpoint letter stick = Some joint →
  Point.locked joint = false →
  Screen.points s !! endpoint (other letter) stick = Some prevJoint →
  Point.position joint ≠ Point.position prevJoint →
  0 <= Stick.length stick →
  ∃ q,
    calculate_joint (S depth) si letter s =
      next_loop (calculate_joint depth) (endpoint letter stick)
        (others si (Screen.sticks s)) (set_position (endpoint letter stick) q s) ∧
    distance (asub q (Point.position prevJoint)) = Stick.length stick ∧
    ∀ r, distance (asub r (Point.position prevJoint)) = Stick.length stick →
      distance (asub q (Point.position joint)) <= distance (asub r (Point.position joint)).
Proof.
  intros Hsi Hj Hfree Hp Hne Hlen.
  exists (snapped joint prevJoint (Stick.length stick)). split; [|split].
  - simpl. by rewrite Hsi, Hj, Hfree, Hp.
  - by apply snapped_distance.
  - intros r Hr. by apply snapped_nearest.
Qed.

End Nearest.

Section NearestChecks.
#[local] Open Scope R_scope.

Lemma calculate_joint_moves_least_witness :
  ∃ q,
    calculate_joint 1000 0 B ExactExamples.chain =
      next_loop (calculate_joint 999) (endpoint B (Stick.mk 0 1 100))
        (others 0 (Screen.sticks ExactExamples.chain))
        (set_position (endpoint B (Stick.mk 0 1 100)) q ExactExamples.chain) ∧
    distance (asub q (Point.position (ExactExamples.dragged 50 100 100 100))) =
      Stick.length (Stick.mk 0 1 100) ∧
    ∀ r, distance (asub r (Point.position (ExactExamples.dragged 50 100 100 100))) =
           Stick.length (Stick.mk 0 1 100) →
      distance (asub q (Point.position (ExactExamples.point 200 100 false))) <=
      distance (asub r (Point.position (ExactExamples.point 200 100 false))).
Proof.
  apply (calculate_joint_moves_least 999 0 B ExactExamples.chain (Stick.mk 0 1 100)
           (ExactExamples.point 200 100 false) (ExactExamples.dragged 50 100 100 100)).
  - reflexivity.
  - reflexivity.
  - reflexivity.
  - reflexivity.
  - simpl. intros [= Hx]. lra.
  - simpl. lra.
Defined.

End NearestChecks.

(** ** Making a point and locking it, in float64 *)

Section Gestures.
Import PrimFloat.
#[local] Open Scope Z_scope.

(** Every coordinate of the canvas is a float that is zero less itself. *)
Lemma canvas_coordinate (x : Z) :
  0 ≤ x < Config.SCREEN_SIZE.1 →
  PrimFloat.sub (of_int x) (of_int x) = PrimFloat.zero.
Proof.
  intros Hx.
  assert (List.forallb
            (λ k, PrimFloat.Leibniz.eqb
                    (PrimFloat.sub (of_int (Z.of_nat k)) (of_int (Z.of_nat k)))
                    PrimFloat.zero)
            (List.seq 0 (Z.to_nat Config.SCREEN_SIZE.1)) = true) as Hall.
  { vm_compute. reflexivity. }
  rewrite List.forallb_forall in Hall. specialize (Hall (Z.to_nat x)).
  rewrite Z2Nat.id in Hall by lia.
  apply FloatAxioms.Leibniz.eqb_spec, Hall, List.in_seq.
  change Config.SCREEN_SIZE.1 with 900%Z in *. lia.
Qed.

(** The pointer is on a point made where the pointer is. *)
Lemma near_new_point (x y : Z) :
  0 ≤ x < Config.SCREEN_SIZE.1 → 0 ≤ y < Config.SCREEN_SIZE.2 →
  near x y (new_point x y : Point.t float) = true.
Proof.
  intros Hx Hy. unfold near, new_point, distance, asub.
  cbn [Point.position fst snd fadd fsub fmul fsqrt fltb float64].
  rewrite (canvas_coordinate x) by done.
  rewrite (canvas_coordinate y) by (simpl in *; lia).
  vm_compute. reflexivity.
Qed.

Lemma first_near_nowhere x y i (l : list (Point.t float)) :
  (∀ m q, l !! m = Some q → near x y q = false) → first_near x y i l = None.
Proof.
  revert i. induction l as [|p l IH]; intros i Hl; [done|]. cbn [first_near].
  rewrite (Hl 0%nat p) by done. apply IH. intros m q Hq. by apply (Hl (S m)).
Qed.

(** X15.  On the canvas, with nothing being moved, a press and a release of
    the button where no point is make a point there, not locked, with
    [prevPosition] its position, and forget the remembered point; a second
    press and release on the spot find that very point and lock it, and
    change nothing else. *)
Theorem made_point_is_found_and_locked (depth : nat) (x y : Z) (s : Screen.t float) :
  0 ≤ x < Config.SCREEN_SIZE.1 → 0 ≤ y < Config.SCREEN_SIZE.2 →
  Screen.moving_point s = None →
  (∀ m q, Screen.points s !! m = Some q → near x y q = false) →
  mainloop depth [ButtonPress x y; ButtonRelease x y] s =
    Screen.mk (Screen.points s ++ [Point.mk (of_int x, of_int y) false (of_int x, of_int y)])
      (Screen.sticks s) None None ∧
  mainloop depth [ButtonPress x y; ButtonRelease x y; ButtonPress x y; ButtonRelease x y] s =
    Screen.mk (Screen.points s ++ [Point.mk (of_int x, of_int y) true (of_int x, of_int y)])
      (Screen.sticks s) (Some (length (Screen.points s))) None.
Proof.
  intros Hx Hy Hmov Hnone.
  pose proof (first_near_nowhere x y 0 (Screen.points s) Hnone) as Hfirst.
  assert (first_near x y 0 (Screen.points s ++ [new_point x y]) =
          Some (length (Screen.points s))) as Hfound.
  { rewrite first_near_app by done. cbn [first_near]. by rewrite near_new_point. }
  assert (mainloop depth [ButtonPress x y; ButtonRelease x y] s =
          Screen.mk (Screen.points s ++ [new_point x y]) (Screen.sticks s) None None) as Hmade.
  { simpl. unfold click. rewrite Hfirst. simpl. unfold release.
    rewrite Hmov, Hfirst. simpl. by rewrite Hmov. }
  split; [done|].
  change [ButtonPress x y; ButtonRelease x y; ButtonPress x y; ButtonRelease x y]
    with ([ButtonPress x y; ButtonRelease x y] ++ [ButtonPress x y; ButtonRelease x y]).
  unfold mainloop in *. rewrite foldl_app, Hmade. simpl.
  unfold click. simpl. rewrite Hfound. simpl.
  unfold release. simpl. rewrite Hfound. rewrite decide_True by done.
  unfold toggle_locked. simpl. f_equal.
  rewrite <- (Nat.add_0_r (length (Screen.points s))). by rewrite alter_app_r.
Qed.

End Gestures.

Section GestureChecks.
Import PrimFloat.
#[local] Open Scope Z_scope.

Lemma made_point_is_found_and_locked_witness :
  mainloop recursionlimit [ButtonPress 100 100; ButtonRelease 100 100]
    (pantalla : Screen.t float) =
    Screen.mk ([] ++ [Point.mk (of_int 100, of_int 100) false (of_int 100, of_int 100)])
      [] None None ∧
  mainloop recursionlimit
    [ButtonPress 100 100; ButtonRelease 100 100; ButtonPress 100 100; ButtonRelease 100 100]
    (pantalla : Screen.t float) =
    Screen.mk ([] ++ [Point.mk (of_int 100, of_int 100) true (of_int 100, of_int 100)])
      [] (Some 0%nat) None.
Proof.
  apply (made_point_is_found_and_locked recursionlimit 100 100 pantalla).
  - simpl. lia.
  - simpl. lia.
  - reflexivity.
  - intros m q Hq. done.
Defined.

End GestureChecks.

(** ** Gestures: a tap on a point, and a stroke from one point to another *)

Section Strokes.
Context {F : Type} `{Scalar F}.

(** The point [i] is the first one, in the order the points were made, that
    the pointer at [(x, y)] is on. *)
Definition under (x y : Z) (i : nat) (s : Screen.t F) : Prop :=
  ∃ p, Screen.points s !! i = Some p ∧ near x y p = true ∧
    ∀ m q, m < i → Screen.points s !! m = Some q → near x y q = false.

(** No locked point is under the pointer at [(x, y)]. *)
Definition idle (s : Screen.t F) (xy : Z * Z) : Prop :=
  ∀ m q, Screen.points s !! m = Some q → near xy.1 xy.2 q && Point.locked q = false.

Lemma first_near_first x y i (l : list (Point.t F)) n p :
  l !! n = Some p → near x y p = true →
  (∀ m q, m < n → l !! m = Some q → near x y q = false) →
  first_near x y i l = Some (i + n).
Proof.
  revert i n. induction l as [|p0 l IH]; intros i n Hn Hnear Hmin; [done|].
  cbn [first_near]. destruct n as [|n].
  - simpl in Hn. injection Hn as ->. rewrite Hnear. f_equal. lia.
  - assert (near x y p0 = false) as -> by (apply (Hmin 0 p0); [lia|done]).
    simpl in Hn. rewrite (IH (S i) n); [f_equal; lia|done|done|].
    intros m q Hm Hq. apply (Hmin (S m) q); [lia|done].
Qed.

Lemma under_first_near x y i (s : Screen.t F) :
  under x y i s → first_near x y 0 (Screen.points s) = Some i.
Proof. intros (p & Hp & Hnear & Hmin). by apply (first_near_first x y 0 _ i p). Qed.

(** A motion with nothing being moved and no locked point under the
    pointer changes nothing. *)
Lemma drag_idle depth x y (s : Screen.t F) :
  Screen.moving_point s = None → idle s (x, y) → drag depth x y s = (s, Returned).
Proof.
  intros Hmov Hidle. unfold drag. simpl.
  destruct (drag_loop_last x y 0 (Screen.points s) (Screen.moving_point s))
    as [(n & p & _ & _ & Hl & Hnear & Hlk & _)|[-> _]].
  - rewrite Nat.sub_0_r in Hl. specialize (Hidle n p Hl). simpl in Hidle.
    rewrite Hnear, Hlk in Hidle. done.
  - rewrite Hmov. destruct s. simpl in *. by subst.
Qed.

Lemma motions_idle depth (motions : list (Z * Z)) (s : Screen.t F) :
  Screen.moving_point s = None → Forall (idle s) motions →
  mainloop depth ((λ xy, Motion xy.1 xy.2) <$> motions) s = s.
Proof.
  intros Hmov Hidle. induction Hidle as [|[x y] motions Hxy _ IH]; [done|].
  simpl. by rewrite (drag_idle depth x y s).
Qed.

(** X16.  A tap on a point, a press and a release of the button at the
    same place with nothing being moved, toggles the lock of the first point
    under the pointer and remembers that point; it changes nothing else, and
    makes no point and no stick. *)
Theorem tap_toggles_lock (depth : nat) (x y : Z) (s : Screen.t F) (i : nat) :
  Screen.moving_point s = None →
  under x y i s →
  mainloop depth [ButtonPress x y; ButtonRelease x y] s =
    toggle_locked i (Screen.mk (Screen.points s) (Screen.sticks s) (Some i) None).
Proof.
  intros Hmov Hi%under_first_near. simpl. unfold click. rewrite Hi. simpl.
  unfold release. simpl. rewrite Hmov, Hi. by rewrite decide_True.
Qed.

(** X17.  A stroke from one point to another, a press of the button on the
    point [a], motions during which no locked point comes under the pointer,
    and a release on a different point [b], with nothing being moved, makes
    one stick from [a] to [b] whose length is the distance of the two points,
    and remembers [a]; no point is made, moved or toggled. *)
Theorem stroke_makes_stick (depth : nat) (x y x' y' : Z) (motions : list (Z * Z))
    (s : Screen.t F) (a b : nat) (pa pb : Point.t F) :
  Screen.moving_point s = None →
  under x y a s →
  under x' y' b s →
  a ≠ b →
  Forall (idle s) motions →
  Screen.points s !! a = Some pa →
  Screen.points s !! b = Some pb →
  mainloop depth
    ([ButtonPress x y] ++ ((λ xy, Motion xy.1 xy.2) <$> motions) ++ [ButtonRelease x' y']) s =
    Screen.mk (Screen.points s)
      (Screen.sticks s ++
         [Stick.mk a b (distance (asub (Point.position pa) (Point.position pb)))])
      (Some a) None.
Proof.
  intros Hmov Ha%under_first_near Hb%under_first_near Hne Hidle Hpa Hpb.
  unfold mainloop. rewrite !foldl_app. cbn [foldl handle].
  unfold click. rewrite Ha. cbn [fst].
  set (s1 := Screen.mk (Screen.points s) (Screen.sticks s) (Some a) (Screen.moving_point s)).
  pose proof (motions_idle depth motions s1 Hmov Hidle) as Hm. unfold mainloop in Hm.
  rewrite Hm. unfold release, s1. cbn [Screen.moving_point Screen.points Screen.tempPoint].
  rewrite Hmov, Hb. rewrite decide_False by congruence.
  unfold create_stick. cbn [Screen.points]. rewrite Hpa, Hpb. done.
Qed.

End Strokes.

Section StrokeChecks.
Import PrimFloat.
#[local] Open Scope Z_scope.

Lemma tap_toggles_lock_witness :
  mainloop recursionlimit [ButtonPress 205 100; ButtonRelease 205 100]
    (Screen.mk [Examples.point 100 100 false; Examples.point 200 100 false] [] None None) =
  toggle_locked 1
    (Screen.mk [Examples.point 100 100 false; Examples.point 200 100 false] [] (Some 1%nat)
       None).
Proof.
  apply (tap_toggles_lock recursionlimit 205 100
           (Screen.mk [Examples.point 100 100 false; Examples.point 200 100 false] []
              None None) 1).
  - reflexivity.
  - exists (Examples.point 200 100 false). split; [reflexivity|]. split; [reflexivity|].
    intros [|m] q Hm Hq; [|lia]. injection Hq as <-. reflexivity.
Defined.

Lemma stroke_makes_stick_witness :
  mainloop recursionlimit
    ([ButtonPress 100 100] ++ ((λ xy, Motion xy.1 xy.2) <$> [(150, 100)]) ++
     [ButtonRelease 200 100])
    (Screen.mk [Examples.point 100 100 false; Examples.point 200 100 false] [] None None) =
  Screen.mk [Examples.point 100 100 false; Examples.point 200 100 false]
    ([] ++ [Stick.mk 0 1
              (distance (asub (Point.position (Examples.point 100 100 false))
                           (Point.position (Examples.point 200 100 false))))])
    (Some 0%nat) None.
Proof.
  apply (stroke_makes_stick recursionlimit 100 100 200 100 [(150, 100)]
           (Screen.mk [Examples.point 100 100 false; Examples.point 200 100 false] []
              None None) 0 1).
  - reflexivity.
  - exists (Examples.point 100 100 false). split; [reflexivity|]. split; [reflexivity|].
    intros m q Hm. lia.
  - exists (Examples.point 200 100 false). split; [reflexivity|]. split; [reflexivity|].
    intros [|m] q Hm Hq; [|lia]. injection Hq as <-. reflexivity.
  - done.
  - apply Forall_singleton. intros [|[|m]] q Hq; simpl in Hq; try done;
      injection Hq as <-; reflexivity.
  - reflexivity.
  - reflexivity.
Defined.

End StrokeChecks.

(** ** The length of a stick, in float64 *)

Section Lengths.
Import PrimFloat.

Lemma release_stick_made {F : Type} `{Scalar F} x y (s : Screen.t F) :
  Screen.sticks (release x y s).1 = Screen.sticks s ∨
  ∃ t i pa pb,
    Screen.points s !! t = Some pa ∧ Screen.points s !! i = Some pb ∧
    Screen.sticks (release x y s).1 =
      Screen.sticks s ++
        [Stick.mk t i (distance (asub (Point.position pa) (Point.position pb)))].
Proof.
  unfold release.
  destruct (Screen.moving_point s); [by left|].
  destruct (first_near x y 0 (Screen.points s)) as [i|]; [|by left].
  case_decide as Htemp; [by left|].
  destruct (Screen.tempPoint s) as [t|]; [|by left].
  unfold create_stick.
  destruct (Screen.points s !! t) as [pa|] eqn:Hpa; [|by left].
  destruct (Screen.points s !! i) as [pb|] eqn:Hpb; [|by left].
  right. by exists t, i, pa, pb.
Qed.

Lemma drag_sticks {F : Type} `{Scalar F} depth x y (s : Screen.t F) :
  Screen.sticks (drag depth x y s).1 = Screen.sticks s.
Proof.
  unfold drag. simpl. repeat case_match; try done.
  match goal with
  | |- Screen.sticks (simulate_frame _ ?s2).1 = _ =>
      apply (sweeps_frame Config.STICK_ITERATIONS depth s2)
  end.
Qed.

(** No stick has a length less than zero. *)
Definition measured (s : Screen.t float) : Prop :=
  Forall (λ stick, PrimFloat.ltb (Stick.length stick) zero = false) (Screen.sticks s).

Lemma handle_measured depth e (s : Screen.t float) : measured s → measured (handle depth e s).
Proof.
  intros Hm. unfold measured. destruct e as [x y|x y|x y]; simpl.
  - unfold click. by case_match.
  - by rewrite drag_sticks.
  - destruct (release_stick_made x y s) as [->|(t & i & pa & pb & _ & _ & ->)]; [done|].
    apply Forall_app. split; [done|]. apply Forall_singleton.
    cbn [Stick.length]. apply sqrt_not_negative.
Qed.

(** X18.  In float64, whatever the run of pointer events from the empty
    screen, no stick of the screen has a length less than zero: the length
    is the square root [create_stick] took, and nothing changes it. *)
Theorem reached_lengths_not_negative (depth : nat) (events : list Event) :
  Forall (λ stick, PrimFloat.ltb (Stick.length stick) zero = false)
    (Screen.sticks (mainloop depth events (pantalla : Screen.t float))).
Proof.
  assert (∀ s : Screen.t float, measured s → measured (mainloop depth events s)) as Hall.
  { induction events as [|e events IH]; intros s Hs; [done|].
    simpl. apply IH. by apply handle_measured. }
  apply (Hall pantalla). constructor.
Qed.

End Lengths.
